(** * hvm: the vault-to-vault secret migrator ([internal/vaultsync])

    A shallow embedding of [vaultsync.go], [config.go] and the commands
    of [cmd/hvm.go]:
    - Go's [int] is a [Z] with the 64-bit wrap-around written out;
    - Go strings and byte slices are [string]s (sequences of bytes);
    - values held in an [interface{}] after JSON decoding are the
      inductive [Value]; a [map[string]interface{}] is the list of its
      fields in some iteration order, with pairwise distinct keys;
    - [(T, error)] results are the sum [result]; a run-time panic and a
      loop that has not finished are the extra cases of [outcome];
    - the two Vault servers and the client library stand behind the class
      [Backend]: one transition function on an abstract world;
    - the goroutines of [batchSync] appear twice: run one after the other
      in dispatch order ([batchSync], [Sync]), and interleaved by an
      arbitrary scheduler in the module [Conc]. *)

From stdpp Require Import base numbers list strings gmap finite sorting.
From Stdlib Require Import Ascii ssreflect.

Local Open Scope Z_scope.
Set Warnings "-register-all,-rewrite-rw".

(* ================================================================= *)
(** ** Go's [int] *)

Module GoInt.
Definition min_int : Z := - 2 ^ 63.
Definition max_int : Z := 2 ^ 63 - 1.

(** Two's-complement wrap-around of a 64-bit signed integer. *)
Definition wrap (z : Z) : Z := (z + 2 ^ 63) `mod` 2 ^ 64 - 2 ^ 63.

Definition add (a b : Z) : Z := wrap (a + b).

Definition in_range (z : Z) : Prop := min_int ≤ z ≤ max_int.

(** [len(s)] of a slice. *)
Definition len {A} (s : list A) : Z := Z.of_nat (length s).

(** The slice expression [s[i:j]]: it panics ([None]) unless
    [0 <= i <= j <= cap(s)].  Every slice sliced in this package comes
    out of [append] with [j] already clamped to [len(s)], so the bound
    that matters is the length. *)
Definition slice {A} (s : list A) (i j : Z) : option (list A) :=
  if bool_decide (0 ≤ i ∧ i ≤ j ∧ j ≤ len s)
  then Some (take (Z.to_nat (j - i)) (drop (Z.to_nat i) s))
  else None.
End GoInt.

(* ================================================================= *)
(** ** Bytes and strings *)

Definition byte_of (a : ascii) : Z := Z.of_N (N_of_ascii a).

Fixpoint bytes_of (s : string) : list Z :=
  match s with
  | EmptyString => []
  | String a s' => byte_of a :: bytes_of s'
  end.

Definition ascii_of (z : Z) : ascii := ascii_of_N (Z.to_N z).

Fixpoint string_of (l : list Z) : string :=
  match l with
  | [] => EmptyString
  | z :: l' => String (ascii_of z) (string_of l')
  end.

(** [bytes.HasPrefix(b, prefix)]. *)
Fixpoint HasPrefix (b prefix : string) {struct prefix} : bool :=
  match prefix, b with
  | EmptyString, _ => true
  | String p prefix', String c b' => Ascii.eqb p c && HasPrefix b' prefix'
  | String _ _, EmptyString => false
  end.

(** The UTF-8 encodings of the code points with Unicode's White_Space
    property, which is what [unicode.IsSpace] tests: U+0009..U+000D,
    U+0020, U+0085, U+00A0, U+1680, U+2000..U+200A, U+2028, U+2029,
    U+202F, U+205F, U+3000. *)
Definition space_runes : list (list Z) :=
  [ [0x09]; [0x0a]; [0x0b]; [0x0c]; [0x0d]; [0x20];
    [0xc2; 0x85]; [0xc2; 0xa0]; [0xe1; 0x9a; 0x80];
    [0xe2; 0x80; 0x80]; [0xe2; 0x80; 0x81]; [0xe2; 0x80; 0x82];
    [0xe2; 0x80; 0x83]; [0xe2; 0x80; 0x84]; [0xe2; 0x80; 0x85];
    [0xe2; 0x80; 0x86]; [0xe2; 0x80; 0x87]; [0xe2; 0x80; 0x88];
    [0xe2; 0x80; 0x89]; [0xe2; 0x80; 0x8a]; [0xe2; 0x80; 0xa8];
    [0xe2; 0x80; 0xa9]; [0xe2; 0x80; 0xaf]; [0xe2; 0x81; 0x9f];
    [0xe3; 0x80; 0x80] ].

Fixpoint starts_with (p l : list Z) : option (list Z) :=
  match p, l with
  | [], _ => Some l
  | x :: p', y :: l' => if bool_decide (x = y) then starts_with p' l' else None
  | _ :: _, [] => None
  end.

(** The rest of [l] after one leading white-space rune, if it has one. *)
Fixpoint strip_rune (runes : list (list Z)) (l : list Z) : option (list Z) :=
  match runes with
  | [] => None
  | r :: runes' =>
      match starts_with r l with
      | Some rest => Some rest
      | None => strip_rune runes' l
      end
  end.

(** [bytes.TrimLeftFunc(l, unicode.IsSpace)]; every white-space rune has at
    least one byte, so the length of the input is fuel enough. *)
Fixpoint trim_left (fuel : nat) (runes : list (list Z)) (l : list Z) : list Z :=
  match fuel with
  | O => l
  | S fuel' =>
      match strip_rune runes l with
      | Some rest => trim_left fuel' runes rest
      | None => l
      end
  end.

Definition TrimLeftSpace (l : list Z) : list Z :=
  trim_left (length l) space_runes l.

(** Trailing runes are found from the right end ([utf8.DecodeLastRune]):
    the same search on the reversed bytes with the reversed encodings. *)
Definition TrimRightSpace (l : list Z) : list Z :=
  reverse (trim_left (length l) (reverse <$> space_runes) (reverse l)).

(** [bytes.TrimSpace(b)]: leading, then trailing white space. *)
Definition TrimSpace (b : string) : string :=
  string_of (TrimRightSpace (TrimLeftSpace (bytes_of b))).

(** [strings.Split(s, " ")]: the pieces between single spaces; always at
    least one piece. *)
Fixpoint split_go (cur : string) (s : string) : list string :=
  match s with
  | EmptyString => [String.rev cur]
  | String a s' =>
      if bool_decide (a = " "%char)
      then String.rev cur :: split_go EmptyString s'
      else split_go (String a cur) s'
  end.

Definition Split (s : string) : list string := split_go EmptyString s.

(* ================================================================= *)
(** ** Decoded JSON values and [json.Marshal] *)

(** What an [interface{}] holds after the client has decoded a JSON body.
    A number is kept as the literal [json.Marshal] prints for it.  The
    fields of a map are listed in an arbitrary order (Go maps have none);
    [wf_value] says that the keys of every map are pairwise distinct. *)
Inductive Value : Type :=
| VNil
| VBool (b : bool)
| VNumber (lit : string)
| VString (s : string)
| VArray (vs : list Value)
| VMap (fs : list (string * Value)).

(** Induction on a value with the elements of its arrays and the fields
    of its maps. *)
Section ValueInduction.
Variable P : Value → Prop.
Hypothesis HNil : P VNil.
Hypothesis HBool : ∀ b, P (VBool b).
Hypothesis HNumber : ∀ lit, P (VNumber lit).
Hypothesis HString : ∀ s, P (VString s).
Hypothesis HArray : ∀ vs, Forall P vs → P (VArray vs).
Hypothesis HMap : ∀ fs, Forall (λ f, P f.2) fs → P (VMap fs).

Fixpoint Value_nested_ind (v : Value) : P v :=
  match v with
  | VNil => HNil
  | VBool b => HBool b
  | VNumber lit => HNumber lit
  | VString s => HString s
  | VArray vs =>
      HArray vs ((fix go (l : list Value) : Forall P l :=
                    match l with
                    | [] => List.Forall_nil _
                    | x :: l' => List.Forall_cons _ _ _ (Value_nested_ind x) (go l')
                    end) vs)
  | VMap fs =>
      HMap fs ((fix go (l : list (string * Value)) : Forall (λ f, P f.2) l :=
                  match l with
                  | [] => List.Forall_nil _
                  | (k, x) :: l' =>
                      List.Forall_cons (λ f, P f.2) (k, x) l' (Value_nested_ind x) (go l')
                  end) fs)
  end.
End ValueInduction.

(** [m[k]] on a [map[string]interface{}]; a missing key reads as [nil]. *)
Fixpoint lookup_field (k : string) (fs : list (string * Value)) : option Value :=
  match fs with
  | [] => None
  | (k', v) :: fs' => if bool_decide (k' = k) then Some v else lookup_field k fs'
  end.

Definition index_map (fs : list (string * Value)) (k : string) : Value :=
  default VNil (lookup_field k fs).

Module Json.
Definition hex_digit (n : Z) : Z :=
  if bool_decide (n < 10) then 0x30 + n else 0x61 + (n - 10).

(** [htmlSafeSet] of encoding/json: the ASCII bytes copied unescaped. *)
Definition htmlSafe (b : Z) : bool :=
  bool_decide (0x20 ≤ b) && negb (bool_decide (b ∈ [0x22; 0x26; 0x3c; 0x3e; 0x5c])).

Definition escape_ascii (b : Z) : list Z :=
  if htmlSafe b then [b]
  else if bool_decide (b = 0x5c ∨ b = 0x22) then [0x5c; b]
  else if bool_decide (b = 0x08) then bytes_of "\b"
  else if bool_decide (b = 0x0c) then bytes_of "\f"
  else if bool_decide (b = 0x0a) then bytes_of "\n"
  else if bool_decide (b = 0x0d) then bytes_of "\r"
  else if bool_decide (b = 0x09) then bytes_of "\t"
  else bytes_of "\u00" ++ [hex_digit (b ≫ 4); hex_digit (Z.land b 0xf)].

Definition cont (b : Z) : bool := bool_decide (0x80 ≤ b ≤ 0xbf).
Definition between (lo b hi : Z) : bool := bool_decide (lo ≤ b ≤ hi).

(** Size of the well-formed UTF-8 sequence at the head of [l], [0] when
    [utf8.DecodeRuneInString] answers [RuneError] with size 1. *)
Definition utf8_len (l : list Z) : nat :=
  match l with
  | b0 :: b1 :: rest =>
      if between 0xc2 b0 0xdf then (if cont b1 then 2%nat else 0%nat)
      else
        let second :=
          if bool_decide (b0 = 0xe0) then between 0xa0 b1 0xbf
          else if bool_decide (b0 = 0xed) then between 0x80 b1 0x9f
          else if bool_decide (b0 = 0xf0) then between 0x90 b1 0xbf
          else if bool_decide (b0 = 0xf4) then between 0x80 b1 0x8f
          else cont b1 in
        match rest with
        | b2 :: rest' =>
            if between 0xe0 b0 0xef then
              (if second && cont b2 then 3%nat else 0%nat)
            else if between 0xf0 b0 0xf4 then
              match rest' with
              | b3 :: _ => if second && cont b2 && cont b3 then 4%nat else 0%nat
              | [] => 0%nat
              end
            else 0%nat
        | [] => 0%nat
        end
  | _ => 0%nat
  end.

(** The loop of [appendString] with [escapeHTML] set, between the quotes. *)
Fixpoint escape (fuel : nat) (src : list Z) : list Z :=
  match fuel, src with
  | S fuel', b :: rest =>
      if bool_decide (b < 0x80) then escape_ascii b ++ escape fuel' rest
      else
        match utf8_len src with
        | O => bytes_of "\ufffd" ++ escape fuel' rest
        | n =>
            let r := take n src in
            (if bool_decide (r = [0xe2; 0x80; 0xa8]) then bytes_of "\u2028"
             else if bool_decide (r = [0xe2; 0x80; 0xa9]) then bytes_of "\u2029"
             else r) ++ escape fuel' (drop n src)
        end
  | _, _ => []
  end.

Definition encodeString (s : string) : list Z :=
  [0x22] ++ escape (String.length s) (bytes_of s) ++ [0x22].

(** Map keys are written in increasing byte order of the key. *)
Fixpoint insert_field (x : string * list Z) (l : list (string * list Z))
  : list (string * list Z) :=
  match l with
  | [] => [x]
  | y :: l' => if String.leb x.1 y.1 then x :: y :: l' else y :: insert_field x l'
  end.

Fixpoint sort_fields (l : list (string * list Z)) : list (string * list Z) :=
  match l with
  | [] => []
  | x :: l' => insert_field x (sort_fields l')
  end.

Fixpoint join_comma (l : list (list Z)) : list Z :=
  match l with
  | [] => []
  | [x] => x
  | x :: l' => x ++ [0x2c] ++ join_comma l'
  end.

Definition render_field (f : string * list Z) : list Z :=
  encodeString f.1 ++ [0x3a] ++ f.2.

Definition render_object (fields : list (string * list Z)) : list Z :=
  [0x7b] ++ join_comma (map render_field (sort_fields fields)) ++ [0x7d].

Definition render_array (elems : list (list Z)) : list Z :=
  [0x5b] ++ join_comma elems ++ [0x5d].

(** [json.Marshal] on a decoded value; it has no failing case there. *)
Fixpoint Marshal (v : Value) : list Z :=
  match v with
  | VNil => bytes_of "null"
  | VBool b => bytes_of (if b then "true" else "false")
  | VNumber lit => bytes_of lit
  | VString s => encodeString s
  | VArray vs => render_array (map Marshal vs)
  | VMap fs => render_object (map (λ '(k, v), (k, Marshal v)) fs)
  end.
End Json.

(* ================================================================= *)
(** ** [sha256.Sum256] (FIPS 180-4) *)

Module Sha256.
Definition w32 (x : Z) : Z := x `mod` 2 ^ 32.
Definition rotr (n x : Z) : Z := w32 (Z.lor (x ≫ n) (x ≪ (32 - n))).
Definition xor3 (a b c : Z) : Z := Z.lxor (Z.lxor a b) c.

Definition Ch (x y z : Z) : Z :=
  Z.lxor (Z.land x y) (Z.land (Z.lxor x 0xffffffff) z).
Definition Maj (x y z : Z) : Z :=
  xor3 (Z.land x y) (Z.land x z) (Z.land y z).
Definition Sigma0 (x : Z) : Z := xor3 (rotr 2 x) (rotr 13 x) (rotr 22 x).
Definition Sigma1 (x : Z) : Z := xor3 (rotr 6 x) (rotr 11 x) (rotr 25 x).
Definition sigma0 (x : Z) : Z := xor3 (rotr 7 x) (rotr 18 x) (x ≫ 3).
Definition sigma1 (x : Z) : Z := xor3 (rotr 17 x) (rotr 19 x) (x ≫ 10).

(** The round constants are the first 32 bits of the fractional parts of
    the cube roots of the first 64 primes, the initial hash value those of
    the square roots of the first 8. *)
Definition is_prime (n : Z) : bool :=
  forallb (λ d, negb (n `mod` d =? 0)) (seqZ 2 (n - 2)).

Definition primes : list Z := List.filter is_prime (seqZ 2 310).

(** The largest [r' ≥ r] with [r' ^ deg ≤ n], searched bit by bit below
    bit [k]. *)
Fixpoint root_bits (k : nat) (deg n r : Z) : Z :=
  match k with
  | O => r
  | S k' =>
      let r' := r + 2 ^ Z.of_nat k' in
      root_bits k' deg n (if bool_decide (r' ^ deg ≤ n) then r' else r)
  end.

Definition frac_root (deg p : Z) : Z :=
  root_bits 40 deg (p * 2 ^ (32 * deg)) 0 `mod` 2 ^ 32.

Definition K : list Z := Eval vm_compute in map (frac_root 3) primes.

Definition H0 : list Z := Eval vm_compute in map (frac_root 2) (take 8 primes).

(** Big-endian words of a block and bytes of a word. *)
Fixpoint words_of (bs : list Z) : list Z :=
  match bs with
  | b0 :: b1 :: b2 :: b3 :: bs' =>
      (b0 ≪ 24 + b1 ≪ 16 + b2 ≪ 8 + b3) :: words_of bs'
  | _ => []
  end.

Definition bytes_of_word (w : Z) : list Z :=
  [ (w ≫ 24) `mod` 256; (w ≫ 16) `mod` 256; (w ≫ 8) `mod` 256; w `mod` 256 ].

(** The message schedule, newest word first. *)
Fixpoint schedule (n : nat) (wrev : list Z) : list Z :=
  match n with
  | O => wrev
  | S n' =>
      let w t := nth t wrev 0 in
      schedule n'
        (w32 (sigma1 (w 1%nat) + w 6%nat + sigma0 (w 14%nat) + w 15%nat) :: wrev)
  end.

Definition round (s : list Z) (kw : Z * Z) : list Z :=
  match s with
  | [a; b; c; d; e; f; g; h] =>
      let t1 := h + Sigma1 e + Ch e f g + kw.1 + kw.2 in
      let t2 := Sigma0 a + Maj a b c in
      [w32 (t1 + t2); a; b; c; w32 (d + t1); e; f; g]
  | _ => s
  end.

Definition compress (h : list Z) (block : list Z) : list Z :=
  let w := reverse (schedule 48 (reverse (words_of block))) in
  let s := foldl round h (zip K w) in
  zip_with (λ x y, w32 (x + y)) h s.

Fixpoint blocks (n : nat) (h : list Z) (bs : list Z) : list Z :=
  match n with
  | O => h
  | S n' => blocks n' (compress h (take 64 bs)) (drop 64 bs)
  end.

Definition pad (msg : list Z) : list Z :=
  let l := Z.of_nat (length msg) in
  msg ++ [0x80] ++ replicate (Z.to_nat ((55 - l) `mod` 64)) 0
      ++ bytes_of_word ((8 * l) ≫ 32) ++ bytes_of_word (8 * l).

(** The digest, as the 32 bytes of a [[32]byte]. *)
Definition Sum256 (msg : list Z) : list Z :=
  let p := pad msg in
  concat (map bytes_of_word (blocks (length p / 64) H0 p)).

Definition hex (d : list Z) : string :=
  string_of (concat (map (λ b, [Json.hex_digit (b ≫ 4); Json.hex_digit (Z.land b 0xf)]) d)).
End Sha256.

(* ================================================================= *)
(** ** Errors and results *)

(** An [error] value: one handed back by a library call, or one built by
    [fmt.Errorf], with or without a wrapped cause ([%w]). *)
Inductive error : Type :=
| LibError (msg : string)
| Errorf (msg : string)
| Wrapf (msg : string) (cause : error).

(** A Go [(T, error)] pair. *)
Inductive result (A : Type) : Type :=
| Ok (a : A)
| Err (e : error).
Arguments Ok {A} a.
Arguments Err {A} e.

(** How a call ends: it returns, it panics, or (for the loop of [Sync],
    which is run on fuel) it has not returned yet. *)
Inductive outcome (A : Type) : Type :=
| Returns (a : A)
| Panics
| Unfinished.
Arguments Returns {A} a.
Arguments Panics {A}.
Arguments Unfinished {A}.

(** The errors of this package, under the names the specification uses. *)
Definition EmptyListing : error :=
  Errorf "failed to list source path: vault returned an empty list".
Definition ListFailed (cause : error) : error :=
  Wrapf "failed to list source path" cause.
Definition TokenCommandFailed (cause : error) : error :=
  Wrapf "failed to execute token command" cause.
Definition TokenFormatInvalid : error :=
  Errorf "token command did not return a vault token".
Definition NoTokenProvided : error := Errorf "no token provided".

(* ================================================================= *)
(** ** config.go *)

Record Vault : Type := {
  Address : string;
  Token : string;
  TokenCmd : string;
  Mount : string;
  Path : string;
}.

(** [SourceVault] and [DestinationVault] are pointers: [None] is [nil]. *)
Record Config : Type := {
  BatchSize : Z;
  SourceVault : option Vault;
  DestinationVault : option Vault;
}.

(* ================================================================= *)
(** ** The world outside: processes, the client library, the servers *)

(** A [*vault.Client] as this package configures it. *)
Record Client : Type := {
  client_address : string;
  client_token : string;
}.

(** What [initVault] asks of its surroundings. *)
Record Platform : Type := {
  (** [exec.Command(name, args...).Output()] *)
  exec_Output : string → list string → result string;
  (** [vault.New(vault.WithAddress(address))] *)
  vault_New : string → option error;
  (** [client.SetToken(token)] *)
  client_SetToken : string → option error;
}.

(** A [*vault.Response[map[string]interface{}]]: with a [nil] error the
    client hands back a response that is not [nil]; [Data] is its decoded
    body. *)
Record Response : Type := { Data : list (string * Value) }.

(** Which of the two clients of the [Syncer] a call goes through. *)
Inductive handle : Type := OnSource | OnDestination.

(** The three client operations the package uses; [mount] is the
    [vault.WithMountPath] option. *)
Inductive Call : Type :=
| VaultList (h : handle) (path mount : string)
| VaultRead (h : handle) (path mount : string)
| VaultWrite (h : handle) (path : string) (body : list (string * Value)) (mount : string).

(** The client library together with the servers behind it: a call is
    answered from, and may change, a world of some type [W]. *)
Class Backend (W : Type) : Type :=
  vault_call : Call → W → result Response * W.

Inductive Level : Type := DebugLevel | InfoLevel | ErrorLevel.

(** What a run leaves behind, oldest first. *)
Inductive Event : Type :=
| EvCall (c : Call)                                   (* a client call was made *)
| EvBatch (batch : list string)                       (* [s.batchSync(..., batch)] *)
| EvGo (secret : string)                              (* [go s.doSync(..., secret)] *)
| EvLog (lvl : Level) (msg : string) (secret : string). (* a log line *)

Record State (W : Type) : Type := {
  world : W;
  trace : list Event;
}.
Arguments world {W} _.
Arguments trace {W} _.

(** The per-key outcomes of the specification are the final log lines of
    [doSync]. *)
Inductive SyncOutcome : Type :=
| Synced | ReadFailed | WriteFailed | VerifyReadFailed | Mismatch.

Definition outcome_level (o : SyncOutcome) : Level :=
  match o with Synced => DebugLevel | _ => ErrorLevel end.

Definition outcome_msg (o : SyncOutcome) : string :=
  match o with
  | Synced => "Secret synced"
  | ReadFailed => "Failed to get secret from source vault"
  | WriteFailed => "Failed to write secret to destination vault"
  | VerifyReadFailed => "Failed to get secret from destination vault"
  | Mismatch => "Secrets do not match"
  end.

Definition EvOutcome (secret : string) (o : SyncOutcome) : Event :=
  EvLog (outcome_level o) (outcome_msg o) secret.

(* ================================================================= *)
(** ** vaultsync.go *)

Record Syncer : Type := {
  cfg : Config;
  sourceVault : Client;
  destinationVault : Client;
}.

(** The [switch] of [initVault] that settles [tkn]. *)
Definition initVault_tkn (P : Platform) (cfg : Vault) : result string :=
  if negb (String.eqb (TokenCmd cfg) "") then
    let cmd := Split (TokenCmd cfg) in
    match exec_Output P (hd "" cmd) (tl cmd) with
    | Err err => Err (TokenCommandFailed err)
    | Ok b =>
        if HasPrefix b "hvs." then Ok (TrimSpace b)
        else Err TokenFormatInvalid
    end
  else if negb (String.eqb (Token cfg) "") then Ok (Token cfg)
  else Err NoTokenProvided.

Definition initVault (P : Platform) (cfg : option Vault) : result Client :=
  match cfg with
  | None => Err (Errorf "vault config is nil")
  | Some cfg =>
      match initVault_tkn P cfg with
      | Err err => Err err
      | Ok tkn =>
          match vault_New P (Address cfg) with
          | Some err => Err (Wrapf "failed to create vault client" err)
          | None =>
              match client_SetToken P tkn with
              | Some err => Err (Wrapf "failed to set vault token" err)
              | None => Ok {| client_address := Address cfg; client_token := tkn |}
              end
          end
      end
  end.

Definition NewSyncer (P : Platform) (config : option Config) : result Syncer :=
  match config with
  | None => Err (Errorf "config is nil")
  | Some config =>
      match initVault P (SourceVault config) with
      | Err err => Err (Wrapf "failed to initialize source vault" err)
      | Ok src =>
          match initVault P (DestinationVault config) with
          | Err err => Err (Wrapf "failed to initialize destination vault" err)
          | Ok dst =>
              Ok {| cfg := config; sourceVault := src; destinationVault := dst |}
          end
      end
  end.

(** [eq]: the SHA-256 digests of the two JSON encodings are compared. *)
Definition eq (src dest : Value) : bool :=
  bool_decide (Sha256.Sum256 (Json.Marshal src) = Sha256.Sum256 (Json.Marshal dest)).

(** The [range] loop of [listSourcePath]; [vv.(string)] panics on anything
    but a string. *)
Fixpoint keys_of (v : list Value) (retVal : list string) : outcome (list string) :=
  match v with
  | [] => Returns retVal
  | VString s :: v' => keys_of v' (retVal ++ [s])
  | _ :: _ => Panics
  end.

(** One turn of the [for] loop of [Sync] at loop variable [i]: the test
    [i < len(srcList)], the clamped [end], and the slice [srcList[i:end]]. *)
Inductive LoopStep : Type :=
| LoopExit
| LoopPanic
| LoopBatch (batch : list string).

Definition loop_head (srcList : list string) (batchSize i : Z) : LoopStep :=
  if bool_decide (i < GoInt.len srcList) then
    let end_ := GoInt.add i batchSize in
    let end_ := if bool_decide (end_ > GoInt.len srcList)
                then GoInt.len srcList else end_ in
    match GoInt.slice srcList i end_ with
    | None => LoopPanic
    | Some batch => LoopBatch batch
    end
  else LoopExit.

(** The batches the loop dispatches from loop variable [i] on, as far as
    [fuel] turns go. *)
Fixpoint plan_from (fuel : nat) (srcList : list string) (batchSize i : Z)
  : list (list string) :=
  match fuel with
  | O => []
  | S fuel' =>
      match loop_head srcList batchSize i with
      | LoopBatch batch => batch :: plan_from fuel' srcList batchSize (GoInt.add i batchSize)
      | _ => []
      end
  end.

Section Engine.
Context {W : Type} `{!Backend W}.

Definition log (lvl : Level) (msg secret : string) (st : State W) : State W :=
  {| world := world st; trace := trace st ++ [EvLog lvl msg secret] |}.

Definition note (e : Event) (st : State W) : State W :=
  {| world := world st; trace := trace st ++ [e] |}.

(** One call through a client: recorded, then answered by the backend. *)
Definition call (c : Call) (st : State W) : result Response * State W :=
  let '(r, w) := vault_call c (world st) in
  (r, {| world := w; trace := trace st ++ [EvCall c] |}).

Definition listSourcePath (mount path : string) (st : State W)
  : outcome (result (list string)) * State W :=
  let st := log DebugLevel "Listing source vault" path st in
  match call (VaultList OnSource (mount +:+ "/metadata/" +:+ path) mount) st with
  | (Err err, st) => (Returns (Err (ListFailed err)), st)
  | (Ok l, st) =>
      match lookup_field "keys" (Data l) with
      | Some (VArray v) =>
          match keys_of v [] with
          | Returns retVal => (Returns (Ok retVal), st)
          | _ => (Panics, st)
          end
      | _ => (Returns (Err EmptyListing), st)
      end
  end.

Definition doSync (mount path : string) (st : State W) : State W :=
  let st := log DebugLevel "Syncing secret" path st in
  match call (VaultRead OnSource (mount +:+ "/data/" +:+ path) mount) st with
  | (Err _, st) => note (EvOutcome path ReadFailed) st
  | (Ok srcResp, st) =>
      match call (VaultWrite OnDestination (mount +:+ "/data/" +:+ path)
                    (Data srcResp) mount) st with
      | (Err _, st) => note (EvOutcome path WriteFailed) st
      | (Ok _, st) =>
          match call (VaultRead OnDestination (mount +:+ "/data/" +:+ path) mount) st with
          | (Err _, st) => note (EvOutcome path VerifyReadFailed) st
          | (Ok destResp, st) =>
              if eq (index_map (Data srcResp) "data")
                    (index_map (Data destResp) "data")
              then note (EvOutcome path Synced) st
              else note (EvOutcome path Mismatch) st
          end
      end
  end.

(** [batchSync] with its goroutines run to completion one after the
    other, in the order of the [go] statements; [wg.Wait()] then finds
    them all done.  (Module [Conc] lets them interleave.) *)
Definition batchSync (mount path : string) (batch : list string) (st : State W)
  : State W :=
  foldl (λ st item, doSync mount (path +:+ item) (note (EvGo (path +:+ item)) st))
        (note (EvBatch batch) st) batch.

(** The [for] loop of [Sync], entered with loop variable [i]. *)
Fixpoint Sync_loop (fuel : nat) (mount path : string) (srcList : list string)
    (batchSize i : Z) (st : State W) : outcome () * State W :=
  match fuel with
  | O => (Unfinished, st)
  | S fuel' =>
      match loop_head srcList batchSize i with
      | LoopExit => (Returns (), st)
      | LoopPanic => (Panics, st)
      | LoopBatch batch =>
          Sync_loop fuel' mount path srcList batchSize (GoInt.add i batchSize)
            (batchSync mount path batch st)
      end
  end.

(** [Sync]; the returned [error] is [None] for [nil].  Reading
    [s.cfg.SourceVault.Mount] through a nil pointer panics. *)
Definition Sync (fuel : nat) (s : Syncer) (st : State W)
  : outcome (option error) * State W :=
  let st := log InfoLevel "Starting sync" "" st in
  match SourceVault (cfg s) with
  | None => (Panics, st)
  | Some sv =>
      match listSourcePath (Mount sv) (Path sv) st with
      | (Returns (Err err), st) => (Returns (Some (ListFailed err)), st)
      | (Returns (Ok srcList), st) =>
          match Sync_loop fuel (Mount sv) (Path sv) srcList (BatchSize (cfg s)) 0 st with
          | (Returns _, st) => (Returns None, log InfoLevel "Sync complete" "" st)
          | (Panics, st) => (Panics, st)
          | (Unfinished, st) => (Unfinished, st)
          end
      | (Panics, st) => (Panics, st)
      | (Unfinished, st) => (Unfinished, st)
      end
  end.
End Engine.


(* ================================================================= *)
(** ** Reading a trace *)

Definition batches_of (t : list Event) : list (list string) :=
  omap (λ e, match e with EvBatch b => Some b | _ => None end) t.

(** The secrets for which a worker goroutine was started. *)
Definition started_of (t : list Event) : list string :=
  omap (λ e, match e with EvGo p => Some p | _ => None end) t.

Definition calls_of (t : list Event) : list Call :=
  omap (λ e, match e with EvCall c => Some c | _ => None end) t.

Definition outcome_of_msg (msg : string) : option SyncOutcome :=
  if String.eqb msg (outcome_msg Synced) then Some Synced
  else if String.eqb msg (outcome_msg ReadFailed) then Some ReadFailed
  else if String.eqb msg (outcome_msg WriteFailed) then Some WriteFailed
  else if String.eqb msg (outcome_msg VerifyReadFailed) then Some VerifyReadFailed
  else if String.eqb msg (outcome_msg Mismatch) then Some Mismatch
  else None.

(** The per-key outcomes a trace records, in the order they were logged. *)
Definition outcomes_of (t : list Event) : list (string * SyncOutcome) :=
  omap (λ e, match e with
             | EvLog _ msg secret => (λ o, (secret, o)) <$> outcome_of_msg msg
             | _ => None
             end) t.

(** A call that changes nothing on the source server. *)
Definition spares_source (c : Call) : Prop :=
  match c with
  | VaultWrite OnSource _ _ _ => False
  | _ => True
  end.

(** What a worker goroutine may leave in the trace, and what a whole batch
    may leave after its [EvBatch]. *)
Definition worker_event (e : Event) : Prop :=
  match e with
  | EvCall c => spares_source c
  | EvLog _ _ _ => True
  | _ => False
  end.

Definition batch_event (e : Event) : Prop :=
  match e with
  | EvCall c => spares_source c
  | EvBatch _ => False
  | _ => True
  end.

Definition run_event (e : Event) : Prop :=
  match e with
  | EvCall c => spares_source c
  | _ => True
  end.

(* ================================================================= *)
(** ** An in-memory backend *)

(** Two key-value servers addressed by full path, the answer the source
    gives to a listing, and the calls that are made to fail. *)
Record Mem : Type := {
  src_kv : gmap string (list (string * Value));
  dst_kv : gmap string (list (string * Value));
  listing : list (string * Value);
  failing : Call → bool;
}.

Definition mem_read (kv : gmap string (list (string * Value))) (path : string)
  : result Response :=
  match kv !! path with
  | Some d => Ok {| Data := d |}
  | None => Err (LibError "404 Not Found")
  end.

Definition mem_call (c : Call) (w : Mem) : result Response * Mem :=
  if failing w c then (Err (LibError "request failed"), w)
  else
    match c with
    | VaultList _ _ _ => (Ok {| Data := listing w |}, w)
    | VaultRead OnSource path _ => (mem_read (src_kv w) path, w)
    | VaultRead OnDestination path _ => (mem_read (dst_kv w) path, w)
    | VaultWrite OnSource path body _ =>
        (Ok {| Data := [] |},
         {| src_kv := <[path := body]> (src_kv w); dst_kv := dst_kv w;
            listing := listing w; failing := failing w |})
    | VaultWrite OnDestination path body _ =>
        (Ok {| Data := [] |},
         {| src_kv := src_kv w; dst_kv := <[path := body]> (dst_kv w);
            listing := listing w; failing := failing w |})
    end.

#[export] Instance mem_backend : Backend Mem := mem_call.

(** The set-up of the end-to-end scenarios: keys [a], [b], [c] under mount
    [secret], path [team/]. *)
Definition secret_of (v : string) : list (string * Value) :=
  [("data", VMap [("value", VString v)]); ("metadata", VMap [("version", VNumber "1")])].

Definition team_source : gmap string (list (string * Value)) :=
  <["secret/data/team/a" := secret_of "alpha"]>
  (<["secret/data/team/b" := secret_of "bravo"]>
  (<["secret/data/team/c" := secret_of "charlie"]> ∅)).

Definition team_world (keys : list (string * Value)) (failing : Call → bool) : Mem :=
  {| src_kv := team_source; dst_kv := ∅; listing := keys; failing := failing |}.

Definition team_keys : list (string * Value) :=
  [("keys", VArray [VString "a"; VString "b"; VString "c"])].

Definition no_fault (c : Call) : bool := false.

Definition write_b_fails (c : Call) : bool :=
  match c with
  | VaultWrite OnDestination path _ _ => String.eqb path "secret/data/team/b"
  | _ => false
  end.

Definition team_vault : Vault :=
  {| Address := "http://localhost:8200"; Token := "hvs.source"; TokenCmd := "";
     Mount := "secret"; Path := "team/" |}.

Definition team_syncer (batchSize : Z) : Syncer :=
  {| cfg := {| BatchSize := batchSize; SourceVault := Some team_vault;
               DestinationVault := Some team_vault |};
     sourceVault := {| client_address := "http://localhost:8200"; client_token := "hvs.source" |};
     destinationVault := {| client_address := "http://localhost:8201"; client_token := "hvs.dest" |} |}.

Definition start (w : Mem) : State Mem := {| world := w; trace := [] |}.

(* ================================================================= *)
(** ** Documents as values *)

(** The invariant of a Go map: no key twice, at any depth. *)
Fixpoint wf_value (v : Value) : bool :=
  match v with
  | VArray vs => forallb wf_value vs
  | VMap fs => bool_decide (NoDup (fs.*1)) && forallb (λ '(_, x), wf_value x) fs
  | _ => true
  end.

(** Two documents with the same field values: scalars are equal, arrays
    agree element by element, and maps have the same number of fields
    with every field of the one found, with the same value, in the other,
    in whatever order either lists them. *)
Fixpoint same_document (a b : Value) : bool :=
  match a, b with
  | VNil, VNil => true
  | VBool x, VBool y => bool_decide (x = y)
  | VNumber x, VNumber y => bool_decide (x = y)
  | VString x, VString y => bool_decide (x = y)
  | VArray xs, VArray ys =>
      (fix go (xs ys : list Value) : bool :=
         match xs, ys with
         | [], [] => true
         | x :: xs', y :: ys' => same_document x y && go xs' ys'
         | _, _ => false
         end) xs ys
  | VMap fs, VMap gs =>
      bool_decide (length fs = length gs)
      && forallb (λ '(k, x), match lookup_field k gs with
                             | Some y => same_document x y
                             | None => false
                             end) fs
  | _, _ => false
  end.

Definition is_byte (b : Z) : Prop := 0 ≤ b < 256.




(* ================================================================= *)
(** ** A platform with one token helper *)

Definition newline : string := String "010" EmptyString.

(** [vault print token] prints [output] and exits with status 0; no other
    program is found.  Creating a client and setting its token succeed. *)
Definition helper_platform (output : string) : Platform :=
  {| exec_Output := λ name args,
       if bool_decide (name = "vault" ∧ args = ["print"; "token"]) then Ok output
       else Err (LibError "exec: executable file not found in $PATH");
     vault_New := λ _, None;
     client_SetToken := λ _, None |}.

Definition vault_with (token tokenCmd : string) : Vault :=
  {| Address := "http://localhost:8200"; Token := token; TokenCmd := tokenCmd;
     Mount := "secret"; Path := "team/" |}.

(** [cfg] with the literal token removed. *)
Definition without_Token (cfg : Vault) : Vault :=
  {| Address := Address cfg; Token := ""; TokenCmd := TokenCmd cfg;
     Mount := Mount cfg; Path := Path cfg |}.

(* ================================================================= *)
(** ** The goroutines of [batchSync], interleaved *)

(** The loop of [Sync] with [batchSync] and [doSync] inside it, as a machine
    that a scheduler drives one step at a time: either the goroutine that
    runs [Sync], or one of the workers started by a [go] statement.  A
    step is one client call with the lines logged around it, one
    operation on a [sync.WaitGroup], or one turn of a loop.  Each call of
    [batchSync] declares its own [WaitGroup]; [wg.Add(1)] counts it up,
    the deferred [wg.Done()] of a worker counts it down (and panics below
    zero), and [wg.Wait()] goes on only when it is zero. *)
Module Conc.

(** Where a worker stands in [doSync]. *)
Inductive WorkerPc : Type :=
| AtSourceRead
| AtDestWrite (srcResp : Response)
| AtDestRead (srcResp : Response)
| AtDone
| Exited.

Record Goroutine : Type := {
  g_wg : nat;          (* its [*sync.WaitGroup]: the number of the batch *)
  g_path : string;
  g_pc : WorkerPc;
}.

(** Where the goroutine of [Sync] stands. *)
Inductive MainPc : Type :=
| AtLoop (i : Z)                                (* the test of the [for] loop *)
| AtAdd (i : Z) (rest : list string)            (* [range batch]: the next [wg.Add(1)] *)
| AtGo (i : Z) (item : string) (rest : list string)  (* the [go] statement *)
| AtWait (i : Z)                                (* [wg.Wait()] *)
| AtEnd (r : outcome ()).                       (* the loop is over, or a panic *)

(** The trace is kept newest first; every event carries the number of
    the batch it belongs to. *)
Record CState (W : Type) : Type := {
  main : MainPc;
  wgs : list Z;                 (* the counter of every [WaitGroup] so far *)
  pool : list Goroutine;        (* every goroutine started so far *)
  cworld : W;
  ctrace : list (nat * Event);
}.
Arguments main {W} _.
Arguments wgs {W} _.
Arguments pool {W} _.
Arguments cworld {W} _.
Arguments ctrace {W} _.

Inductive Tid : Type :=
| TMain
| TWorker (k : nat).

Definition exited (g : Goroutine) : bool :=
  match g_pc g with Exited => true | _ => false end.

(** The workers that have been started and have not returned. *)
Definition in_flight (pool : list Goroutine) : nat :=
  length (List.filter (λ g, negb (exited g)) pool).

Definition of_batch (n : nat) (pool : list Goroutine) : list Goroutine :=
  List.filter (λ g, Nat.eqb (g_wg g) n) pool.

Section Machine.
Context {W : Type} `{!Backend W}.
Variables (mount path : string) (srcList : list string) (batchSize : Z).

(** The number of the batch in hand: its [WaitGroup] is the last one. *)
Definition cur (c : CState W) : nat := pred (length (wgs c)).

(** One step of a worker up to its deferred [wg.Done()]: the next program
    point, the world after it, and what it adds to the trace. *)
Definition worker_step (secret : string) (pc : WorkerPc) (w : W)
  : WorkerPc * W * list Event :=
  match pc with
  | AtSourceRead =>
      let c := VaultRead OnSource (mount +:+ "/data/" +:+ secret) mount in
      match vault_call c w with
      | (Err _, w') =>
          (AtDone, w', [EvLog DebugLevel "Syncing secret" secret; EvCall c;
                        EvOutcome secret ReadFailed])
      | (Ok srcResp, w') =>
          (AtDestWrite srcResp, w', [EvLog DebugLevel "Syncing secret" secret; EvCall c])
      end
  | AtDestWrite srcResp =>
      let c := VaultWrite OnDestination (mount +:+ "/data/" +:+ secret)
                 (Data srcResp) mount in
      match vault_call c w with
      | (Err _, w') => (AtDone, w', [EvCall c; EvOutcome secret WriteFailed])
      | (Ok _, w') => (AtDestRead srcResp, w', [EvCall c])
      end
  | AtDestRead srcResp =>
      let c := VaultRead OnDestination (mount +:+ "/data/" +:+ secret) mount in
      match vault_call c w with
      | (Err _, w') => (AtDone, w', [EvCall c; EvOutcome secret VerifyReadFailed])
      | (Ok destResp, w') =>
          (AtDone, w',
           [EvCall c;
            EvOutcome secret
              (if eq (index_map (Data srcResp) "data") (index_map (Data destResp) "data")
               then Synced else Mismatch)])
      end
  | AtDone => (Exited, w, [])
  | Exited => (Exited, w, [])
  end.

Definition tagged (n : nat) (evs : list Event) : list (nat * Event) :=
  reverse ((λ e, (n, e)) <$> evs).

Definition step_worker (k : nat) (c : CState W) : option (CState W) :=
  match pool c !! k with
  | None => None
  | Some g =>
      match g_pc g with
      | Exited => None
      | AtDone =>
          match wgs c !! g_wg g with
          | Some n =>
              if bool_decide (0 < n) then
                Some {| main := main c;
                        wgs := <[g_wg g := n - 1]> (wgs c);
                        pool := <[k := {| g_wg := g_wg g; g_path := g_path g;
                                          g_pc := Exited |}]> (pool c);
                        cworld := cworld c; ctrace := ctrace c |}
              else (* sync: negative WaitGroup counter *)
                Some {| main := AtEnd Panics; wgs := wgs c; pool := pool c;
                        cworld := cworld c; ctrace := ctrace c |}
          | None => None
          end
      | pc =>
          let '(pc', w', evs) := worker_step (g_path g) pc (cworld c) in
          Some {| main := main c; wgs := wgs c;
                  pool := <[k := {| g_wg := g_wg g; g_path := g_path g; g_pc := pc' |}]>
                            (pool c);
                  cworld := w'; ctrace := tagged (g_wg g) evs ++ ctrace c |}
      end
  end.

Definition step_main (c : CState W) : option (CState W) :=
  match main c with
  | AtLoop i =>
      match loop_head srcList batchSize i with
      | LoopExit =>
          Some {| main := AtEnd (Returns ()); wgs := wgs c; pool := pool c;
                  cworld := cworld c; ctrace := ctrace c |}
      | LoopPanic =>
          Some {| main := AtEnd Panics; wgs := wgs c; pool := pool c;
                  cworld := cworld c; ctrace := ctrace c |}
      | LoopBatch batch =>
          (* [batchSync] is entered: [var wg sync.WaitGroup] *)
          Some {| main := AtAdd i batch; wgs := wgs c ++ [0]; pool := pool c;
                  cworld := cworld c;
                  ctrace := (length (wgs c), EvBatch batch) :: ctrace c |}
      end
  | AtAdd i [] =>
      Some {| main := AtWait i; wgs := wgs c; pool := pool c;
              cworld := cworld c; ctrace := ctrace c |}
  | AtAdd i (item :: rest) =>
      Some {| main := AtGo i item rest; wgs := alter Z.succ (cur c) (wgs c);
              pool := pool c; cworld := cworld c; ctrace := ctrace c |}
  | AtGo i item rest =>
      Some {| main := AtAdd i rest; wgs := wgs c;
              pool := pool c ++ [{| g_wg := cur c; g_path := path +:+ item;
                                    g_pc := AtSourceRead |}];
              cworld := cworld c;
              ctrace := (cur c, EvGo (path +:+ item)) :: ctrace c |}
  | AtWait i =>
      if bool_decide (wgs c !! cur c = Some 0)
      then Some {| main := AtLoop (GoInt.add i batchSize); wgs := wgs c; pool := pool c;
                   cworld := cworld c; ctrace := ctrace c |}
      else None
  | AtEnd _ => None
  end.

(** A step of the thread the scheduler picks; [None] when that thread
    cannot move (it is blocked in [Wait], it has ended, or there is no
    such worker).  Nothing moves after a panic. *)
Definition step (t : Tid) (c : CState W) : option (CState W) :=
  match main c with
  | AtEnd Panics => None
  | _ =>
      match t with
      | TMain => step_main c
      | TWorker k => step_worker k c
      end
  end.

(** A schedule is run from left to right; a pick that cannot move is
    skipped. *)
Definition run (sched : list Tid) (c : CState W) : CState W :=
  foldl (λ c t, default c (step t c)) c sched.

Definition init (w : W) : CState W :=
  {| main := AtLoop 0; wgs := []; pool := []; cworld := w; ctrace := [] |}.

(** The batch the goroutine of [Sync] is working on. *)
Definition batch_in_hand (c : CState W) : option (list string) :=
  match main c with
  | AtAdd i _ | AtGo i _ _ | AtWait i =>
      match loop_head srcList batchSize i with
      | LoopBatch b => Some b
      | _ => None
      end
  | _ => None
  end.

(** A worker run on its own up to its deferred [wg.Done()]. *)
Fixpoint worker_run (fuel : nat) (secret : string) (pc : WorkerPc) (w : W)
  : W * list Event :=
  match fuel with
  | O => (w, [])
  | S fuel' =>
      match pc with
      | AtDone | Exited => (w, [])
      | _ =>
          let '(pc', w', evs) := worker_step secret pc w in
          let '(w'', evs') := worker_run fuel' secret pc' w' in
          (w'', evs ++ evs')
      end
  end.

(** What [wg.Add(1)] has counted and [go] has not started yet. *)
Definition pending (m : MainPc) : Z :=
  match m with AtGo _ _ _ => 1 | _ => 0 end.

(** The keys of the batch in hand that have no worker yet. *)
Definition to_start (m : MainPc) : nat :=
  match m with
  | AtAdd _ rest => length rest
  | AtGo _ _ rest => S (length rest)
  | _ => 0%nat
  end.

Definition between_batches (m : MainPc) : Prop :=
  match m with AtLoop _ | AtEnd _ => True | _ => False end.

Definition in_batch (m : MainPc) : Prop :=
  match m with AtAdd _ _ | AtGo _ _ _ | AtWait _ => True | _ => False end.

(** The batches announced so far, oldest first. *)
Definition announced (c : CState W) : list (list string) :=
  batches_of (reverse ((ctrace c).*2)).

(** The picks of a schedule that moved a thread. *)
Fixpoint moves (sched : list Tid) (c : CState W) : nat :=
  match sched with
  | [] => 0%nat
  | t :: sched' =>
      match step t c with
      | Some c' => S (moves sched' c')
      | None => moves sched' c
      end
  end.

(** A bound on the steps still to come: those of the workers started,
    and those of the goroutine of [Sync], which has at most nine steps to
    spend on a key (three on its batch, two to start its worker, four of
    the worker). *)
Definition rem (pc : WorkerPc) : nat :=
  match pc with
  | AtSourceRead => 4
  | AtDestWrite _ => 3
  | AtDestRead _ => 2
  | AtDone => 1
  | Exited => 0
  end%nat.

Definition work_left (pool : list Goroutine) : nat :=
  sum_list_with (λ g, rem (g_pc g)) pool.

Definition keys_left (i : Z) : nat := Z.to_nat (GoInt.len srcList - i).

Definition main_left (m : MainPc) : nat :=
  match m with
  | AtLoop i => 1 + 9 * keys_left i
  | AtAdd i rest => 6 * length rest + 3 + 9 * keys_left (i + batchSize)
  | AtGo i _ rest => 6 * length rest + 8 + 9 * keys_left (i + batchSize)
  | AtWait i => 2 + 9 * keys_left (i + batchSize)
  | AtEnd _ => 0
  end%nat.

Definition steps_left (c : CState W) : nat :=
  (main_left (main c) + work_left (pool c))%nat.

(** The batches still to announce, for a positive batch size. *)
Definition plan_at (i : Z) : list (list string) :=
  plan_from (S (keys_left i)) srcList batchSize i.

Definition rest_plan (m : MainPc) : list (list string) :=
  match m with
  | AtLoop i => plan_at i
  | AtAdd i _ | AtGo i _ _ | AtWait i => plan_at (i + batchSize)
  | AtEnd _ => []
  end.

(** What holds besides when the batch size is positive: the loop
    variable is [0] or at least one batch size, nothing panics, and the
    batches announced are the first of the plan. *)
Record Steady (c : CState W) : Prop := {
  st_index :
    match main c with
    | AtLoop i => 0 ≤ i ∧ (i = 0 ∨ batchSize ≤ i)
    | AtAdd i _ | AtGo i _ _ | AtWait i =>
        (0 ≤ i ∧ (i = 0 ∨ batchSize ≤ i)) ∧ i < GoInt.len srcList
    | AtEnd r => r = Returns ()
    end;
  st_plan : announced c ++ rest_plan (main c) = plan_at 0;
}.

(** What holds of every state a schedule can reach. *)
Record Inv (c : CState W) : Prop := {
  inv_pool : wgs c = [] → pool c = [];
  inv_known : ∀ g, g ∈ pool c → (g_wg g < length (wgs c))%nat;
  inv_old : ∀ g, g ∈ pool c → g_wg g ≠ cur c → exited g = true;
  inv_counter :
    wgs c ≠ [] → wgs c !! cur c = Some (Z.of_nat (in_flight (pool c)) + pending (main c));
  inv_idle : between_batches (main c) → in_flight (pool c) = 0%nat;
  inv_batch :
    in_batch (main c) →
    wgs c ≠ [] ∧ ∃ b, batch_in_hand c = Some b
      ∧ (length (of_batch (cur c) (pool c)) + to_start (main c) = length b)%nat;
  inv_flight : (in_flight (pool c) ≤ length (of_batch (cur c) (pool c)))%nat;
  inv_tags : Forall (λ te, (te.1 ≤ cur c)%nat) (ctrace c);
  inv_sorted : StronglySorted (λ later earlier, (earlier.1 ≤ later.1)%nat) (ctrace c);
}.

End Machine.

(** Two workers of the first batch taking turns, then the second batch. *)
Definition team_schedule : list Tid :=
  [TMain; TMain; TMain; TMain; TMain;       (* batch, Add, go a, Add, go b *)
   TWorker 1; TWorker 0; TWorker 1; TMain;  (* b reads, a reads, b writes, end of range *)
   TMain;                                   (* Wait: blocked *)
   TWorker 0; TWorker 0; TWorker 1;         (* a writes, a reads back, b reads back *)
   TWorker 1; TMain; TWorker 0;             (* b done, Wait: blocked, a done *)
   TMain; TMain; TMain; TMain; TMain;       (* Wait, batch, Add, go c, end of range *)
   TWorker 2; TWorker 2; TWorker 2; TWorker 2;
   TMain; TMain].                           (* Wait, loop exit *)

End Conc.

(* ================================================================= *)
(** ** The pieces of a token command *)

(** [strings.Join(elems, " ")]. *)
Fixpoint Join (elems : list string) : string :=
  match elems with
  | [] => ""
  | [x] => x
  | x :: elems' => x +:+ " " +:+ Join elems'
  end.

(** A string without a space in it. *)
Definition spaceless (s : string) : Prop := ∀ a b, s ≠ a +:+ " " +:+ b.

(* ================================================================= *)
(** ** More of the trace *)

(** The path and the [vault.WithMountPath] option of a call. *)
Definition call_path (c : Call) : string :=
  match c with
  | VaultList _ p _ | VaultRead _ p _ | VaultWrite _ p _ _ => p
  end.

Definition call_mount (c : Call) : string :=
  match c with
  | VaultList _ _ m | VaultRead _ _ m | VaultWrite _ _ _ m => m
  end.

(** The calls of a worker for [secret], in the order it makes them. *)
Definition worker_calls (mount secret : string) (body : list (string * Value))
  : list Call :=
  [VaultRead OnSource (mount +:+ "/data/" +:+ secret) mount;
   VaultWrite OnDestination (mount +:+ "/data/" +:+ secret) body mount;
   VaultRead OnDestination (mount +:+ "/data/" +:+ secret) mount].

(** How many of them a worker with outcome [o] has made. *)
Definition calls_made (o : SyncOutcome) : nat :=
  match o with
  | ReadFailed => 1
  | WriteFailed => 2
  | _ => 3
  end.

(** A call for one of [keys] under [mount] and [path]: it is on the data
    path of that key and goes with the mount option [mount]. *)
Definition key_call (mount path : string) (keys : list string) (c : Call) : Prop :=
  call_mount c = mount
  ∧ ∃ key, key ∈ keys ∧ call_path c = mount +:+ "/data/" +:+ path +:+ key.

(* ================================================================= *)
(** ** More scenarios *)

(** A listing with a number among its keys. *)
Definition mixed_keys : list (string * Value) :=
  [("keys", VArray [VString "a"; VNumber "7"; VString "c"])].

(** Every call is refused. *)
Definition all_fail (c : Call) : bool := true.

(** The destination refuses to be read back. *)
Definition verify_fails (c : Call) : bool :=
  match c with
  | VaultRead OnDestination _ _ => true
  | _ => false
  end.

(** [team_syncer] with another destination section. *)
Definition moved_syncer (batchSize : Z) : Syncer :=
  {| cfg := {| BatchSize := batchSize; SourceVault := Some team_vault;
               DestinationVault :=
                 Some {| Address := "http://localhost:8201"; Token := "hvs.dest";
                         TokenCmd := ""; Mount := "kv"; Path := "elsewhere/" |} |};
     sourceVault := sourceVault (team_syncer batchSize);
     destinationVault := destinationVault (team_syncer batchSize) |}.

(** A source whose secret [team/a] has no [data] entry. *)
Definition bare_world : Mem :=
  {| src_kv := <["secret/data/team/a" := [("metadata", VMap [("version", VNumber "1")])]]> ∅;
     dst_kv := ∅; listing := team_keys; failing := no_fault |}.

(* ================================================================= *)
(** ** Counting the workers of the machine *)

(** The keys of the batch in hand for which [batchSync] has not started a
    worker yet. *)
Definition keys_to_start (m : Conc.MainPc) : list string :=
  match m with
  | Conc.AtAdd _ rest => rest
  | Conc.AtGo _ item rest => item :: rest
  | _ => []
  end.

(** A worker that has logged its outcome. *)
Definition recorded (g : Conc.Goroutine) : bool :=
  match Conc.g_pc g with
  | Conc.AtDone | Conc.Exited => true
  | _ => false
  end.

(** The outcomes logged so far, oldest first. *)
Definition recorded_outcomes {W : Type} (c : Conc.CState W) : list (string * SyncOutcome) :=
  outcomes_of (reverse ((Conc.ctrace c).*2)).

(** The workers started are those of the keys announced and not waiting
    to be started, in that order; the outcomes logged are those of the
    workers that are through with their calls. *)
Record Tally {W : Type} (path : string) (c : Conc.CState W) : Prop := {
  tally_started :
    (Conc.g_path <$> Conc.pool c)
      ++ ((λ key, path +:+ key) <$> keys_to_start (Conc.main c))
    = (λ key, path +:+ key)
        <$> concat (batches_of (reverse ((Conc.ctrace c).*2)));
  tally_recorded :
    (recorded_outcomes c).*1 ≡ₚ Conc.g_path <$> List.filter recorded (Conc.pool c);
}.

(** The second worker of the first batch runs to its end before the first
    one moves. *)
Definition last_first_schedule : list Conc.Tid :=
  [Conc.TMain; Conc.TMain; Conc.TMain; Conc.TMain; Conc.TMain; Conc.TMain;
   Conc.TWorker 1; Conc.TWorker 1; Conc.TWorker 1; Conc.TWorker 1;
   Conc.TWorker 0; Conc.TWorker 0; Conc.TWorker 0; Conc.TWorker 0;
   Conc.TMain; Conc.TMain; Conc.TMain; Conc.TMain; Conc.TMain;
   Conc.TWorker 2; Conc.TWorker 2; Conc.TWorker 2; Conc.TWorker 2;
   Conc.TMain; Conc.TMain].

(** No worker, an untouched world, and the goroutine of [Sync] at the
    head of its loop, in an empty batch, or stopped by the panic. *)
Definition idle {W : Type} (batchSize : Z) (w : W) (c : Conc.CState W) : Prop :=
  Conc.pool c = [] ∧ Conc.cworld c = w
  ∧ calls_of (reverse ((Conc.ctrace c).*2)) = []
  ∧ (Conc.main c = Conc.AtLoop 0
     ∨ (batchSize = 0 ∧ (Conc.main c = Conc.AtAdd 0 [] ∨ Conc.main c = Conc.AtWait 0))
     ∨ (batchSize < 0 ∧ Conc.main c = Conc.AtEnd Panics)).

(* ================================================================= *)
(** ** config.go: [NewConfig] *)

(** A [*viper.Viper] is looked at through the one thing [NewConfig] asks
    of it: what [v.Unmarshal(c)] makes of a new [Config]. *)
Record Viper : Type := {
  viper_Unmarshal : result Config;
}.

(* ================================================================= *)
(** ** cmd/hvm.go *)

(** What [runFunc] asks of its surroundings besides the [Platform] of
    [NewSyncer]: viper's reading of the configuration file (the error of
    [v.ReadInConfig()] and [v] afterwards) and [zerolog.ParseLevel]; a
    [zerolog.Level] is an [int8], [InfoLevel] is [1]. *)
Record CliPlatform : Type := {
  viper_ReadInConfig : string → option error * Viper;
  zerolog_ParseLevel : string → result Z;
}.

Definition zerolog_InfoLevel : Z := 1.

(** How a command ends: [Run] functions return nothing. *)
Record Ran (W : Type) : Type := {
  ran_outcome : outcome ();
  ran_level : Z;                (* the level given to [zerolog.SetGlobalLevel] *)
  ran_state : State W;
}.
Arguments ran_outcome {W} _.
Arguments ran_level {W} _.
Arguments ran_state {W} _.

Section Cli.
Context {W : Type} `{!Backend W}.

Definition NewConfig (v : Viper) (st : State W) : result Config * State W :=
  match viper_Unmarshal v with
  | Err err => (Err err, log ErrorLevel "failed to unmarshal config" "" st)
  | Ok c => (Ok c, st)
  end.

(** [syncer.Sync()] as [runFunc] calls it: on the [Syncer] of [NewSyncer],
    or on the nil pointer left by its failure, where [s.cfg] panics once
    the first line is logged. *)
Definition Sync_on (fuel : nat) (syncer : option Syncer) (st : State W)
  : outcome (option error) * State W :=
  match syncer with
  | Some s => Sync fuel s st
  | None => (Panics, log InfoLevel "Starting sync" "" st)
  end.

(** [runFunc] with the values of its flags [config_file] and
    [log_level].  Every error is logged and the function goes on. *)
Definition runFunc (fuel : nat) (P : Platform) (C : CliPlatform)
    (config_file log_level : string) (st : State W) : Ran W :=
  let '(read_err, v) := viper_ReadInConfig C config_file in
  let st := match read_err with
            | Some _ => log ErrorLevel "Failed to read config" "" st
            | None => st
            end in
  let '(lvl, st) :=
    match zerolog_ParseLevel C log_level with
    | Err _ => (zerolog_InfoLevel,
                log ErrorLevel "Failed to parse log level, defaulting to info" "" st)
    | Ok lvl => (lvl, st)
    end in
  let '(cfg, st) :=
    match NewConfig v st with
    | (Err _, st) => (None, log ErrorLevel "Failed to create config" "" st)
    | (Ok c, st) => (Some c, st)
    end in
  let '(syncer, st) :=
    match NewSyncer P cfg with
    | Err _ => (None, log ErrorLevel "Failed to create syncer" "" st)
    | Ok s => (Some s, st)
    end in
  match Sync_on fuel syncer st with
  | (Returns (Some _), st) =>
      {| ran_outcome := Returns (); ran_level := lvl;
         ran_state := log ErrorLevel "Failed to sync" "" st |}
  | (Returns None, st) => {| ran_outcome := Returns (); ran_level := lvl; ran_state := st |}
  | (Panics, st) => {| ran_outcome := Panics; ran_level := lvl; ran_state := st |}
  | (Unfinished, st) => {| ran_outcome := Unfinished; ran_level := lvl; ran_state := st |}
  end.
End Cli.

(** A line of the log. *)
Definition log_event (e : Event) : Prop :=
  match e with
  | EvLog _ _ _ => True
  | _ => False
  end.

(** The configuration [runFunc] hands to [NewSyncer]: [nil] when it could
    not be decoded. *)
Definition decoded (C : CliPlatform) (config_file : string) : option Config :=
  match viper_Unmarshal (viper_ReadInConfig C config_file).2 with
  | Ok c => Some c
  | Err _ => None
  end.

(** The flags of the [init] command, by name. *)
Record InitFlags : Type := {
  batch_size : Z;
  source_vault_addr : string;
  target_vault_addr : string;
  source_token : string;
  source_token_command : string;
  target_token : string;
  target_token_command : string;
  source_secret_path : string;
  target_secret_path : string;
  source_secret_mount : string;
  target_secret_mount : string;
}.

(** The values [initFunc] registers with [v.Set(key, value)], by key. *)
Inductive Setting : Type :=
| IntSetting (n : Z)
| StringSetting (s : string).

(** [if value != "" { v.Set(key, value) }]. *)
Definition set_unless_empty (key value : string) (v : gmap string Setting)
  : gmap string Setting :=
  if String.eqb value "" then v else <[key := StringSetting value]> v.

(** The [switch] on a token and a token command: the token is looked at
    first; [None] is [log.Fatal()], which ends the process. *)
Definition set_credential (token_key command_key token command : string)
    (v : gmap string Setting) : option (gmap string Setting) :=
  if negb (String.eqb token "") then Some (<[token_key := StringSetting token]> v)
  else if negb (String.eqb command "") then Some (<[command_key := StringSetting command]> v)
  else None.

(** How [initFunc] ends: with [v.WriteConfig()] on the file of the flag
    [config_file], or in [log.Fatal()] before that. *)
Inductive InitEnd : Type :=
| ConfigWritten (config_file : string) (settings : gmap string Setting)
| FatalExit.

Definition initFunc (config_file : string) (f : InitFlags) (v : gmap string Setting)
  : InitEnd :=
  let v := if bool_decide (batch_size f = 0) then v
           else <["batchSize" := IntSetting (batch_size f)]> v in
  let v := set_unless_empty "srcVault.addr" (source_vault_addr f) v in
  match set_credential "srcVault.token" "srcVault.tokenCmd"
          (source_token f) (source_token_command f) v with
  | None => FatalExit
  | Some v =>
      let v := set_unless_empty "srcVault.path" (source_secret_path f) v in
      let v := set_unless_empty "srcVault.mount" (source_secret_mount f) v in
      let v := set_unless_empty "destVault.addr" (target_vault_addr f) v in
      match set_credential "destVault.token" "destVault.tokenCmd"
              (target_token f) (target_token_command f) v with
      | None => FatalExit
      | Some v =>
          let v := set_unless_empty "destVault.path" (target_secret_path f) v in
          let v := set_unless_empty "destVault.mount" (target_secret_mount f) v in
          ConfigWritten config_file v
      end
  end.

(** The defaults of the flags of [init], with the tokens given. *)
Definition default_flags (source_token target_token : string) : InitFlags :=
  {| batch_size := 100;
     source_vault_addr := "http://localhost:8200";
     target_vault_addr := "http://localhost:8201";
     source_token := source_token; source_token_command := "";
     target_token := target_token; target_token_command := "";
     source_secret_path := "path/to/my/secret"; target_secret_path := "";
     source_secret_mount := "secret"; target_secret_mount := "" |}.

(** What [init] registers for them. *)
Definition default_settings : gmap string Setting :=
  <["destVault.token" := StringSetting "hvs.target"]>
  (<["destVault.addr" := StringSetting "http://localhost:8201"]>
  (<["srcVault.mount" := StringSetting "secret"]>
  (<["srcVault.path" := StringSetting "path/to/my/secret"]>
  (<["srcVault.token" := StringSetting "hvs.source"]>
  (<["srcVault.addr" := StringSetting "http://localhost:8200"]>
  (<["batchSize" := IntSetting 100]> ∅)))))).

(** A configuration file that cannot be read, and nothing to decode. *)
Definition no_config : CliPlatform :=
  {| viper_ReadInConfig := λ _,
       (Some (LibError "open ./config.yaml: no such file or directory"),
        {| viper_Unmarshal := Ok {| BatchSize := 0; SourceVault := None;
                                    DestinationVault := None |} |});
     zerolog_ParseLevel := λ _, Ok 1 |}.

(** A configuration file that decodes to the set-up of the scenarios. *)
Definition team_config (batchSize : Z) : CliPlatform :=
  {| viper_ReadInConfig := λ _,
       (None, {| viper_Unmarshal := Ok {| BatchSize := batchSize;
                                          SourceVault := Some team_vault;
                                          DestinationVault := Some team_vault |} |});
     zerolog_ParseLevel := λ _, Ok 1 |}.

(* ================================================================= *)
(** ** Documents as a JSON decoder hands them over *)











(* ================================================================= *)
(** * Properties *)

(** ** Go's [int] and slices *)

Lemma wrap_in_range z : GoInt.in_range z → GoInt.wrap z = z.
Proof.
  unfold GoInt.in_range, GoInt.min_int, GoInt.max_int, GoInt.wrap. intros Hz.
  rewrite Z.mod_small; lia.
Qed.

Lemma slice_Some {A} (s : list A) i j :
  0 ≤ i → i ≤ j → j ≤ GoInt.len s →
  GoInt.slice s i j = Some (take (Z.to_nat (j - i)) (drop (Z.to_nat i) s)).
Proof. intros. unfold GoInt.slice. rewrite bool_decide_eq_true_2; [lia | done]. Qed.

Lemma slice_neg_end {A} (s : list A) i j : j < i → GoInt.slice s i j = None.
Proof. intros. unfold GoInt.slice. rewrite bool_decide_eq_false_2; [lia | done]. Qed.

Lemma len_nil_iff {A} (s : list A) : GoInt.len s = 0 ↔ s = [].
Proof. unfold GoInt.len. destruct s; simpl; split; (done || lia). Qed.

(** ** The loop of [Sync] *)

(** With a positive batch size the loop variable is [0] or at least one
    batch size, which keeps [i + batchSize] inside [int]. *)
Lemma loop_head_positive srcList batchSize i :
  0 < batchSize ≤ GoInt.max_int → GoInt.len srcList < 2 ^ 62 →
  0 ≤ i < GoInt.len srcList → i = 0 ∨ batchSize ≤ i →
  GoInt.add i batchSize = i + batchSize ∧
  loop_head srcList batchSize i =
    LoopBatch (take (Z.to_nat (Z.min batchSize (GoInt.len srcList - i)))
                 (drop (Z.to_nat i) srcList)).
Proof.
  intros Hbs Hlen Hi Hmul.
  assert (GoInt.add i batchSize = i + batchSize) as Hadd.
  { apply wrap_in_range. unfold GoInt.in_range, GoInt.min_int, GoInt.max_int in *. lia. }
  split; [done|]. unfold loop_head. rewrite Hadd.
  rewrite bool_decide_eq_true_2; [lia|].
  case_bool_decide.
  - rewrite slice_Some; [lia..|]. do 3 f_equal. lia.
  - rewrite slice_Some; [lia..|]. do 3 f_equal. lia.
Qed.

Lemma loop_head_exit srcList batchSize i :
  GoInt.len srcList ≤ i → loop_head srcList batchSize i = LoopExit.
Proof. intros. unfold loop_head. rewrite bool_decide_eq_false_2; [lia|done]. Qed.

(** ** What the workers leave behind *)

Section EngineFacts.
Context {W : Type} `{!Backend W}.

Lemma batches_of_app t1 t2 : batches_of (t1 ++ t2) = batches_of t1 ++ batches_of t2.
Proof. apply omap_app. Qed.

Lemma started_of_app t1 t2 : started_of (t1 ++ t2) = started_of t1 ++ started_of t2.
Proof. apply omap_app. Qed.

Lemma calls_of_app t1 t2 : calls_of (t1 ++ t2) = calls_of t1 ++ calls_of t2.
Proof. apply omap_app. Qed.

Lemma worker_events_quiet evs :
  Forall worker_event evs → batches_of evs = [] ∧ started_of evs = [].
Proof.
  induction 1 as [|e evs He _ [IH1 IH2]]; [done|].
  destruct e; simpl in *; try done.
Qed.

Lemma doSync_trace mount path (st : State W) :
  ∃ evs, trace (doSync mount path st) = trace st ++ evs ∧ Forall worker_event evs.
Proof.
  unfold doSync, call, note, log; simpl.
  repeat (case_match; simplify_eq/=);
    rewrite -?app_assoc; eexists; (split; [reflexivity|]);
    repeat constructor.
Qed.

(** A worker changes the world through its three calls only; whatever
    they all leave alone is left alone by the worker. *)
Lemma doSync_frame {C} (obs : W → C) mount path (st : State W) :
  (∀ c w, spares_source c → obs (vault_call c w).2 = obs w) →
  obs (world (doSync mount path st)) = obs (world st).
Proof.
  intros Hobs. unfold doSync, call, note, log; simpl.
  repeat (case_match; simplify_eq/=);
    repeat match goal with
    | H : vault_call ?c ?w = (_, ?w') |- _ =>
        let E := fresh in
        assert (obs w' = obs w) as E
          by (rewrite -(Hobs c w I); by rewrite H);
        clear H
    end; congruence.
Qed.

Lemma batchSync_trace mount path batch (st : State W) :
  ∃ evs, trace (batchSync mount path batch st) = trace st ++ EvBatch batch :: evs
         ∧ Forall batch_event evs
         ∧ started_of evs = (λ item, path +:+ item) <$> batch.
Proof.
  unfold batchSync.
  assert (∀ l (st0 : State W),
    ∃ evs, trace (foldl (λ st item, doSync mount (path +:+ item)
                                      (note (EvGo (path +:+ item)) st)) st0 l)
           = trace st0 ++ evs
         ∧ Forall batch_event evs
         ∧ started_of evs = (λ item, path +:+ item) <$> l) as Hfold.
  { induction l as [|item l IH]; intros st0; simpl.
    - exists []. by rewrite app_nil_r.
    - destruct (IH (doSync mount (path +:+ item) (note (EvGo (path +:+ item)) st0)))
        as (evs & Ht & Hev & Hst).
      destruct (doSync_trace mount (path +:+ item) (note (EvGo (path +:+ item)) st0))
        as (evs1 & Ht1 & Hev1).
      exists (EvGo (path +:+ item) :: evs1 ++ evs). split; [|split].
      + rewrite Ht Ht1 /=. by rewrite -!app_assoc.
      + constructor; [done|]. apply Forall_app. split; [|done].
        eapply Forall_impl; [exact Hev1|]. by intros [].
      + destruct (worker_events_quiet _ Hev1) as [_ Hq].
        change (started_of (EvGo (path +:+ item) :: evs1 ++ evs))
          with ((path +:+ item) :: started_of (evs1 ++ evs)).
        by rewrite started_of_app Hq Hst. }
  destruct (Hfold batch (note (EvBatch batch) st)) as (evs & Ht & Hev & Hst).
  exists evs. split; [|done]. rewrite Ht /=. by rewrite -app_assoc.
Qed.

Lemma batchSync_frame {C} (obs : W → C) mount path batch (st : State W) :
  (∀ c w, spares_source c → obs (vault_call c w).2 = obs w) →
  obs (world (batchSync mount path batch st)) = obs (world st).
Proof.
  intros Hobs. unfold batchSync.
  change (obs (world st)) with (obs (world (note (EvBatch batch) st))).
  generalize (note (EvBatch batch) st). induction batch as [|item l IH]; intros st0; [done|].
  simpl. rewrite IH. by rewrite doSync_frame.
Qed.

Lemma batches_of_batch_events evs : Forall batch_event evs → batches_of evs = [].
Proof. induction 1 as [|e evs He _ IH]; [done|]. by destruct e. Qed.

Lemma batchSync_batches mount path batch (st : State W) :
  batches_of (trace (batchSync mount path batch st)) = batches_of (trace st) ++ [batch].
Proof.
  destruct (batchSync_trace mount path batch st) as (evs & -> & Hev & _).
  rewrite batches_of_app /=. by rewrite (batches_of_batch_events _ Hev).
Qed.

End EngineFacts.

(** ** The loop, batch by batch *)

Section LoopFacts.
Context {W : Type} `{!Backend W}.

Lemma Sync_loop_trace fuel mount path srcList batchSize i (st : State W) :
  ∃ evs, trace (Sync_loop fuel mount path srcList batchSize i st).2 = trace st ++ evs
         ∧ Forall run_event evs.
Proof.
  revert i st. induction fuel as [|fuel IH]; intros i st; simpl.
  { exists []. by rewrite app_nil_r. }
  destruct (loop_head srcList batchSize i) as [| |batch]; simpl;
    try (exists []; by rewrite app_nil_r).
  destruct (IH (GoInt.add i batchSize) (batchSync mount path batch st)) as (evs & -> & Hev).
  destruct (batchSync_trace mount path batch st) as (evs1 & -> & Hev1 & _).
  exists (EvBatch batch :: evs1 ++ evs). split.
  - by rewrite -app_assoc.
  - constructor; [done|]. apply Forall_app. split; [|done].
    eapply Forall_impl; [exact Hev1|]. by intros [].
Qed.

Lemma Sync_loop_frame {C} (obs : W → C) fuel mount path srcList batchSize i (st : State W) :
  (∀ c w, spares_source c → obs (vault_call c w).2 = obs w) →
  obs (world (Sync_loop fuel mount path srcList batchSize i st).2) = obs (world st).
Proof.
  intros Hobs. revert i st. induction fuel as [|fuel IH]; intros i st; simpl; [done|].
  destruct (loop_head srcList batchSize i) as [| |batch]; simpl; try done.
  rewrite IH. by apply batchSync_frame.
Qed.

(** A positive batch size: the loop returns, and what it dispatched from
    [i] on is the rest of the list cut into full batches and a last one. *)
Lemma Sync_loop_positive mount path srcList batchSize :
  0 < batchSize ≤ GoInt.max_int → GoInt.len srcList < 2 ^ 62 →
  ∀ fuel i (st : State W),
    0 ≤ i → i = 0 ∨ batchSize ≤ i →
    (Z.to_nat (GoInt.len srcList - i) < fuel)%nat →
    ∃ st' bl,
      Sync_loop fuel mount path srcList batchSize i st = (Returns (), st')
      ∧ batches_of (trace st') = batches_of (trace st) ++ bl
      ∧ concat bl = drop (Z.to_nat i) srcList
      ∧ (GoInt.len srcList ≤ i → bl = [])
      ∧ (i < GoInt.len srcList →
         ∃ init lastb, bl = init ++ [lastb]
           ∧ Forall (λ b, GoInt.len b = batchSize) init
           ∧ 1 ≤ GoInt.len lastb ≤ batchSize).
Proof.
  intros Hbs Hlen. induction fuel as [|fuel IH]; intros i st Hi Hmul Hfuel; [lia|].
  simpl. destruct (decide (i < GoInt.len srcList)) as [Hlt|Hge].
  - destruct (loop_head_positive srcList batchSize i) as [Hadd ->]; [done..|lia|done|].
    rewrite Hadd.
    set (batch := take _ _).
    destruct (IH (i + batchSize) (batchSync mount path batch st))
      as (st' & bl & -> & Hb & Hcat & Hnil & Hcons); [lia|lia|lia|].
    exists st', (batch :: bl). split; [done|].
    assert (length (drop (Z.to_nat i) srcList) = Z.to_nat (GoInt.len srcList - i)) as Hdl.
    { rewrite length_drop /GoInt.len. lia. }
    split; [|split; [|split]].
    + rewrite Hb batchSync_batches. by rewrite -app_assoc.
    + simpl. rewrite Hcat /batch.
      replace (Z.to_nat (i + batchSize))
        with (Z.to_nat i + Z.to_nat batchSize)%nat by lia.
      rewrite -drop_drop.
      destruct (decide (batchSize ≤ GoInt.len srcList - i)).
      * rewrite Z.min_l; [done|]. apply take_drop.
      * rewrite Z.min_r; [lia|]. rewrite take_ge; [lia|].
        rewrite (drop_ge _ (Z.to_nat batchSize)); [lia|]. by rewrite app_nil_r.
    + lia.
    + intros _. destruct (decide (i + batchSize < GoInt.len srcList)) as [Hmore|Hlast].
      * destruct (Hcons Hmore) as (init & lastb & -> & Hinit & Hl).
        exists (batch :: init), lastb. split; [done|]. split; [|done].
        constructor; [|done]. rewrite /GoInt.len /batch length_take Hdl. lia.
      * rewrite Hnil; [lia|]. exists [], batch. split; [done|]. split; [done|].
        rewrite /GoInt.len /batch length_take Hdl. lia.
  - rewrite loop_head_exit; [lia|]. exists st, []. split; [done|].
    split; [by rewrite app_nil_r|]. split; [|split; [done|lia]].
    rewrite drop_ge; [|done]. unfold GoInt.len in *. lia.
Qed.

(** Batch size [0]: every turn of the loop dispatches the empty batch and
    leaves [i] at [0]; the loop starts no worker and never ends. *)
Lemma Sync_loop_zero mount path srcList :
  srcList ≠ [] →
  ∀ fuel (st : State W),
    (Sync_loop fuel mount path srcList 0 0 st).1 = Unfinished
    ∧ started_of (trace (Sync_loop fuel mount path srcList 0 0 st).2) = started_of (trace st)
    ∧ calls_of (trace (Sync_loop fuel mount path srcList 0 0 st).2) = calls_of (trace st)
    ∧ world (Sync_loop fuel mount path srcList 0 0 st).2 = world st.
Proof.
  intros Hne.
  assert (loop_head srcList 0 0 = LoopBatch []) as Hhead.
  { unfold loop_head. assert (0 < GoInt.len srcList).
    { unfold GoInt.len. destruct srcList; [done|simpl; lia]. }
    rewrite bool_decide_eq_true_2; [done|].
    change (GoInt.add 0 0) with 0. rewrite bool_decide_eq_false_2; [lia|].
    rewrite slice_Some; [lia..|]. by rewrite take_0. }
  induction fuel as [|fuel IH]; intros st; simpl; [done|].
  rewrite Hhead. change (GoInt.add 0 0) with 0.
  destruct (IH (batchSync mount path [] st)) as (-> & -> & -> & ->).
  rewrite /batchSync /= /started_of /calls_of !omap_app /=. by rewrite !app_nil_r.
Qed.

(** A negative batch size: [end] is negative at the first turn and the
    slice expression panics before anything is dispatched. *)
Lemma Sync_loop_negative mount path srcList batchSize :
  srcList ≠ [] → GoInt.min_int ≤ batchSize < 0 →
  ∀ fuel (st : State W),
    Sync_loop (S fuel) mount path srcList batchSize 0 st = (Panics, st).
Proof.
  intros Hne Hbs fuel st. simpl.
  assert (loop_head srcList batchSize 0 = LoopPanic) as ->; [|done].
  unfold loop_head. assert (0 < GoInt.len srcList).
  { unfold GoInt.len. destruct srcList; [done|simpl; lia]. }
  rewrite bool_decide_eq_true_2; [done|].
  assert (GoInt.add 0 batchSize = batchSize) as ->.
  { apply wrap_in_range. unfold GoInt.in_range, GoInt.min_int, GoInt.max_int in *. lia. }
  rewrite bool_decide_eq_false_2; [lia|]. rewrite slice_neg_end; [lia|done].
Qed.

(** The batches of the loop are those of the plan, whatever the workers do. *)
Lemma Sync_loop_plan fuel mount path srcList batchSize i (st : State W) :
  batches_of (trace (Sync_loop fuel mount path srcList batchSize i st).2)
  = batches_of (trace st) ++ plan_from fuel srcList batchSize i.
Proof.
  revert i st. induction fuel as [|fuel IH]; intros i st; simpl.
  { by rewrite app_nil_r. }
  destruct (loop_head srcList batchSize i) as [| |batch]; simpl;
    try by rewrite app_nil_r.
  rewrite IH batchSync_batches -app_assoc. done.
Qed.

End LoopFacts.

(** ** Enumeration *)

Section SyncFacts.
Context {W : Type} `{!Backend W}.

Lemma listSourcePath_trace mount path (st : State W) :
  trace (listSourcePath mount path st).2 =
    trace st ++ [EvLog DebugLevel "Listing source vault" path;
                 EvCall (VaultList OnSource (mount +:+ "/metadata/" +:+ path) mount)].
Proof.
  unfold listSourcePath, call, log; simpl.
  repeat (case_match; simplify_eq/=); by rewrite -app_assoc.
Qed.

Lemma listSourcePath_frame {C} (obs : W → C) mount path (st : State W) :
  (∀ c w, spares_source c → obs (vault_call c w).2 = obs w) →
  obs (world (listSourcePath mount path st).2) = obs (world st).
Proof.
  intros Hobs. unfold listSourcePath, call, log; simpl.
  repeat (case_match; simplify_eq/=);
    match goal with
    | H : vault_call ?c ?w = (_, ?w') |- _ => rewrite -(Hobs c w I); by rewrite H
    end.
Qed.

(** [Sync] once the listing has come back with [srcList]. *)
Lemma Sync_enumerated fuel (s : Syncer) sv srcList (st st1 : State W) :
  SourceVault (cfg s) = Some sv →
  listSourcePath (Mount sv) (Path sv) (log InfoLevel "Starting sync" "" st)
    = (Returns (Ok srcList), st1) →
  Sync fuel s st =
    match Sync_loop fuel (Mount sv) (Path sv) srcList (BatchSize (cfg s)) 0 st1 with
    | (Returns _, st') => (Returns None, log InfoLevel "Sync complete" "" st')
    | (Panics, st') => (Panics, st')
    | (Unfinished, st') => (Unfinished, st')
    end.
Proof. intros Hsv Hl. unfold Sync. by rewrite Hsv Hl. Qed.

Lemma log_batches lvl msg secret (st : State W) :
  batches_of (trace (log lvl msg secret st)) = batches_of (trace st).
Proof. by rewrite /log /= batches_of_app /= app_nil_r. Qed.

Lemma log_started lvl msg secret (st : State W) :
  started_of (trace (log lvl msg secret st)) = started_of (trace st).
Proof. by rewrite /log /= started_of_app /= app_nil_r. Qed.

Lemma listSourcePath_batches mount path (st : State W) :
  batches_of (trace (listSourcePath mount path st).2) = batches_of (trace st).
Proof. by rewrite listSourcePath_trace batches_of_app /= app_nil_r. Qed.

Lemma listSourcePath_started mount path (st : State W) :
  started_of (trace (listSourcePath mount path st).2) = started_of (trace st).
Proof. by rewrite listSourcePath_trace started_of_app /= app_nil_r. Qed.

(** With batch size [0] and a key to sync, [Sync] is still in its loop
    whatever the fuel, and has started no worker. *)
Lemma Sync_zero_unfinished fuel (s : Syncer) sv srcList (st : State W) :
  SourceVault (cfg s) = Some sv →
  (listSourcePath (Mount sv) (Path sv) (log InfoLevel "Starting sync" "" st)).1
    = Returns (Ok srcList) →
  srcList ≠ [] → BatchSize (cfg s) = 0 →
  (Sync fuel s st).1 = Unfinished
  ∧ started_of (trace (Sync fuel s st).2) = started_of (trace st).
Proof.
  intros Hsv Henum Hne Hz.
  destruct (listSourcePath _ _ _) as [r st1] eqn:Hl. simpl in Henum. subst r.
  pose proof (listSourcePath_started (Mount sv) (Path sv)
                (log InfoLevel "Starting sync" "" st)) as Hq.
  rewrite Hl /= log_started in Hq.
  rewrite (Sync_enumerated _ _ _ _ _ _ Hsv Hl) Hz.
  destruct (Sync_loop_zero (Mount sv) (Path sv) srcList Hne fuel st1) as (Hu & Hs & _).
  destruct (Sync_loop _ _ _ _ _ _ _) as [r st']. simpl in *. subst r. simpl.
  by rewrite Hs.
Qed.

End SyncFacts.

(* ================================================================= *)
(** * The equality check *)

(** ** Sorting the fields of a map *)

Lemma leb_trans (a b c : string) :
  String.leb a b = true → String.leb b c = true → String.leb a c = true.
Proof.
  intros Hab Hbc. apply Is_true_true.
  change (String.le a c). trans b; apply Is_true_true; done.
Qed.

Lemma leb_false_flip (a b : string) :
  String.leb a b = false → String.leb b a = true.
Proof. intros Hab. destruct (String.leb_total a b) as [H|H]; [congruence|done]. Qed.

Lemma insert_field_comm (x y : string * list Z) l :
  x.1 ≠ y.1 →
  Json.insert_field x (Json.insert_field y l) = Json.insert_field y (Json.insert_field x l).
Proof.
  intros Hxy. induction l as [|a l IH]; simpl.
  - destruct (String.leb x.1 y.1) eqn:Hx, (String.leb y.1 x.1) eqn:Hy; try done.
    + destruct Hxy. by apply String.leb_antisym.
    + apply leb_false_flip in Hx. congruence.
  - destruct (String.leb x.1 a.1) eqn:Hxa, (String.leb y.1 a.1) eqn:Hya; simpl;
      rewrite ?Hxa ?Hya.
    + destruct (String.leb x.1 y.1) eqn:Hx, (String.leb y.1 x.1) eqn:Hy; try done.
      * destruct Hxy. by apply String.leb_antisym.
      * apply leb_false_flip in Hx. congruence.
    + destruct (String.leb y.1 x.1) eqn:Hy; [|done].
      rewrite (leb_trans _ _ _ Hy Hxa) in Hya. done.
    + destruct (String.leb x.1 y.1) eqn:Hx; [|done].
      rewrite (leb_trans _ _ _ Hx Hya) in Hxa. done.
    + by rewrite IH.
Qed.

(** With pairwise distinct keys the sorted list of fields does not depend
    on the order in which the fields were listed. *)
Lemma sort_fields_perm (l1 l2 : list (string * list Z)) :
  l1 ≡ₚ l2 → NoDup (l1.*1) → Json.sort_fields l1 = Json.sort_fields l2.
Proof.
  induction 1 as [|x l1 l2 Hp IH|x y l|l1 l2 l3 Hp1 IH1 Hp2 IH2]; intros Hnd.
  - done.
  - simpl. rewrite IH; [|done]. rewrite fmap_cons in Hnd. by apply NoDup_cons in Hnd as [_ ?].
  - simpl. apply insert_field_comm.
    rewrite !fmap_cons in Hnd. apply NoDup_cons in Hnd as [Hin _].
    intros Heq. apply Hin. rewrite Heq. left.
  - rewrite IH1; [done|]. apply IH2. by rewrite -Hp1.
Qed.

(** ** Documents with the same field values have the same encoding *)

Lemma lookup_field_elem k (fs : list (string * Value)) v :
  lookup_field k fs = Some v → (k, v) ∈ fs.
Proof.
  induction fs as [|[k' v'] fs IH]; simpl; [done|].
  case_bool_decide; intros Hl; simplify_eq; [left|right; auto].
Qed.

Lemma wf_value_map fs :
  wf_value (VMap fs) = true →
  NoDup (fs.*1) ∧ ∀ k v, (k, v) ∈ fs → wf_value v = true.
Proof.
  simpl. intros [Hnd Hall]%andb_true_iff. split.
  - by apply bool_decide_eq_true in Hnd.
  - intros k v Hin. rewrite forallb_forall in Hall.
    by apply (Hall (k, v)), list_elem_of_In.
Qed.

Lemma wf_value_array vs :
  wf_value (VArray vs) = true → ∀ v, v ∈ vs → wf_value v = true.
Proof.
  simpl. intros Hall v Hin. rewrite forallb_forall in Hall.
  by apply Hall, list_elem_of_In.
Qed.

Lemma Marshal_map fs :
  Json.Marshal (VMap fs) = Json.render_object ((λ f, (f.1, Json.Marshal f.2)) <$> fs).
Proof.
  simpl. f_equal. induction fs as [|[k v] fs IH]; [done|]. simpl. by f_equal.
Qed.

Theorem same_document_Marshal (a b : Value) :
  wf_value a = true → wf_value b = true →
  same_document a b = true → Json.Marshal a = Json.Marshal b.
Proof.
  revert b. induction a as [|x|x|x|xs IH|fs IH] using Value_nested_ind;
    intros [|y|y|y|ys|gs] Hwa Hwb Hsame; simpl in Hsame; try done;
    try (apply bool_decide_eq_true in Hsame; by subst).
  - (* arrays *)
    simpl. f_equal.
    pose proof (wf_value_array _ Hwa) as Hxs. pose proof (wf_value_array _ Hwb) as Hys.
    clear Hwa Hwb. revert ys Hsame Hys.
    induction IH as [|x xs Hx _ IHxs]; intros [|y ys] Hsame Hys; try done.
    apply andb_true_iff in Hsame as [Hxy Hrest]. simpl. f_equal.
    + apply Hx; [apply Hxs; left|apply Hys; left|done].
    + apply IHxs; [intros; apply Hxs; by right|done|intros; apply Hys; by right].
  - (* maps *)
    rewrite !Marshal_map. unfold Json.render_object.
    cut (Json.sort_fields ((λ f, (f.1, Json.Marshal f.2)) <$> fs)
         = Json.sort_fields ((λ f, (f.1, Json.Marshal f.2)) <$> gs)); [by intros ->|].
    destruct (wf_value_map _ Hwa) as [Hnda Hwfa].
    destruct (wf_value_map _ Hwb) as [Hndb Hwfb].
    apply andb_true_iff in Hsame as [Hlen Hall].
    apply bool_decide_eq_true in Hlen.
    apply sort_fields_perm.
    2:{ by rewrite -list_fmap_compose. }
    apply submseteq_length_Permutation; [|by rewrite !length_fmap Hlen].
    apply NoDup_submseteq.
    { eapply (NoDup_fmap_1 fst). by rewrite -list_fmap_compose. }
    intros [k e] ([k' x] & [= -> ->] & Hin)%list_elem_of_fmap. simpl.
    rewrite forallb_forall in Hall.
    specialize (Hall (k', x) (proj1 (list_elem_of_In _ _) Hin)). simpl in Hall.
    destruct (lookup_field k' gs) as [y|] eqn:Hl; [|done].
    apply lookup_field_elem in Hl.
    rewrite Forall_forall in IH.
    rewrite (IH (k', x) Hin y); [by apply (Hwfa k' x)|by apply (Hwfb k' y)|done|].
    apply list_elem_of_fmap. by exists (k', y).
Qed.

(** ** The digest is 32 bytes *)










(** ** Documents with the same encoding have the same field values *)


Lemma byte_of_range a : is_byte (byte_of a).
Proof.
  unfold is_byte, byte_of. pose proof (N_ascii_bounded a). lia.
Qed.

Lemma bytes_of_range s : Forall is_byte (bytes_of s).
Proof. induction s; constructor; [apply byte_of_range|done]. Qed.

Section EncodingFacts.


(** *** One rune of a string *)










(** *** A whole string *)






(** *** Where a value starts and ends *)







(** *** Lists of items between brackets *)









(** *** No encoding is the beginning of another *)

Local Arguments Json.encodeString : simpl never.
Local Arguments Json.render_field : simpl never.


(** *** Equal encodings, same document *)




End EncodingFacts.


(* ================================================================= *)
(** * Token resolution *)

Lemma HasPrefix_append b prefix :
  HasPrefix b prefix = true → ∃ rest, b = prefix +:+ rest.
Proof.
  revert b. induction prefix as [|p prefix IH]; intros b; cbn [HasPrefix].
  - by exists b.
  - destruct b as [|c b]; [done|]. intros [Hc Hb]%andb_true_iff.
    apply Ascii.eqb_eq in Hc as ->. destruct (IH b Hb) as [rest ->]. by exists rest.
Qed.

Lemma starts_with_before x t r l rest :
  x ∉ r → starts_with r (l ++ x :: t) = Some rest → ∃ l', rest = l' ++ x :: t.
Proof.
  revert l. induction r as [|y r IH]; intros l Hx; simpl.
  - intros [= <-]. by exists l.
  - destruct l as [|z l]; simpl.
    + case_bool_decide; [|done]. subst. destruct Hx. left.
    + case_bool_decide; [|done]. apply IH. intros ?. apply Hx. by right.
Qed.

Lemma trim_left_before x t runes fuel l :
  Forall (λ r, x ∉ r) runes → ∃ l', trim_left fuel runes (l ++ x :: t) = l' ++ x :: t.
Proof.
  intros Hrunes. revert l. induction fuel as [|fuel IH]; intros l; simpl; [by exists l|].
  destruct (strip_rune runes (l ++ x :: t)) as [rest|] eqn:Hs; [|by exists l].
  assert (∃ l', rest = l' ++ x :: t) as [l' ->]; [|apply IH].
  clear IH. induction Hrunes as [|r runes Hr _ IHr]; simpl in Hs; [done|].
  destruct (starts_with r (l ++ x :: t)) eqn:Hw; [|by apply IHr].
  injection Hs as <-. exact (starts_with_before _ _ _ _ _ Hr Hw).
Qed.

(** Output that starts with the prefix keeps it when trimmed: there is no
    white space before it, and what is cut at the end stops at its dot. *)
Lemma TrimSpace_keeps_prefix b :
  HasPrefix b "hvs." = true → HasPrefix (TrimSpace b) "hvs." = true.
Proof.
  intros [rest ->]%HasPrefix_append. unfold TrimSpace.
  change (bytes_of ("hvs." +:+ rest)) with (0x68 :: 0x76 :: 0x73 :: 0x2e :: bytes_of rest).
  assert (TrimLeftSpace (0x68 :: 0x76 :: 0x73 :: 0x2e :: bytes_of rest)
          = 0x68 :: 0x76 :: 0x73 :: 0x2e :: bytes_of rest) as -> by reflexivity.
  unfold TrimRightSpace.
  replace (reverse (0x68 :: 0x76 :: 0x73 :: 0x2e :: bytes_of rest))
    with (reverse (bytes_of rest) ++ 0x2e :: [0x73; 0x76; 0x68]).
  2:{ rewrite !reverse_cons -!app_assoc. done. }
  destruct (trim_left_before 0x2e [0x73; 0x76; 0x68] (reverse <$> space_runes)
              (length (0x68 :: 0x76 :: 0x73 :: 0x2e :: bytes_of rest))
              (reverse (bytes_of rest))) as [l' ->].
  { by apply (bool_decide_unpack _). }
  rewrite reverse_app. reflexivity.
Qed.

(* ================================================================= *)
(** * The batch barrier *)

Section ConcFacts.
Context {W : Type} `{!Backend W}.
Variables (mount path : string) (srcList : list string) (batchSize : Z).

Local Abbreviation step := (Conc.step (W:=W) mount path srcList batchSize).
Local Abbreviation run := (Conc.run (W:=W) mount path srcList batchSize).
Local Abbreviation Inv := (Conc.Inv (W:=W) srcList batchSize).

Lemma in_flight_app pool1 pool2 :
  Conc.in_flight (pool1 ++ pool2) = (Conc.in_flight pool1 + Conc.in_flight pool2)%nat.
Proof. by rewrite /Conc.in_flight List.filter_app length_app. Qed.

Lemma of_batch_app n pool1 pool2 :
  Conc.of_batch n (pool1 ++ pool2) = Conc.of_batch n pool1 ++ Conc.of_batch n pool2.
Proof. apply List.filter_app. Qed.

Lemma insert_middle {A} (l : list A) k x y :
  l !! k = Some x → ∃ l1 l2, l = l1 ++ x :: l2 ∧ <[k := y]> l = l1 ++ y :: l2.
Proof.
  intros Hk. exists (take k l), (drop (S k) l).
  split; [symmetry; by apply take_drop_middle|].
  apply insert_take_drop. by apply (lookup_lt_Some _ _ x).
Qed.

(** Replacing a goroutine by one that is as much alive and of the same
    batch changes no count. *)
Lemma in_flight_insert pool k g g' :
  pool !! k = Some g → Conc.exited g' = Conc.exited g →
  Conc.in_flight (<[k := g']> pool) = Conc.in_flight pool.
Proof.
  intros Hk He. destruct (insert_middle pool k g g' Hk) as (l1 & l2 & -> & ->).
  rewrite !in_flight_app /Conc.in_flight /= He. by destruct (Conc.exited g).
Qed.

Lemma in_flight_exit pool k g g' :
  pool !! k = Some g → Conc.exited g = false → Conc.exited g' = true →
  S (Conc.in_flight (<[k := g']> pool)) = Conc.in_flight pool.
Proof.
  intros Hk He He'. destruct (insert_middle pool k g g' Hk) as (l1 & l2 & -> & ->).
  rewrite !in_flight_app /Conc.in_flight /= He He' /=. lia.
Qed.

Lemma of_batch_insert n pool k g g' :
  pool !! k = Some g → Conc.g_wg g' = Conc.g_wg g →
  length (Conc.of_batch n (<[k := g']> pool)) = length (Conc.of_batch n pool).
Proof.
  intros Hk He. destruct (insert_middle pool k g g' Hk) as (l1 & l2 & -> & ->).
  rewrite !of_batch_app !length_app /Conc.of_batch /= He.
  by destruct (Conc.g_wg g =? n)%nat.
Qed.

Lemma elem_of_insert_inv {A} (l : list A) k x y :
  y ∈ <[k := x]> l → y = x ∨ y ∈ l.
Proof.
  destruct (l !! k) as [z|] eqn:Hk.
  - destruct (insert_middle l k z x Hk) as (l1 & l2 & -> & ->).
    rewrite !elem_of_app !elem_of_cons. intros [?|[?|?]]; auto.
  - rewrite list_insert_ge; [|by right]. by apply lookup_ge_None.
Qed.

Lemma in_flight_zero pool :
  Conc.in_flight pool = 0%nat ↔ ∀ g, g ∈ pool → Conc.exited g = true.
Proof.
  unfold Conc.in_flight. induction pool as [|g pool IH]; simpl.
  - split; [|done]. intros _ g Hg. by apply elem_of_nil in Hg.
  - destruct (Conc.exited g) eqn:He; simpl.
    + rewrite IH. split.
      * intros Hall g' [->|]%elem_of_cons; auto.
      * intros Hall g' Hg'. apply Hall. by right.
    + split; [done|]. intros Hall. specialize (Hall g ltac:(left)). congruence.
Qed.

Lemma tagged_tags n evs : Forall (λ te : nat * Event, te.1 = n) (Conc.tagged n evs).
Proof.
  unfold Conc.tagged. apply Forall_reverse, Forall_fmap.
  by apply Forall_forall.
Qed.

(** Events of the batch in hand, put on a trace that was in order and had
    nothing of a later batch, leave it so. *)
Lemma sorted_tagged n (new t : list (nat * Event)) :
  Forall (λ te, te.1 = n) new →
  Forall (λ te, (te.1 ≤ n)%nat) t →
  StronglySorted (λ later earlier : nat * Event, (earlier.1 ≤ later.1)%nat) t →
  Forall (λ te, (te.1 ≤ n)%nat) (new ++ t)
  ∧ StronglySorted (λ later earlier : nat * Event, (earlier.1 ≤ later.1)%nat) (new ++ t).
Proof.
  intros Hnew Ht Hs. induction Hnew as [|te new Hte _ [IH1 IH2]]; [done|].
  simpl. split.
  - constructor; [lia|done].
  - constructor; [done|]. eapply Forall_impl; [exact IH1|]. intros te'. simpl. lia.
Qed.

Lemma in_flight_pos pool k g :
  pool !! k = Some g → Conc.exited g = false → (0 < Conc.in_flight pool)%nat.
Proof.
  intros Hk He. destruct (insert_middle pool k g g Hk) as (l1 & l2 & -> & _).
  rewrite in_flight_app /Conc.in_flight /= He /=. lia.
Qed.

Lemma of_batch_fresh n pool :
  (∀ g, g ∈ pool → (Conc.g_wg g < n)%nat) → Conc.of_batch n pool = [].
Proof.
  induction pool as [|g pool IH]; intros Hall; [done|]. simpl.
  pose proof (Hall g ltac:(left)) as Hg.
  destruct (Nat.eqb_spec (Conc.g_wg g) n); [lia|].
  apply IH. intros g' Hg'. apply Hall. by right.
Qed.

Lemma Inv_init (w : W) : Inv (Conc.init w).
Proof.
  constructor; simpl; try done.
  - intros g Hg. by apply elem_of_nil in Hg.
  - intros g Hg. by apply elem_of_nil in Hg.
  - constructor.
Qed.

(** A worker that is not at its last step stays alive. *)
Lemma worker_step_alive secret pc (w : W) :
  pc ≠ Conc.AtDone → pc ≠ Conc.Exited →
  (Conc.worker_step mount secret pc w).1.1 ≠ Conc.Exited.
Proof.
  intros H1 H2. destruct pc; simpl; try done; repeat case_match; simplify_eq/=; done.
Qed.

Local Arguments Conc.worker_step : simpl never.

Lemma Inv_step_main c c' :
  Inv c → Conc.step_main path srcList batchSize c = Some c' → Inv c'.
Proof.
  intros [Hpool Hknown Hold Hcnt Hidle Hbatch Hflight Htags Hsorted].
  destruct c as [m wg pl w tr]. unfold Conc.step_main, Conc.cur in *. simpl in *.
  destruct m as [i|i [|item rest]|i item rest|i|r]; simpl.
  - (* the loop test *)
    specialize (Hidle I).
    destruct (loop_head srcList batchSize i) as [| |batch] eqn:Hhead;
      intros [= <-]; constructor; rewrite /Conc.cur /=; try done.
    all: rewrite ?length_app /= ?Nat.add_1_r /=.
    + by intros [? ?]%app_eq_nil.
    + intros g Hg. specialize (Hknown g Hg). lia.
    + intros g Hg _. by apply (proj1 (in_flight_zero pl) Hidle).
    + intros _. rewrite Hidle. by rewrite list_lookup_middle.
    + intros _. split; [by intros [? ?]%app_eq_nil|].
      exists batch. unfold Conc.batch_in_hand. simpl. rewrite Hhead. split; [done|].
      by rewrite of_batch_fresh.
    + rewrite Hidle. lia.
    + constructor; [simpl; lia|]. eapply Forall_impl; [exact Htags|]. simpl. lia.
    + constructor; [done|]. eapply Forall_impl; [exact Htags|]. simpl. lia.
  - (* the range loop is over *)
    intros [= <-]. constructor; rewrite /Conc.cur /=; try done.
  - (* wg.Add(1) *)
    destruct (Hbatch I) as (Hne & b & Hb & Hlen). simpl in Hlen.
    intros [= <-]. constructor; rewrite /Conc.cur /= ?length_alter; try done.
    + intros ?. destruct Hne. by apply (f_equal length) in H; rewrite length_alter in H;
        destruct wg.
    + intros _. rewrite list_lookup_alter_eq (Hcnt Hne) /=. f_equal. lia.
    + intros _. split; [|by exists b].
      intros Hnil. apply (f_equal length) in Hnil. rewrite length_alter in Hnil.
      by destruct wg.
  - (* the go statement *)
    destruct (Hbatch I) as (Hne & b & Hb & Hlen). simpl in Hlen.
    assert (0 < length wg)%nat as Hpos by (destruct wg; [done|simpl; lia]).
    intros [= <-]. constructor; rewrite /Conc.cur /=; try done.
    + intros g [Hg| ->%list_elem_of_singleton]%elem_of_app; [by apply Hknown|simpl; lia].
    + intros g [Hg| ->%list_elem_of_singleton]%elem_of_app; [by apply Hold|done].
    + intros _. rewrite (Hcnt Hne) in_flight_app /=. f_equal.
      unfold Conc.in_flight. simpl. lia.
    + intros _. split; [done|]. exists b. split; [done|].
      rewrite of_batch_app length_app /= Nat.eqb_refl /=. lia.
    + rewrite in_flight_app of_batch_app length_app /= Nat.eqb_refl /=.
      unfold Conc.in_flight in *. simpl. lia.
    + constructor; [done|done].
    + constructor; [done|]. eapply Forall_impl; [exact Htags|]. done.
  - (* wg.Wait() *)
    destruct (Hbatch I) as (Hne & b & Hb & Hlen). simpl in Hlen.
    case_bool_decide as Hz; [|done]. intros [= <-]. constructor; rewrite /Conc.cur /=; try done.
    intros _. rewrite (Hcnt Hne) in Hz. injection Hz as Hz. lia.
  - done.
Qed.

Lemma Inv_step_worker k c c' :
  Inv c → Conc.step_worker mount k c = Some c' → Inv c'.
Proof.
  intros [Hpool Hknown Hold Hcnt Hidle Hbatch Hflight Htags Hsorted].
  destruct c as [m wg pl w tr]. unfold Conc.step_worker, Conc.cur in *. simpl in *.
  destruct (pl !! k) as [g|] eqn:Hk; [|done].
  assert (g ∈ pl) as Hg by (apply list_elem_of_lookup; by exists k).
  destruct (Conc.exited g) eqn:Hlive.
  { unfold Conc.exited in Hlive. by destruct (Conc.g_pc g). }
  assert (Conc.g_wg g = pred (length wg)) as Hcur.
  { destruct (decide (Conc.g_wg g = pred (length wg))) as [|Hne]; [done|].
    rewrite (Hold g Hg Hne) in Hlive. done. }
  assert (wg ≠ []) as Hwg.
  { intros Hnil. rewrite (Hpool Hnil) in Hk. done. }
  pose proof (in_flight_pos pl k g Hk Hlive) as Hpos.
  assert (∀ pc' w' evs, pc' ≠ Conc.Exited →
    Inv {| Conc.main := m; Conc.wgs := wg;
           Conc.pool := <[k := {| Conc.g_wg := Conc.g_wg g; Conc.g_path := Conc.g_path g;
                                  Conc.g_pc := pc' |}]> pl;
           Conc.cworld := w'; Conc.ctrace := Conc.tagged (Conc.g_wg g) evs ++ tr |})
    as Hmoves.
  { intros pc' w' evs Hpc'.
    set (g' := {| Conc.g_wg := Conc.g_wg g; Conc.g_path := Conc.g_path g;
                  Conc.g_pc := pc' |}).
    assert (Conc.exited g' = Conc.exited g) as Hsame.
    { rewrite Hlive. unfold Conc.exited. simpl. by destruct pc'. }
    destruct (sorted_tagged (pred (length wg)) (Conc.tagged (Conc.g_wg g) evs) tr)
      as [Ht Hs]; [rewrite Hcur; apply tagged_tags|done..|].
    constructor; rewrite /Conc.cur /=; try done.
    - intros g0 [->|?]%elem_of_insert_inv; [exact (Hknown g Hg)|by apply Hknown].
    - intros g0 [->|?]%elem_of_insert_inv; [intros Hne; destruct Hne; exact Hcur|by apply Hold].
    - intros _. rewrite (in_flight_insert pl k g g' Hk Hsame). by apply Hcnt.
    - intros Hm. specialize (Hidle Hm). lia.
    - intros Hm. destruct (Hbatch Hm) as (_ & b & Hb & Hlen). split; [done|].
      exists b. split; [done|]. by rewrite (of_batch_insert _ pl k g g' Hk).
    - rewrite (in_flight_insert pl k g g' Hk Hsame).
      by rewrite (of_batch_insert _ pl k g g' Hk). }
  destruct (Conc.g_pc g) eqn:Hpc.
  - destruct (Conc.worker_step mount (Conc.g_path g) Conc.AtSourceRead w)
      as [[pc' w'] evs] eqn:Hstep.
    cbv beta iota. intros [= <-]. apply Hmoves.
    pose proof (worker_step_alive (Conc.g_path g) Conc.AtSourceRead w) as Ha.
    rewrite Hstep in Ha. by apply Ha.
  - destruct (Conc.worker_step mount (Conc.g_path g) (Conc.AtDestWrite srcResp) w)
      as [[pc' w'] evs] eqn:Hstep.
    cbv beta iota. intros [= <-]. apply Hmoves.
    pose proof (worker_step_alive (Conc.g_path g) (Conc.AtDestWrite srcResp) w) as Ha.
    rewrite Hstep in Ha. by apply Ha.
  - destruct (Conc.worker_step mount (Conc.g_path g) (Conc.AtDestRead srcResp) w)
      as [[pc' w'] evs] eqn:Hstep.
    cbv beta iota. intros [= <-]. apply Hmoves.
    pose proof (worker_step_alive (Conc.g_path g) (Conc.AtDestRead srcResp) w) as Ha.
    rewrite Hstep in Ha. by apply Ha.
  - (* the deferred wg.Done() *)
    rewrite Hcur (Hcnt Hwg).
    assert (0 ≤ Conc.pending m) as Hpend by (by destruct m).
    rewrite bool_decide_eq_true_2; [lia|]. intros [= <-].
    set (g' := {| Conc.g_wg := pred (length wg); Conc.g_path := Conc.g_path g;
                  Conc.g_pc := Conc.Exited |}).
    pose proof (in_flight_exit pl k g g' Hk Hlive eq_refl) as Hexit.
    constructor; rewrite /Conc.cur /= ?length_insert; try done.
    + intros Hnil. apply (f_equal length) in Hnil. rewrite length_insert in Hnil.
      by destruct wg.
    + intros g0 [->|?]%elem_of_insert_inv; [simpl; destruct wg; [done|simpl; lia]|
                                             by apply Hknown].
    + intros g0 [->|?]%elem_of_insert_inv; [done|by apply Hold].
    + intros _. rewrite list_lookup_insert_eq; [destruct wg; [done|simpl; lia]|].
      f_equal. lia.
    + intros Hm. specialize (Hidle Hm). lia.
    + intros Hm. destruct (Hbatch Hm) as (_ & b & Hb & Hlen). split.
      { intros Hnil. apply (f_equal length) in Hnil. rewrite length_insert in Hnil.
        by destruct wg. }
      exists b. split; [done|]. by rewrite (of_batch_insert _ pl k g g' Hk).
    + rewrite (of_batch_insert _ pl k g g' Hk); [done|]. lia.
  - unfold Conc.exited in Hlive. by rewrite Hpc in Hlive.
Qed.

Lemma Inv_step t c c' : Inv c → step t c = Some c' → Inv c'.
Proof.
  intros Hinv. unfold Conc.step.
  destruct (Conc.main c) as [| | | |[]]; destruct t;
    try done; eauto using Inv_step_main, Inv_step_worker.
Qed.

Lemma Inv_run sched c : Inv c → Inv (run sched c).
Proof.
  revert c. induction sched as [|t sched IH]; intros c Hinv; [done|].
  simpl. apply IH. destruct (step t c) as [c'|] eqn:Hstep; [|done].
  exact (Inv_step t c c' Hinv Hstep).
Qed.

Lemma wrap_le z : GoInt.min_int ≤ z → GoInt.wrap z ≤ z.
Proof.
  unfold GoInt.min_int, GoInt.wrap. intros Hz.
  pose proof (Z.mod_le (z + 2 ^ 63) (2 ^ 64)). lia.
Qed.

(** A batch is never longer than the batch size. *)
Lemma loop_head_batch_len i batch :
  GoInt.min_int ≤ batchSize →
  loop_head srcList batchSize i = LoopBatch batch → GoInt.len batch ≤ batchSize.
Proof.
  intros Hbs. unfold loop_head, GoInt.slice, GoInt.add.
  case_bool_decide; [|done].
  pose proof (wrap_le (i + batchSize)) as Hw.
  case_bool_decide as Hclamp; case_bool_decide as Hok; intros [= <-];
    rewrite /GoInt.len length_take length_drop; unfold GoInt.len, GoInt.min_int in *; lia.
Qed.

End ConcFacts.

(** ** The machine and the functions agree *)

Section ConcAgrees.
Context {W : Type} `{!Backend W}.
Variables (mount path : string) (srcList : list string) (batchSize : Z).

(** A worker of the machine, run on its own, is [doSync]. *)
Lemma doSync_worker_run secret (st : State W) :
  doSync mount secret st
  = {| world := (Conc.worker_run mount 3 secret Conc.AtSourceRead (world st)).1;
       trace := trace st
                ++ (Conc.worker_run mount 3 secret Conc.AtSourceRead (world st)).2 |}.
Proof.
  unfold doSync, call, note, log, EvOutcome. simpl.
  repeat (case_match; simplify_eq/=); by rewrite -?app_assoc.
Qed.

Lemma worker_step_events secret pc (w : W) :
  Forall worker_event (Conc.worker_step mount secret pc w).2.
Proof.
  destruct pc; simpl; repeat case_match; simplify_eq/=; repeat constructor.
Qed.

Lemma worker_step_frame {C} (obs : W → C) secret pc (w : W) :
  (∀ c w, spares_source c → obs (vault_call c w).2 = obs w) →
  obs (Conc.worker_step mount secret pc w).1.2 = obs w.
Proof.
  intros Hobs. destruct pc; simpl; try done;
    repeat (case_match; simplify_eq/=);
    match goal with
    | H : vault_call ?c ?w = (_, ?w') |- _ => rewrite -(Hobs c w I); by rewrite H
    end.
Qed.

Local Arguments Conc.worker_step : simpl never.

(** In every interleaving, too, no call writes through the source client,
    and what such calls leave alone stays as it was. *)
Lemma step_spares_source {C} (obs : W → C) t (c c' : Conc.CState W) :
  (∀ c w, spares_source c → obs (vault_call c w).2 = obs w) →
  Conc.step mount path srcList batchSize t c = Some c' →
  (Forall (λ te, run_event te.2) (Conc.ctrace c) →
   Forall (λ te, run_event te.2) (Conc.ctrace c'))
  ∧ obs (Conc.cworld c') = obs (Conc.cworld c).
Proof.
  intros Hobs. unfold Conc.step, Conc.step_main, Conc.step_worker.
  destruct c as [m wg pl w tr]. simpl.
  destruct m as [i|i [|item rest]|i item rest|i|[]]; destruct t as [|k]; simpl;
    repeat (case_match; simplify_eq/=); try done;
    try (intros [= <-]; simpl; split; [|done]; intros Htr; by repeat constructor).
  all: intros [= <-]; simpl;
    match goal with
    | H : Conc.worker_step _ ?s ?pc ?w = (_, ?w', ?evs) |- _ =>
        pose proof (worker_step_events s pc w) as Hev;
        pose proof (worker_step_frame obs s pc w Hobs) as Hfr;
        rewrite H /= in Hev, Hfr
    end;
    (split; [|done]); intros Htr; apply Forall_app; (split; [|done]);
    apply Forall_reverse, Forall_fmap; (eapply Forall_impl; [exact Hev|]);
    by intros [].
Qed.

Lemma run_spares_source {C} (obs : W → C) sched (w : W) :
  (∀ c w, spares_source c → obs (vault_call c w).2 = obs w) →
  Forall (λ te, run_event te.2)
    (Conc.ctrace (Conc.run mount path srcList batchSize sched (Conc.init w)))
  ∧ obs (Conc.cworld (Conc.run mount path srcList batchSize sched (Conc.init w))) = obs w.
Proof.
  intros Hobs.
  cut (∀ c : Conc.CState W,
         Forall (λ te, run_event te.2) (Conc.ctrace c) →
         Forall (λ te, run_event te.2)
           (Conc.ctrace (Conc.run mount path srcList batchSize sched c))
         ∧ obs (Conc.cworld (Conc.run mount path srcList batchSize sched c))
           = obs (Conc.cworld c)).
  { intros Hc. by apply (Hc (Conc.init w)). }
  induction sched as [|t sched IH]; intros c Htr; [done|]. simpl.
  destruct (Conc.step mount path srcList batchSize t c) as [c'|] eqn:Hstep; simpl.
  - destruct (step_spares_source obs t c c' Hobs Hstep) as [Htr' Hw].
    destruct (IH c' (Htr' Htr)) as [? ->]. done.
  - by apply IH.
Qed.

(** No deadlock: as long as the goroutine of [Sync] has not ended, some
    thread can move; blocked in [wg.Wait()], it has a worker to wait for. *)
Lemma in_flight_find pool :
  (0 < Conc.in_flight pool)%nat → ∃ k g, pool !! k = Some g ∧ Conc.exited g = false.
Proof.
  unfold Conc.in_flight. induction pool as [|g pool IH]; simpl; [lia|].
  destruct (Conc.exited g) eqn:He; simpl.
  - intros (k & g' & Hk & Hg')%IH. by exists (S k), g'.
  - intros _. by exists 0%nat, g.
Qed.

Lemma machine_progress (c : Conc.CState W) :
  Conc.Inv srcList batchSize c →
  (∀ r, Conc.main c ≠ Conc.AtEnd r) →
  ∃ t c', Conc.step mount path srcList batchSize t c = Some c'.
Proof.
  intros [Hpool Hknown Hold Hcnt Hidle Hbatch Hflight Htags Hsorted] Hrun.
  destruct c as [m wg pl w tr].
  unfold Conc.step, Conc.step_main, Conc.step_worker, Conc.cur in *. simpl in *.
  destruct m as [i|i [|item rest]|i item rest|i|r];
    try (exists Conc.TMain; repeat case_match; by eexists); [|by destruct (Hrun r)].
  destruct (Hbatch I) as (Hne & _). specialize (Hcnt Hne). simpl in Hcnt.
  destruct (decide (Conc.in_flight pl = 0%nat)) as [Hz|Hnz].
  { exists Conc.TMain. rewrite bool_decide_eq_true_2; [|by eexists].
    rewrite Hcnt Hz. done. }
  destruct (in_flight_find pl) as (k & g & Hk & Hlive); [lia|].
  assert (g ∈ pl) as Hg by (apply list_elem_of_lookup; by exists k).
  assert (Conc.g_wg g = pred (length wg)) as Hcur.
  { destruct (decide (Conc.g_wg g = pred (length wg))) as [|Hn]; [done|].
    rewrite (Hold g Hg Hn) in Hlive. done. }
  exists (Conc.TWorker k). rewrite Hk. unfold Conc.exited in Hlive.
  destruct (Conc.g_pc g); try done; try (repeat case_match; by eexists).
  rewrite Hcur Hcnt. case_bool_decide; by eexists.
Qed.

End ConcAgrees.

(** ** A positive batch size: every run ends, with the same batches *)

Section ConcSteady.
Context {W : Type} `{!Backend W}.
Variables (mount path : string) (srcList : list string) (batchSize : Z).
Hypothesis Hbs : 0 < batchSize ≤ GoInt.max_int.
Hypothesis Hlen : GoInt.len srcList < 2 ^ 62.

Local Abbreviation step := (Conc.step (W:=W) mount path srcList batchSize).
Local Abbreviation run := (Conc.run (W:=W) mount path srcList batchSize).
Local Abbreviation Inv := (Conc.Inv (W:=W) srcList batchSize).
Local Abbreviation Steady := (Conc.Steady (W:=W) srcList batchSize).
Local Abbreviation plan_at := (Conc.plan_at srcList batchSize).
Local Abbreviation keys_left := (Conc.keys_left srcList).
Local Abbreviation steps_left := (Conc.steps_left (W:=W) srcList batchSize).

Lemma loop_head_turn i :
  0 ≤ i → i = 0 ∨ batchSize ≤ i → i < GoInt.len srcList →
  ∃ batch, loop_head srcList batchSize i = LoopBatch batch
           ∧ GoInt.add i batchSize = i + batchSize
           ∧ (0 < length batch)%nat
           ∧ (keys_left (i + batchSize) + length batch = keys_left i)%nat.
Proof.
  intros Hi Hmul Hlt.
  destruct (loop_head_positive srcList batchSize i) as [Hadd Hhead]; [done..|lia|done|].
  eexists. split; [exact Hhead|]. split; [done|].
  rewrite length_take length_drop. unfold Conc.keys_left, GoInt.len in *. lia.
Qed.

Lemma plan_from_enough fuel fuel' i :
  0 ≤ i → i = 0 ∨ batchSize ≤ i →
  (keys_left i < fuel)%nat → (keys_left i < fuel')%nat →
  plan_from fuel srcList batchSize i = plan_from fuel' srcList batchSize i.
Proof.
  revert fuel' i. induction fuel as [|fuel IH]; intros [|fuel'] i Hi Hmul Hf Hf'; try lia.
  simpl. destruct (decide (i < GoInt.len srcList)) as [Hlt|Hge].
  - destruct (loop_head_turn i Hi Hmul Hlt) as (batch & -> & -> & Hpos & Hkeys).
    f_equal. apply IH; lia.
  - rewrite loop_head_exit; [lia|done].
Qed.

Lemma plan_at_batch i batch :
  0 ≤ i → i = 0 ∨ batchSize ≤ i → i < GoInt.len srcList →
  loop_head srcList batchSize i = LoopBatch batch →
  plan_at i = batch :: plan_at (i + batchSize).
Proof.
  intros Hi Hmul Hlt Hhead.
  destruct (loop_head_turn i Hi Hmul Hlt) as (batch' & Hhead' & Hadd & Hpos & Hkeys).
  rewrite Hhead in Hhead'. injection Hhead' as <-.
  unfold Conc.plan_at at 1. cbn [plan_from]. rewrite Hhead Hadd. f_equal.
  apply plan_from_enough; lia.
Qed.

Lemma plan_at_exit i : GoInt.len srcList ≤ i → plan_at i = [].
Proof. intros Hge. unfold Conc.plan_at. simpl. by rewrite loop_head_exit. Qed.

Lemma Steady_init (w : W) : Steady (Conc.init w).
Proof. constructor; simpl; [lia|done]. Qed.

Lemma announced_tagged (c : Conc.CState W) n evs :
  Forall worker_event evs →
  batches_of (reverse ((Conc.tagged n evs ++ Conc.ctrace c).*2)) = Conc.announced c.
Proof.
  intros Hev. unfold Conc.announced, Conc.tagged.
  rewrite fmap_app reverse_app batches_of_app fmap_reverse reverse_involutive.
  rewrite -list_fmap_compose /=.
  replace ((snd ∘ (λ e : Event, (n, e))) <$> evs) with evs.
  2:{ clear. induction evs as [|e evs IH]; [done|]. rewrite fmap_cons -IH. done. }
  destruct (worker_events_quiet evs Hev) as [-> _]. by rewrite app_nil_r.
Qed.

Lemma work_left_app pool1 pool2 :
  Conc.work_left (pool1 ++ pool2) = (Conc.work_left pool1 + Conc.work_left pool2)%nat.
Proof. by rewrite /Conc.work_left sum_list_with_app. Qed.

Lemma work_left_insert pool k g g' :
  pool !! k = Some g →
  (Conc.work_left (<[k := g']> pool) + Conc.rem (Conc.g_pc g)
   = Conc.work_left pool + Conc.rem (Conc.g_pc g'))%nat.
Proof.
  intros Hk. destruct (insert_middle pool k g g' Hk) as (l1 & l2 & -> & ->).
  rewrite !work_left_app /Conc.work_left /=. lia.
Qed.

Lemma worker_step_rem secret pc (w : W) :
  pc ≠ Conc.AtDone → pc ≠ Conc.Exited →
  (Conc.rem (Conc.worker_step mount secret pc w).1.1 < Conc.rem pc)%nat.
Proof.
  intros H1 H2. destruct pc; simpl; try done; repeat case_match; simplify_eq/=; lia.
Qed.

(** The counter a live worker will count down is positive. *)
Lemma done_counter_positive (c : Conc.CState W) k g :
  Inv c → Conc.pool c !! k = Some g → Conc.exited g = false →
  ∃ n, Conc.wgs c !! Conc.g_wg g = Some n ∧ 0 < n.
Proof.
  intros [Hpool Hknown Hold Hcnt Hidle Hbatch Hflight Htags Hsorted] Hk Hlive.
  assert (g ∈ Conc.pool c) as Hg by (apply list_elem_of_lookup; by exists k).
  assert (Conc.g_wg g = Conc.cur c) as ->.
  { destruct (decide (Conc.g_wg g = Conc.cur c)) as [|Hne]; [done|].
    rewrite (Hold g Hg Hne) in Hlive. done. }
  assert (Conc.wgs c ≠ []) as Hwg.
  { intros Hnil. rewrite (Hpool Hnil) in Hk. done. }
  pose proof (in_flight_pos _ k g Hk Hlive) as Hpos.
  eexists. split; [by apply Hcnt|].
  assert (0 ≤ Conc.pending (Conc.main c)) by (by destruct (Conc.main c)). lia.
Qed.

Local Arguments Conc.worker_step : simpl never.

Lemma Steady_step_main c c' :
  Steady c → Conc.step_main path srcList batchSize c = Some c' →
  Steady c' ∧ (steps_left c' < steps_left c)%nat.
Proof.
  intros [Hidx Hplan]. destruct c as [m wg pl w tr].
  unfold Conc.step_main, Conc.steps_left, Conc.announced in *. simpl in *.
  destruct m as [i|i [|item rest]|i item rest|i|r]; simpl in *.
  - destruct Hidx as [Hi Hmul]. destruct (decide (i < GoInt.len srcList)) as [Hlt|Hge].
    + destruct (loop_head_turn i Hi Hmul Hlt) as (batch & Hhead & Hadd & Hpos & Hkeys).
      rewrite Hhead. intros [= <-]. simpl. split; [|lia].
      constructor; simpl; [done|]. unfold Conc.announced. simpl.
      rewrite reverse_cons batches_of_app /= -app_assoc /=.
      by rewrite -(plan_at_batch i batch Hi Hmul Hlt Hhead).
    + rewrite loop_head_exit; [lia|]. intros [= <-]. simpl. split; [|lia].
      constructor; simpl; [done|]. unfold Conc.announced. simpl.
      rewrite plan_at_exit in Hplan; [lia|]. done.
  - intros [= <-]. simpl. split; [|lia]. by constructor.
  - intros [= <-]. simpl. split; [|lia]. by constructor.
  - intros [= <-]. simpl. split.
    + constructor; simpl; [done|]. unfold Conc.announced. simpl.
      rewrite reverse_cons batches_of_app /= app_nil_r. done.
    + rewrite work_left_app /Conc.work_left /=. lia.
  - case_bool_decide; [|done]. intros [= <-]. simpl.
    destruct Hidx as [[Hi Hmul] Hlt].
    destruct (loop_head_turn i Hi Hmul Hlt) as (batch & Hhead & Hadd & Hpos & Hkeys).
    rewrite Hadd. split; [|lia]. constructor; simpl; [lia|done].
  - done.
Qed.

Lemma Steady_step_worker k c c' :
  Inv c → Steady c → Conc.step_worker mount k c = Some c' →
  Steady c' ∧ (steps_left c' < steps_left c)%nat.
Proof.
  intros Hinv [Hidx Hplan]. unfold Conc.step_worker.
  destruct (Conc.pool c !! k) as [g|] eqn:Hk; [|done].
  destruct (Conc.exited g) eqn:Hlive.
  { unfold Conc.exited in Hlive. by destruct (Conc.g_pc g). }
  destruct (done_counter_positive c k g Hinv Hk Hlive) as (n & Hn & Hpos).
  assert (∀ pc' w' evs, Forall worker_event evs →
            (Conc.rem pc' < Conc.rem (Conc.g_pc g))%nat →
    let c' := {| Conc.main := Conc.main c; Conc.wgs := Conc.wgs c;
                 Conc.pool := <[k := {| Conc.g_wg := Conc.g_wg g;
                                        Conc.g_path := Conc.g_path g;
                                        Conc.g_pc := pc' |}]> (Conc.pool c);
                 Conc.cworld := w';
                 Conc.ctrace := Conc.tagged (Conc.g_wg g) evs ++ Conc.ctrace c |} in
    Steady c' ∧ (steps_left c' < steps_left c)%nat) as Hmoves.
  { intros pc' w' evs Hev Hrem. simpl. split.
    - constructor; simpl; [done|]. unfold Conc.announced. simpl.
      by rewrite announced_tagged.
    - unfold Conc.steps_left. simpl.
      pose proof (work_left_insert (Conc.pool c) k g
                    {| Conc.g_wg := Conc.g_wg g; Conc.g_path := Conc.g_path g;
                       Conc.g_pc := pc' |} Hk) as Hw.
      simpl in Hw. lia. }
  destruct (Conc.g_pc g) eqn:Hpc.
  - pose proof (worker_step_rem (Conc.g_path g) Conc.AtSourceRead (Conc.cworld c)) as Hr.
    pose proof (worker_step_events mount (Conc.g_path g) Conc.AtSourceRead (Conc.cworld c))
      as He.
    destruct (Conc.worker_step mount (Conc.g_path g) Conc.AtSourceRead (Conc.cworld c))
      as [[pc' w'] evs].
    intros [= <-]. apply Hmoves; [done|]. by apply Hr.
  - pose proof (worker_step_rem (Conc.g_path g) (Conc.AtDestWrite srcResp) (Conc.cworld c))
      as Hr.
    pose proof (worker_step_events mount (Conc.g_path g) (Conc.AtDestWrite srcResp)
                  (Conc.cworld c)) as He.
    destruct (Conc.worker_step mount (Conc.g_path g) (Conc.AtDestWrite srcResp)
                (Conc.cworld c)) as [[pc' w'] evs].
    intros [= <-]. apply Hmoves; [done|]. by apply Hr.
  - pose proof (worker_step_rem (Conc.g_path g) (Conc.AtDestRead srcResp) (Conc.cworld c))
      as Hr.
    pose proof (worker_step_events mount (Conc.g_path g) (Conc.AtDestRead srcResp)
                  (Conc.cworld c)) as He.
    destruct (Conc.worker_step mount (Conc.g_path g) (Conc.AtDestRead srcResp)
                (Conc.cworld c)) as [[pc' w'] evs].
    intros [= <-]. apply Hmoves; [done|]. by apply Hr.
  - rewrite Hn. rewrite bool_decide_eq_true_2; [done|]. intros [= <-]. split.
    + by constructor.
    + unfold Conc.steps_left. simpl.
      pose proof (work_left_insert (Conc.pool c) k g
                    {| Conc.g_wg := Conc.g_wg g; Conc.g_path := Conc.g_path g;
                       Conc.g_pc := Conc.Exited |} Hk) as Hw.
      rewrite Hpc in Hw. simpl in Hw. lia.
  - unfold Conc.exited in Hlive. by rewrite Hpc in Hlive.
Qed.

Lemma Steady_step t c c' :
  Inv c → Steady c → step t c = Some c' →
  Steady c' ∧ (steps_left c' < steps_left c)%nat.
Proof.
  intros Hinv Hst. unfold Conc.step.
  destruct (Conc.main c) as [| | | |[]] eqn:Hm; destruct t;
    try done; eauto using Steady_step_main, Steady_step_worker.
Qed.

(** Every state a schedule reaches is steady, and the moves made are
    paid for out of the steps that were left. *)
Lemma Steady_run sched c :
  Inv c → Steady c →
  Steady (run sched c)
  ∧ (Conc.moves mount path srcList batchSize sched c + steps_left (run sched c)
     ≤ steps_left c)%nat.
Proof.
  revert c. induction sched as [|t sched IH]; intros c Hinv Hst; [split; [done|simpl; lia]|].
  simpl. destruct (step t c) as [c'|] eqn:Hstep; simpl.
  - destruct (Steady_step t c c' Hinv Hst Hstep) as [Hst' Hlt].
    destruct (IH c' (Inv_step _ _ _ _ t c c' Hinv Hstep) Hst') as [? ?]. split; [done|lia].
  - by apply IH.
Qed.

(** From every steady state the run can be brought to its end. *)
Lemma Steady_completes n c :
  (steps_left c ≤ n)%nat → Inv c → Steady c →
  ∃ more, Conc.main (run more c) = Conc.AtEnd (Returns ()).
Proof.
  revert c. induction n as [|n IH]; intros c Hn Hinv Hst.
  all: destruct (Conc.main c) as [i|i rest|i item rest|i|r] eqn:Hm.
  all: try (exists []; simpl; rewrite Hm; f_equal;
            destruct Hst as [Hidx _]; by rewrite Hm in Hidx).
  all: try (unfold Conc.steps_left in Hn; rewrite Hm /= in Hn; lia).
  all: destruct (machine_progress mount path srcList batchSize c Hinv)
         as (t & c' & Hstep); [intros r; by rewrite Hm|];
       destruct (Steady_step t c c' Hinv Hst Hstep) as [Hst' Hlt];
       destruct (IH c') as [more Hmore];
         [lia|exact (Inv_step _ _ _ _ t c c' Hinv Hstep)|done|];
       exists (t :: more); simpl; by rewrite Hstep.
Qed.

End ConcSteady.

(** ** Every schedule, from the start *)

Section ConcRuns.
Context {W : Type} `{!Backend W}.
Variables (mount path : string) (srcList : list string) (batchSize : Z).
Hypothesis Hbs : 0 < batchSize ≤ GoInt.max_int.
Hypothesis Hlen : GoInt.len srcList < 2 ^ 62.

(** The batches announced are the first batches of the plan, and all of
    it once the loop has ended. *)
Lemma run_announced (w : W) sched :
  ∃ rest,
    Conc.announced (Conc.run mount path srcList batchSize sched (Conc.init w)) ++ rest
    = plan_from (S (length srcList)) srcList batchSize 0
    ∧ (Conc.main (Conc.run mount path srcList batchSize sched (Conc.init w))
       = Conc.AtEnd (Returns ()) → rest = []).
Proof.
  destruct (Steady_run mount path srcList batchSize Hbs Hlen sched (Conc.init w))
    as [[Hidx Hplan] _]; [apply Inv_init|by apply Steady_init|].
  exists (Conc.rest_plan srcList batchSize
            (Conc.main (Conc.run mount path srcList batchSize sched (Conc.init w)))).
  split.
  - rewrite Hplan /Conc.plan_at /Conc.keys_left /GoInt.len Z.sub_0_r Nat2Z.id. done.
  - by intros ->.
Qed.

(** The loop never panics; whatever the schedule did, the run can be
    brought to its end, where [Sync] returns; and no schedule moves the
    threads more than nine times per key and once more. *)
Lemma run_ends (w : W) sched :
  (∀ r, Conc.main (Conc.run mount path srcList batchSize sched (Conc.init w))
        = Conc.AtEnd r → r = Returns ())
  ∧ (∃ more, Conc.main (Conc.run mount path srcList batchSize (sched ++ more)
                          (Conc.init w)) = Conc.AtEnd (Returns ()))
  ∧ (Conc.moves mount path srcList batchSize sched (Conc.init w)
     ≤ 1 + 9 * length srcList)%nat.
Proof.
  pose proof (Inv_run mount path srcList batchSize sched (Conc.init w) (Inv_init _ _ w))
    as Hinv.
  destruct (Steady_run mount path srcList batchSize Hbs Hlen sched (Conc.init w))
    as [Hst Hmoves]; [apply Inv_init|by apply Steady_init|].
  split; [|split].
  - intros r Hm. destruct Hst as [Hidx _]. by rewrite Hm in Hidx.
  - destruct (Steady_completes mount path srcList batchSize Hbs Hlen _ _ (le_n _) Hinv Hst)
      as [more Hmore].
    exists more. by rewrite /Conc.run foldl_app.
  - assert (Conc.steps_left srcList batchSize (Conc.init w) = (1 + 9 * length srcList)%nat)
      as Hstart.
    { rewrite /Conc.steps_left /= /Conc.keys_left /GoInt.len Z.sub_0_r Nat2Z.id /=. lia. }
    lia.
Qed.

End ConcRuns.

(* ================================================================= *)
(** * The specification, statement by statement *)

(** C1. A listing whose [keys] entry is present and empty is not turned
    into [EmptyListing]: the type assertion succeeds, enumeration returns
    no key and no error, and [Sync] returns [nil] without starting a
    worker. *)
Theorem Sync_empty_keys_list {W : Type} `{!Backend W}
    (s : Syncer) (sv : Vault) (l : Response) (w' : W) (st : State W) (fuel : nat) :
  SourceVault (cfg s) = Some sv →
  vault_call (VaultList OnSource (Mount sv +:+ "/metadata/" +:+ Path sv) (Mount sv))
    (world st) = (Ok l, w') →
  lookup_field "keys" (Data l) = Some (VArray []) →
  (listSourcePath (Mount sv) (Path sv) (log InfoLevel "Starting sync" "" st)).1
    = Returns (Ok [])
  ∧ (Sync (S fuel) s st).1 = Returns None
  ∧ started_of (trace (Sync (S fuel) s st).2) = started_of (trace st)
  ∧ batches_of (trace (Sync (S fuel) s st).2) = batches_of (trace st).
Proof.
  intros Hsv Hcall Hkeys.
  assert (listSourcePath (Mount sv) (Path sv) (log InfoLevel "Starting sync" "" st)
          = (Returns (Ok []),
             {| world := w';
                trace := (trace st ++ [EvLog InfoLevel "Starting sync" ""])
                  ++ [EvLog DebugLevel "Listing source vault" (Path sv)]
                  ++ [EvCall (VaultList OnSource
                        (Mount sv +:+ "/metadata/" +:+ Path sv) (Mount sv))] |})) as Hl.
  { rewrite /listSourcePath /call /log /= Hcall Hkeys /=. by rewrite -!app_assoc. }
  split; [by rewrite Hl|].
  rewrite (Sync_enumerated _ _ _ _ _ _ Hsv Hl) /=.
  rewrite !started_of_app !batches_of_app /=. by rewrite !app_nil_r.
Qed.

Lemma Sync_empty_keys_list_witness :
  SourceVault (cfg (team_syncer 2)) = Some team_vault
  ∧ vault_call (VaultList OnSource (Mount team_vault +:+ "/metadata/" +:+ Path team_vault)
                  (Mount team_vault))
      (world (start (team_world [("keys", VArray [])] no_fault)))
    = (Ok {| Data := [("keys", VArray [])] |}, team_world [("keys", VArray [])] no_fault)
  ∧ lookup_field "keys" (Data {| Data := [("keys", VArray [])] |}) = Some (VArray [])
  ∧ (Sync 1 (team_syncer 2) (start (team_world [("keys", VArray [])] no_fault))).1
    = Returns None.
Proof.
  assert (SourceVault (cfg (team_syncer 2)) = Some team_vault) as H1 by reflexivity.
  assert (vault_call (VaultList OnSource (Mount team_vault +:+ "/metadata/" +:+ Path team_vault)
                  (Mount team_vault))
      (world (start (team_world [("keys", VArray [])] no_fault)))
    = (Ok {| Data := [("keys", VArray [])] |}, team_world [("keys", VArray [])] no_fault))
    as H2 by reflexivity.
  assert (lookup_field "keys" (Data {| Data := [("keys", VArray [])] |}) = Some (VArray []))
    as H3 by reflexivity.
  repeat (split; [assumption|]).
  exact (proj1 (proj2 (Sync_empty_keys_list (team_syncer 2) team_vault _ _
                         (start (team_world [("keys", VArray [])] no_fault)) 0 H1 H2 H3))).
Defined.

(** A listing without a [keys] entry (or with one that is not a list) is
    the case the code does reject. *)
Lemma Sync_missing_keys {W : Type} `{!Backend W}
    (s : Syncer) (sv : Vault) (l : Response) (w' : W) (st : State W) (fuel : nat) :
  SourceVault (cfg s) = Some sv →
  vault_call (VaultList OnSource (Mount sv +:+ "/metadata/" +:+ Path sv) (Mount sv))
    (world st) = (Ok l, w') →
  (∀ v, lookup_field "keys" (Data l) ≠ Some (VArray v)) →
  (Sync fuel s st).1 = Returns (Some (ListFailed EmptyListing))
  ∧ started_of (trace (Sync fuel s st).2) = started_of (trace st)
  ∧ batches_of (trace (Sync fuel s st).2) = batches_of (trace st).
Proof.
  intros Hsv Hcall Hkeys.
  rewrite /Sync Hsv /listSourcePath /call /log /= Hcall.
  destruct (lookup_field "keys" (Data l)) as [[]|] eqn:Hk; simpl;
    try (rewrite /started_of /batches_of !omap_app /=; by rewrite !app_nil_r).
  by destruct (Hkeys vs).
Qed.

(** C2. For a non-empty key list and a positive batch size [Sync] returns,
    and the batches it dispatched are, in order, full batches of exactly
    [BatchSize] keys followed by a last batch of between 1 and [BatchSize]
    keys, whose concatenation is the enumerated list.  The same batches
    are dispatched however the workers are scheduled: in every run of the
    interleaved machine the batches announced are the first of them, and
    all of them once the loop has ended.  (The list is assumed to fit the
    address space, so that [i + BatchSize] stays an [int].) *)
Theorem Sync_batches_partition {W : Type} `{!Backend W}
    (s : Syncer) (sv : Vault) (srcList : list string) (st : State W) :
  SourceVault (cfg s) = Some sv →
  (listSourcePath (Mount sv) (Path sv) (log InfoLevel "Starting sync" "" st)).1
    = Returns (Ok srcList) →
  srcList ≠ [] →
  0 < BatchSize (cfg s) ≤ GoInt.max_int →
  GoInt.len srcList < 2 ^ 62 →
  ∃ fuel st' init lastb,
    Sync fuel s st = (Returns None, st')
    ∧ batches_of (trace st') = batches_of (trace st) ++ init ++ [lastb]
    ∧ concat (init ++ [lastb]) = srcList
    ∧ Forall (λ b, GoInt.len b = BatchSize (cfg s)) init
    ∧ 1 ≤ GoInt.len lastb ≤ BatchSize (cfg s)
    ∧ ∀ (w : W) (sched : list Conc.Tid),
        ∃ rest,
          Conc.announced
            (Conc.run (Mount sv) (Path sv) srcList (BatchSize (cfg s)) sched (Conc.init w))
          ++ rest = init ++ [lastb]
          ∧ (Conc.main
               (Conc.run (Mount sv) (Path sv) srcList (BatchSize (cfg s)) sched
                  (Conc.init w))
             = Conc.AtEnd (Returns ()) → rest = []).
Proof.
  intros Hsv Henum Hne Hbs Hlen.
  destruct (listSourcePath _ _ _) as [r st1] eqn:Hl. simpl in Henum. subst r.
  assert (0 < GoInt.len srcList) as Hpos.
  { unfold GoInt.len. destruct srcList; [done|simpl; lia]. }
  destruct (Sync_loop_positive (Mount sv) (Path sv) srcList (BatchSize (cfg s)) Hbs Hlen
              (S (length srcList)) 0 st1)
    as (st' & bl & Hloop & Hb & Hcat & _ & Hshape); [lia|by left|unfold GoInt.len; lia|].
  pose proof (Sync_loop_plan (S (length srcList)) (Mount sv) (Path sv) srcList
                (BatchSize (cfg s)) 0 st1) as Hplan.
  rewrite Hloop /= Hb in Hplan. apply app_inv_head in Hplan.
  destruct (Hshape Hpos) as (init & lastb & -> & Hinit & Hlast).
  exists (S (length srcList)), (log InfoLevel "Sync complete" "" st'), init, lastb.
  split; [by rewrite (Sync_enumerated _ _ _ _ _ _ Hsv Hl) Hloop|].
  split; [|split; [done|split; [done|split; [done|]]]].
  - rewrite log_batches Hb.
    pose proof (listSourcePath_batches (Mount sv) (Path sv)
                  (log InfoLevel "Starting sync" "" st)) as Hq.
    rewrite Hl /= in Hq. by rewrite Hq log_batches.
  - intros w sched. rewrite Hplan.
    apply (run_announced (Mount sv) (Path sv) srcList (BatchSize (cfg s)) Hbs Hlen).
Qed.

Lemma Sync_batches_partition_witness :
  SourceVault (cfg (team_syncer 2)) = Some team_vault
  ∧ (listSourcePath (Mount team_vault) (Path team_vault)
       (log InfoLevel "Starting sync" "" (start (team_world team_keys no_fault)))).1
      = Returns (Ok ["a"; "b"; "c"])
  ∧ ["a"; "b"; "c"] ≠ []
  ∧ 0 < BatchSize (cfg (team_syncer 2)) ≤ GoInt.max_int
  ∧ GoInt.len ["a"; "b"; "c"] < 2 ^ 62
  ∧ ∃ fuel st' init lastb,
      Sync fuel (team_syncer 2) (start (team_world team_keys no_fault)) = (Returns None, st')
      ∧ batches_of (trace st')
        = batches_of (trace (start (team_world team_keys no_fault))) ++ init ++ [lastb]
      ∧ concat (init ++ [lastb]) = ["a"; "b"; "c"]
      ∧ Forall (λ b, GoInt.len b = BatchSize (cfg (team_syncer 2))) init
      ∧ 1 ≤ GoInt.len lastb ≤ BatchSize (cfg (team_syncer 2)).
Proof.
  assert (SourceVault (cfg (team_syncer 2)) = Some team_vault) as H1 by reflexivity.
  assert ((listSourcePath (Mount team_vault) (Path team_vault)
       (log InfoLevel "Starting sync" "" (start (team_world team_keys no_fault)))).1
      = Returns (Ok ["a"; "b"; "c"])) as H2 by (vm_compute; reflexivity).
  assert (["a"; "b"; "c"] ≠ ([] : list string)) as H3 by discriminate.
  assert (0 < BatchSize (cfg (team_syncer 2)) ≤ GoInt.max_int) as H4
    by (vm_compute; split; [reflexivity | discriminate]).
  assert (GoInt.len ["a"; "b"; "c"] < 2 ^ 62) as H5 by (vm_compute; reflexivity).
  repeat (split; [assumption|]).
  destruct (Sync_batches_partition (team_syncer 2) team_vault ["a"; "b"; "c"]
              (start (team_world team_keys no_fault)) H1 H2 H3 H4 H5)
    as (fuel & st' & init & lastb & Hs & Hb & Hc & Hi & Hl & _).
  by exists fuel, st', init, lastb.
Defined.

(** C3 as stated fails: with batch size [0] and the keys [a], [b], [c],
    no amount of fuel makes [Sync] return an error. *)
Lemma Sync_zero_batch_size_not_rejected :
  (listSourcePath (Mount team_vault) (Path team_vault)
     (log InfoLevel "Starting sync" "" (start (team_world team_keys no_fault)))).1
    = Returns (Ok ["a"; "b"; "c"])
  ∧ BatchSize (cfg (team_syncer 0)) = 0
  ∧ ¬ ∃ fuel err st',
        Sync fuel (team_syncer 0) (start (team_world team_keys no_fault))
        = (Returns (Some err), st').
Proof.
  assert ((listSourcePath (Mount team_vault) (Path team_vault)
     (log InfoLevel "Starting sync" "" (start (team_world team_keys no_fault)))).1
    = Returns (Ok ["a"; "b"; "c"])) as Henum by (vm_compute; reflexivity).
  split; [done|]. split; [done|].
  intros (fuel & err & st' & Hs).
  destruct (Sync_zero_unfinished fuel (team_syncer 0) team_vault ["a"; "b"; "c"]
              (start (team_world team_keys no_fault)) eq_refl Henum) as [Hu _];
    [discriminate|done|].
  rewrite Hs in Hu. discriminate.
Qed.

(** C3, amended. For a non-empty key list a batch size of zero or less is
    never rejected with an error: with batch size [0] the loop of [Sync]
    does not end, with a negative batch size its first slice expression
    panics; in both cases no sync worker is started. *)
Theorem Sync_nonpositive_batch_size {W : Type} `{!Backend W}
    (s : Syncer) (sv : Vault) (srcList : list string) (st : State W) (fuel : nat) :
  SourceVault (cfg s) = Some sv →
  (listSourcePath (Mount sv) (Path sv) (log InfoLevel "Starting sync" "" st)).1
    = Returns (Ok srcList) →
  srcList ≠ [] →
  GoInt.min_int ≤ BatchSize (cfg s) ≤ 0 →
  (Sync fuel s st).1
    = (if bool_decide (BatchSize (cfg s) = 0 ∨ fuel = O) then Unfinished else Panics)
  ∧ started_of (trace (Sync fuel s st).2) = started_of (trace st).
Proof.
  intros Hsv Henum Hne Hbs.
  destruct (decide (BatchSize (cfg s) = 0)) as [Hz|Hnz].
  - rewrite bool_decide_eq_true_2; [by left|].
    by apply (Sync_zero_unfinished fuel s sv srcList st).
  - destruct (listSourcePath _ _ _) as [r st1] eqn:Hl. simpl in Henum. subst r.
    pose proof (listSourcePath_started (Mount sv) (Path sv)
                  (log InfoLevel "Starting sync" "" st)) as Hq.
    rewrite Hl /= log_started in Hq.
    rewrite (Sync_enumerated _ _ _ _ _ _ Hsv Hl).
    destruct fuel as [|fuel].
    + rewrite bool_decide_eq_true_2; [by right|]. done.
    + rewrite bool_decide_eq_false_2; [intros [?|?]; done|].
      rewrite Sync_loop_negative; [done|lia|]. done.
Qed.

Lemma Sync_nonpositive_batch_size_witness :
  SourceVault (cfg (team_syncer (-2))) = Some team_vault
  ∧ (listSourcePath (Mount team_vault) (Path team_vault)
       (log InfoLevel "Starting sync" "" (start (team_world team_keys no_fault)))).1
      = Returns (Ok ["a"; "b"; "c"])
  ∧ ["a"; "b"; "c"] ≠ []
  ∧ GoInt.min_int ≤ BatchSize (cfg (team_syncer (-2))) ≤ 0
  ∧ (Sync 5 (team_syncer (-2)) (start (team_world team_keys no_fault))).1 = Panics
  ∧ started_of (trace (Sync 5 (team_syncer (-2))
                         (start (team_world team_keys no_fault))).2) = [].
Proof.
  assert (SourceVault (cfg (team_syncer (-2))) = Some team_vault) as H1 by reflexivity.
  assert ((listSourcePath (Mount team_vault) (Path team_vault)
       (log InfoLevel "Starting sync" "" (start (team_world team_keys no_fault)))).1
      = Returns (Ok ["a"; "b"; "c"])) as H2 by (vm_compute; reflexivity).
  assert (["a"; "b"; "c"] ≠ ([] : list string)) as H3 by discriminate.
  assert (GoInt.min_int ≤ BatchSize (cfg (team_syncer (-2))) ≤ 0) as H4
    by (vm_compute; split; discriminate).
  repeat (split; [assumption|]).
  exact (Sync_nonpositive_batch_size (team_syncer (-2)) team_vault ["a"; "b"; "c"]
           (start (team_world team_keys no_fault)) 5 H1 H2 H3 H4).
Defined.

(** C4 as stated fails: with batch size [0] enumeration succeeds with the
    keys [a], [b], [c], and yet [Sync] never returns success. *)
Lemma Sync_zero_batch_size_never_returns :
  (listSourcePath (Mount team_vault) (Path team_vault)
     (log InfoLevel "Starting sync" "" (start (team_world team_keys no_fault)))).1
    = Returns (Ok ["a"; "b"; "c"])
  ∧ ¬ ∃ fuel st',
        Sync fuel (team_syncer 0) (start (team_world team_keys no_fault))
        = (Returns None, st').
Proof.
  assert ((listSourcePath (Mount team_vault) (Path team_vault)
     (log InfoLevel "Starting sync" "" (start (team_world team_keys no_fault)))).1
    = Returns (Ok ["a"; "b"; "c"])) as Henum by (vm_compute; reflexivity).
  split; [done|].
  intros (fuel & st' & Hs).
  destruct (Sync_zero_unfinished fuel (team_syncer 0) team_vault ["a"; "b"; "c"]
              (start (team_world team_keys no_fault)) eq_refl Henum) as [Hu _];
    [discriminate|done|].
  rewrite Hs in Hu. discriminate.
Qed.

(** C4, amended. For every run with a positive batch size in which
    enumeration succeeds, [Sync] returns overall success (a [nil] error)
    whatever the backend answers to the workers' calls, so whatever the
    per-key outcomes are: they are log lines of the workers and no part of
    the value [Sync] returns.  This holds with the workers run in dispatch
    order, and for every schedule of the interleaved machine: the loop
    never panics, every run can be brought to its end, where [Sync]
    returns, and no run goes on for ever. *)
Theorem Sync_returns_nil {W : Type} `{!Backend W}
    (s : Syncer) (sv : Vault) (srcList : list string) (st : State W) :
  SourceVault (cfg s) = Some sv →
  (listSourcePath (Mount sv) (Path sv) (log InfoLevel "Starting sync" "" st)).1
    = Returns (Ok srcList) →
  0 < BatchSize (cfg s) ≤ GoInt.max_int →
  GoInt.len srcList < 2 ^ 62 →
  (∀ fuel, (length srcList < fuel)%nat → (Sync fuel s st).1 = Returns None)
  ∧ ∀ (w : W) (sched : list Conc.Tid),
      (∀ r, Conc.main
              (Conc.run (Mount sv) (Path sv) srcList (BatchSize (cfg s)) sched
                 (Conc.init w))
            = Conc.AtEnd r → r = Returns ())
      ∧ (∃ more,
           Conc.main
             (Conc.run (Mount sv) (Path sv) srcList (BatchSize (cfg s)) (sched ++ more)
                (Conc.init w))
           = Conc.AtEnd (Returns ()))
      ∧ (Conc.moves (Mount sv) (Path sv) srcList (BatchSize (cfg s)) sched (Conc.init w)
         ≤ 1 + 9 * length srcList)%nat.
Proof.
  intros Hsv Henum Hbs Hlen. split.
  - intros fuel Hfuel.
    destruct (listSourcePath _ _ _) as [r st1] eqn:Hl. simpl in Henum. subst r.
    destruct (Sync_loop_positive (Mount sv) (Path sv) srcList (BatchSize (cfg s)) Hbs Hlen
                fuel 0 st1) as (st' & bl & Hloop & _); [lia|by left|unfold GoInt.len; lia|].
    by rewrite (Sync_enumerated _ _ _ _ _ _ Hsv Hl) Hloop.
  - intros w sched.
    apply (run_ends (Mount sv) (Path sv) srcList (BatchSize (cfg s)) Hbs Hlen).
Qed.

Lemma Sync_returns_nil_witness :
  SourceVault (cfg (team_syncer 2)) = Some team_vault
  ∧ (listSourcePath (Mount team_vault) (Path team_vault)
       (log InfoLevel "Starting sync" "" (start (team_world team_keys write_b_fails)))).1
      = Returns (Ok ["a"; "b"; "c"])
  ∧ 0 < BatchSize (cfg (team_syncer 2)) ≤ GoInt.max_int
  ∧ GoInt.len ["a"; "b"; "c"] < 2 ^ 62
  ∧ (length ["a"; "b"; "c"] < 4)%nat
  ∧ outcomes_of (trace (Sync 4 (team_syncer 2)
                          (start (team_world team_keys write_b_fails))).2)
    = [("team/a", Synced); ("team/b", WriteFailed); ("team/c", Synced)]
  ∧ (Sync 4 (team_syncer 2) (start (team_world team_keys write_b_fails))).1 = Returns None.
Proof.
  assert (SourceVault (cfg (team_syncer 2)) = Some team_vault) as H1 by reflexivity.
  assert ((listSourcePath (Mount team_vault) (Path team_vault)
       (log InfoLevel "Starting sync" "" (start (team_world team_keys write_b_fails)))).1
      = Returns (Ok ["a"; "b"; "c"])) as H2 by (vm_compute; reflexivity).
  assert (0 < BatchSize (cfg (team_syncer 2)) ≤ GoInt.max_int) as H3
    by (vm_compute; split; [reflexivity | discriminate]).
  assert (GoInt.len ["a"; "b"; "c"] < 2 ^ 62) as H4 by (vm_compute; reflexivity).
  assert (length ["a"; "b"; "c"] < 4)%nat as H5 by (simpl; lia).
  repeat (split; [assumption|]).
  split; [vm_compute; reflexivity|].
  exact (proj1 (Sync_returns_nil (team_syncer 2) team_vault ["a"; "b"; "c"]
                  (start (team_world team_keys write_b_fails)) H1 H2 H3 H4) 4%nat H5).
Defined.

(** C5. When the worker's write to the destination fails, the worker makes
    no further call (so no verification read of the destination) and the
    one outcome it records for the key is [WriteFailed]. *)
Theorem doSync_write_failed {W : Type} `{!Backend W}
    (mount path : string) (st : State W) (srcResp : Response) (w1 w2 : W) (err : error) :
  vault_call (VaultRead OnSource (mount +:+ "/data/" +:+ path) mount) (world st)
    = (Ok srcResp, w1) →
  vault_call (VaultWrite OnDestination (mount +:+ "/data/" +:+ path) (Data srcResp) mount) w1
    = (Err err, w2) →
  calls_of (trace (doSync mount path st))
    = calls_of (trace st)
      ++ [VaultRead OnSource (mount +:+ "/data/" +:+ path) mount;
          VaultWrite OnDestination (mount +:+ "/data/" +:+ path) (Data srcResp) mount]
  ∧ outcomes_of (trace (doSync mount path st))
    = outcomes_of (trace st) ++ [(path, WriteFailed)]
  ∧ world (doSync mount path st) = w2.
Proof.
  intros Hread Hwrite.
  rewrite /doSync /call /note /log /= Hread /= Hwrite /=.
  rewrite /calls_of /outcomes_of !omap_app /=. by rewrite !app_nil_r -!app_assoc.
Qed.

Lemma doSync_write_failed_witness :
  vault_call (VaultRead OnSource ("secret" +:+ "/data/" +:+ "team/b") "secret")
    (world (start (team_world team_keys write_b_fails)))
    = (Ok {| Data := secret_of "bravo" |}, team_world team_keys write_b_fails)
  ∧ vault_call (VaultWrite OnDestination ("secret" +:+ "/data/" +:+ "team/b")
                  (Data {| Data := secret_of "bravo" |}) "secret")
      (team_world team_keys write_b_fails)
    = (Err (LibError "request failed"), team_world team_keys write_b_fails)
  ∧ outcomes_of (trace (doSync "secret" "team/b" (start (team_world team_keys write_b_fails))))
    = [("team/b", WriteFailed)].
Proof.
  assert (vault_call (VaultRead OnSource ("secret" +:+ "/data/" +:+ "team/b") "secret")
    (world (start (team_world team_keys write_b_fails)))
    = (Ok {| Data := secret_of "bravo" |}, team_world team_keys write_b_fails)) as H1
    by (vm_compute; reflexivity).
  assert (vault_call (VaultWrite OnDestination ("secret" +:+ "/data/" +:+ "team/b")
                  (Data {| Data := secret_of "bravo" |}) "secret")
      (team_world team_keys write_b_fails)
    = (Err (LibError "request failed"), team_world team_keys write_b_fails)) as H2
    by (vm_compute; reflexivity).
  repeat (split; [assumption|]).
  exact (proj1 (proj2 (doSync_write_failed "secret" "team/b"
           (start (team_world team_keys write_b_fails)) _ _ _ _ H1 H2))).
Defined.

(** C6. Whatever the scheduler does, the batches run one after the other:
    - when the goroutine of [Sync] is between two batches (at the test of
      its loop, or past it), no worker is in flight: [wg.Wait()] has let
      it through only after every worker of the batch had returned;
    - no worker of a batch is still running once a worker of a later
      batch has been started;
    - along the trace (kept newest first) the batch numbers never go
      down: every call of batch N comes before every call of batch N+1;
    - the workers in flight are never more than the batch size. *)
Theorem batches_run_in_sequence {W : Type} `{!Backend W}
    (mount path : string) (srcList : list string) (batchSize : Z)
    (w : W) (sched : list Conc.Tid) :
  GoInt.min_int ≤ batchSize →
  (Conc.between_batches
     (Conc.main (Conc.run mount path srcList batchSize sched (Conc.init w))) →
   Conc.in_flight (Conc.pool (Conc.run mount path srcList batchSize sched (Conc.init w)))
   = 0%nat)
  ∧ (∀ g g',
       g ∈ Conc.pool (Conc.run mount path srcList batchSize sched (Conc.init w)) →
       g' ∈ Conc.pool (Conc.run mount path srcList batchSize sched (Conc.init w)) →
       (Conc.g_wg g < Conc.g_wg g')%nat → Conc.exited g = true)
  ∧ StronglySorted (λ later earlier : nat * Event, (earlier.1 ≤ later.1)%nat)
      (Conc.ctrace (Conc.run mount path srcList batchSize sched (Conc.init w)))
  ∧ Z.of_nat (Conc.in_flight
                (Conc.pool (Conc.run mount path srcList batchSize sched (Conc.init w))))
    ≤ Z.max 0 batchSize.
Proof.
  intros Hbs.
  pose proof (Inv_run mount path srcList batchSize sched (Conc.init w) (Inv_init _ _ w))
    as [Hpool Hknown Hold Hcnt Hidle Hbatch Hflight Htags Hsorted].
  destruct (Conc.run mount path srcList batchSize sched (Conc.init w)) as [m wg pl cw tr].
  unfold Conc.cur in *. simpl in *.
  split; [done|]. split; [|split; [done|]].
  - intros g g' Hg Hg' Hlt. apply Hold; [done|].
    pose proof (Hknown g' Hg'). lia.
  - destruct m as [i|i rest|i item rest|i|r];
      try (rewrite (Hidle I); lia);
      destruct (Hbatch I) as (_ & b & Hb & Hlen);
      unfold Conc.batch_in_hand in Hb; simpl in Hb, Hlen;
      destruct (loop_head srcList batchSize i) as [| |b'] eqn:Hhead; simplify_eq;
      pose proof (loop_head_batch_len srcList batchSize i b Hbs Hhead) as Hle;
      unfold GoInt.len in Hle; lia.
Qed.

Lemma batches_run_in_sequence_witness :
  GoInt.min_int ≤ 2
  ∧ Conc.main (Conc.run "secret" "team/" ["a"; "b"; "c"] 2 Conc.team_schedule
                 (Conc.init (team_world team_keys no_fault)))
    = Conc.AtEnd (Returns ())
  ∧ Conc.in_flight
      (Conc.pool (Conc.run "secret" "team/" ["a"; "b"; "c"] 2 Conc.team_schedule
                    (Conc.init (team_world team_keys no_fault))))
    = 0%nat
  ∧ Conc.in_flight
      (Conc.pool (Conc.run "secret" "team/" ["a"; "b"; "c"] 2 (take 14 Conc.team_schedule)
                    (Conc.init (team_world team_keys no_fault))))
    = 1%nat.
Proof.
  assert (GoInt.min_int ≤ 2) as H1 by (vm_compute; discriminate).
  split; [assumption|]. split; [vm_compute; reflexivity|].
  split; [|vm_compute; reflexivity].
  apply (proj1 (batches_run_in_sequence "secret" "team/" ["a"; "b"; "c"] 2
                  (team_world team_keys no_fault) Conc.team_schedule H1)).
  vm_compute. exact I.
Defined.




(** C8 as stated fails: the helper prints the token after a space; trimmed,
    its output carries the prefix, and yet it is refused. *)
Lemma initVault_refuses_leading_space :
  exec_Output (helper_platform (" hvs.abc" +:+ newline))
    (hd "" (Split "vault print token")) (tl (Split "vault print token"))
    = Ok (" hvs.abc" +:+ newline)
  ∧ TrimSpace (" hvs.abc" +:+ newline) = "hvs.abc"
  ∧ HasPrefix (TrimSpace (" hvs.abc" +:+ newline)) "hvs." = true
  ∧ initVault (helper_platform (" hvs.abc" +:+ newline))
      (Some (vault_with "" "vault print token"))
    = Err TokenFormatInvalid.
Proof. repeat split; vm_compute; reflexivity. Qed.

(** C8, amended. For every token command whose subprocess succeeds, the
    captured standard output is required to carry the token prefix as it
    was captured, before any trimming; output that does not start with the
    prefix fails token resolution with [TokenFormatInvalid], and otherwise
    the token is the output trimmed of surrounding white space.  In
    particular any non-matching or empty trimmed result fails. *)
Theorem initVault_token_command (P : Platform) (cfg : Vault) (b : string) :
  TokenCmd cfg ≠ "" →
  exec_Output P (hd "" (Split (TokenCmd cfg))) (tl (Split (TokenCmd cfg))) = Ok b →
  initVault_tkn P cfg
    = (if HasPrefix b "hvs." then Ok (TrimSpace b) else Err TokenFormatInvalid)
  ∧ (HasPrefix b "hvs." = false → initVault P (Some cfg) = Err TokenFormatInvalid)
  ∧ (HasPrefix (TrimSpace b) "hvs." = false →
     initVault P (Some cfg) = Err TokenFormatInvalid).
Proof.
  intros Hcmd Hout.
  assert (initVault_tkn P cfg
          = (if HasPrefix b "hvs." then Ok (TrimSpace b) else Err TokenFormatInvalid)) as Htkn.
  { unfold initVault_tkn. apply String.eqb_neq in Hcmd. by rewrite Hcmd /= Hout. }
  assert (HasPrefix b "hvs." = false → initVault P (Some cfg) = Err TokenFormatInvalid)
    as Hraw.
  { intros Hno. by rewrite /initVault Htkn Hno. }
  split; [done|]. split; [done|]. intros Hno. apply Hraw.
  destruct (HasPrefix b "hvs.") eqn:Hp; [|done].
  by rewrite (TrimSpace_keeps_prefix b Hp) in Hno.
Qed.

Lemma initVault_token_command_witness :
  TokenCmd (vault_with "" "vault print token") ≠ ""
  ∧ exec_Output (helper_platform ("hvs.abc" +:+ newline))
      (hd "" (Split (TokenCmd (vault_with "" "vault print token"))))
      (tl (Split (TokenCmd (vault_with "" "vault print token"))))
    = Ok ("hvs.abc" +:+ newline)
  ∧ initVault_tkn (helper_platform ("hvs.abc" +:+ newline))
      (vault_with "" "vault print token")
    = Ok "hvs.abc".
Proof.
  assert (TokenCmd (vault_with "" "vault print token") ≠ "") as H1 by discriminate.
  assert (exec_Output (helper_platform ("hvs.abc" +:+ newline))
      (hd "" (Split (TokenCmd (vault_with "" "vault print token"))))
      (tl (Split (TokenCmd (vault_with "" "vault print token"))))
    = Ok ("hvs.abc" +:+ newline)) as H2 by (vm_compute; reflexivity).
  repeat (split; [assumption|]).
  exact (proj1 (initVault_token_command (helper_platform ("hvs.abc" +:+ newline))
                  (vault_with "" "vault print token") ("hvs.abc" +:+ newline) H1 H2)).
Defined.

(** C9 as stated fails: with both a literal token and a command set,
    [initVault] succeeds, with the token the command printed. *)
Lemma initVault_accepts_token_and_command :
  Token (vault_with "hvs.literal" "vault print token") ≠ ""
  ∧ TokenCmd (vault_with "hvs.literal" "vault print token") ≠ ""
  ∧ initVault (helper_platform ("hvs.fromcmd" +:+ newline))
      (Some (vault_with "hvs.literal" "vault print token"))
    = Ok {| client_address := "http://localhost:8200"; client_token := "hvs.fromcmd" |}.
Proof. repeat split; try discriminate. Qed.

(** C9, amended. A credential spec with neither a literal token nor a
    command fails token resolution as an invalid configuration ("no token
    provided").  With both set [initVault] does not fail on that account:
    the command is used and the literal token is ignored, the result being
    the one for the same configuration without the literal token. *)
Theorem initVault_credential_spec (P : Platform) (cfg : Vault) :
  (Token cfg = "" → TokenCmd cfg = "" → initVault P (Some cfg) = Err NoTokenProvided)
  ∧ (TokenCmd cfg ≠ "" → initVault P (Some cfg) = initVault P (Some (without_Token cfg))).
Proof.
  split.
  - intros Ht Hc. by rewrite /initVault /initVault_tkn Ht Hc.
  - intros Hc. apply String.eqb_neq in Hc.
    by rewrite /initVault /initVault_tkn /= Hc.
Qed.

Lemma initVault_credential_spec_witness :
  initVault (helper_platform "") (Some (vault_with "" "")) = Err NoTokenProvided
  ∧ initVault (helper_platform ("hvs.fromcmd" +:+ newline))
      (Some (vault_with "hvs.literal" "vault print token"))
    = initVault (helper_platform ("hvs.fromcmd" +:+ newline))
        (Some (without_Token (vault_with "hvs.literal" "vault print token"))).
Proof.
  split.
  - exact (proj1 (initVault_credential_spec (helper_platform "") (vault_with "" ""))
             eq_refl eq_refl).
  - apply (proj2 (initVault_credential_spec (helper_platform ("hvs.fromcmd" +:+ newline))
                    (vault_with "hvs.literal" "vault print token"))).
    discriminate.
Defined.

(** C10. Whatever the run, every client call [Sync] and its workers make
    is a listing or a read on the source client, or a read or a write on
    the destination client: no write goes through the source client.
    Hence anything about the world that those calls leave alone (the
    contents of the source server, for one) is the same after the run.
    This holds for [Sync] with its workers run in dispatch order, and for
    every schedule of the interleaved machine. *)
Theorem Sync_spares_source {W : Type} `{!Backend W} {C : Type}
    (obs : W → C) (fuel : nat) (s : Syncer) (st : State W) :
  (∀ c w, spares_source c → obs (vault_call c w).2 = obs w) →
  (∃ evs, trace (Sync fuel s st).2 = trace st ++ evs ∧ Forall run_event evs)
  ∧ obs (world (Sync fuel s st).2) = obs (world st)
  ∧ ∀ mount path srcList batchSize (sched : list Conc.Tid) (w : W),
      Forall (λ te, run_event te.2)
        (Conc.ctrace (Conc.run mount path srcList batchSize sched (Conc.init w)))
      ∧ obs (Conc.cworld (Conc.run mount path srcList batchSize sched (Conc.init w)))
        = obs w.
Proof.
  intros Hobs.
  split; [|split; [|intros; by apply run_spares_source]]; unfold Sync.
  all: destruct (SourceVault (cfg s)) as [sv|]; simpl.
  all: try (eexists; split; [reflexivity|]; by repeat constructor).
  all: try done.
  all: pose proof (listSourcePath_trace (Mount sv) (Path sv)
                     (log InfoLevel "Starting sync" "" st)) as Ht;
       pose proof (listSourcePath_frame obs (Mount sv) (Path sv)
                     (log InfoLevel "Starting sync" "" st) Hobs) as Hw;
       destruct (listSourcePath _ _ _) as [r st1]; simpl in Ht, Hw;
       assert (∃ evs, trace st1 = trace st ++ evs ∧ Forall run_event evs) as Hst1
         by (rewrite Ht -app_assoc; eexists; split; [done|]; by repeat constructor);
       destruct r as [[srcList|err]| |]; simpl; try done;
       pose proof (Sync_loop_trace fuel (Mount sv) (Path sv) srcList (BatchSize (cfg s)) 0 st1)
         as (evs & Hev & Hrun);
       pose proof (Sync_loop_frame obs fuel (Mount sv) (Path sv) srcList (BatchSize (cfg s))
                     0 st1 Hobs) as Hfr;
       destruct Hst1 as (evs1 & Hev1 & Hrun1);
       destruct (Sync_loop _ _ _ _ _ _ _) as [r st2]; simpl in Hev, Hfr;
       assert (∃ evs, trace st2 = trace st ++ evs ∧ Forall run_event evs) as Hst2
         by (rewrite Hev Hev1 -app_assoc; eexists; split; [done|]; by apply Forall_app).
  - destruct r; simpl; try done.
    destruct Hst2 as (evs2 & -> & Hrun2). rewrite -app_assoc. eexists. split; [done|].
    apply Forall_app. split; [done|]. by repeat constructor.
  - destruct r; simpl; congruence.
Qed.

Lemma mem_spares_source (c : Call) (w : Mem) :
  spares_source c → src_kv (vault_call c w).2 = src_kv w.
Proof.
  intros Hc. rewrite /vault_call /mem_backend /mem_call.
  destruct (failing w c); [done|]. by destruct c as [[]| []|[]].
Qed.

Lemma Sync_spares_source_witness :
  (∀ c w, spares_source c → src_kv (vault_call c w).2 = src_kv w)
  ∧ src_kv (world (Sync 4 (team_syncer 2) (start (team_world team_keys write_b_fails))).2)
    = team_source.
Proof.
  split; [exact mem_spares_source|].
  exact (proj1 (proj2 (Sync_spares_source src_kv 4 (team_syncer 2)
                         (start (team_world team_keys write_b_fails)) mem_spares_source))).
Defined.

(* ================================================================= *)
(** * More of the code *)

Lemma app_String a (s t : string) : String a s +:+ t = String a (s +:+ t).
Proof. reflexivity. Qed.

Lemma app_empty_l (s : string) : "" +:+ s = s.
Proof. reflexivity. Qed.

Lemma app_empty_r (s : string) : s +:+ "" = s.
Proof. induction s as [|a s IH]; [done|]. by rewrite app_String IH. Qed.

Lemma string_app_assoc (a b c : string) : (a +:+ b) +:+ c = a +:+ b +:+ c.
Proof. induction a as [|x a IH]; [done|]. by rewrite !app_String IH. Qed.

Lemma rev_app_append (s acc : string) :
  String.rev_app s acc = String.rev_app s "" +:+ acc.
Proof.
  revert acc. induction s as [|a s IH]; intros acc; simpl; [done|].
  rewrite (IH (String a acc)) (IH (String a "")). by rewrite string_app_assoc.
Qed.

Lemma rev_String a (s : string) : String.rev (String a s) = String.rev s +:+ String a "".
Proof. unfold String.rev. simpl. by rewrite rev_app_append. Qed.

Lemma split_go_nonempty cur s : split_go cur s ≠ [].
Proof.
  revert cur. induction s as [|a s IH]; intros cur; simpl; [done|].
  case_bool_decide; [done|apply IH].
Qed.

Lemma split_go_Join cur s : Join (split_go cur s) = String.rev cur +:+ s.
Proof.
  revert cur. induction s as [|a s IH]; intros cur; simpl.
  - by rewrite app_empty_r.
  - case_bool_decide as Ha.
    + subst a. pose proof (split_go_nonempty "" s) as Hne. pose proof (IH "") as IH'.
      destruct (split_go "" s) as [|p ps]; [done|].
      change (Join (String.rev cur :: p :: ps))
        with (String.rev cur +:+ " " +:+ Join (p :: ps)).
      by rewrite IH'.
    + rewrite IH rev_String string_app_assoc. done.
Qed.

Lemma spaceless_empty : spaceless "".
Proof. intros [|x a] b; rewrite ?app_String ?app_empty_l; discriminate. Qed.

Lemma spaceless_snoc s c : spaceless s → c ≠ " "%char → spaceless (s +:+ String c "").
Proof.
  induction s as [|x s IH]; intros Hs Hc a b.
  - rewrite app_empty_l. destruct a as [|y a]; rewrite ?app_String ?app_empty_l.
    + congruence.
    + intros [= _ Heq]. by apply (spaceless_empty a b).
  - rewrite app_String. destruct a as [|y a]; rewrite ?app_String ?app_empty_l.
    + intros [= -> _]. by apply (Hs "" s).
    + intros [= -> Heq]. revert Heq. apply IH; [|done].
      intros a' b' ->. by apply (Hs (String y a') b').
Qed.

Lemma split_go_spaceless cur s :
  spaceless (String.rev cur) → Forall spaceless (split_go cur s).
Proof.
  revert cur. induction s as [|a s IH]; intros cur Hcur; simpl.
  - by constructor.
  - case_bool_decide as Ha.
    + constructor; [done|]. apply IH. apply spaceless_empty.
    + apply IH. rewrite rev_String. by apply spaceless_snoc.
Qed.

(** X1. [initVault] takes the program and its arguments from
    [strings.Split(cfg.TokenCmd, " ")]: there is always a first piece (so
    [cmd[0]] cannot panic), no piece holds a space, and the pieces joined
    by single spaces are the command again: nothing is quoted or
    collapsed, two spaces in a row give an empty argument. *)
Theorem Split_pieces (s : string) :
  Split s ≠ []
  ∧ Join (hd "" (Split s) :: tl (Split s)) = s
  ∧ Forall (λ piece, ∀ a b, piece ≠ a +:+ " " +:+ b) (Split s).
Proof.
  pose proof (split_go_nonempty "" s) as Hne.
  pose proof (split_go_Join "" s) as Hj.
  pose proof (split_go_spaceless "" s spaceless_empty) as Hs.
  unfold Split. destruct (split_go "" s) as [|p ps]; [done|].
  split; [done|]. split; [exact Hj|exact Hs].
Qed.

(** *** White space *)

Lemma starts_with_length r l rest :
  starts_with r l = Some rest → (length l = length r + length rest)%nat.
Proof.
  revert l. induction r as [|x r IH]; intros [|y l] Hs; simplify_eq/=; try done.
  case_bool_decide; [|done]. apply IH in Hs. lia.
Qed.

Lemma starts_with_app r l rest : starts_with r l = Some rest → l = r ++ rest.
Proof.
  revert l. induction r as [|x r IH]; intros [|y l] Hs; simplify_eq/=; try done.
  case_bool_decide; [|done]. subst. by rewrite (IH _ Hs).
Qed.

Lemma starts_with_more r y z rest :
  starts_with r y = Some rest → starts_with r (y ++ z) = Some (rest ++ z).
Proof.
  revert y. induction r as [|x r IH]; intros [|c y] Hs; simplify_eq/=; try done.
  case_bool_decide; [|done]. by apply IH.
Qed.

Lemma strip_rune_more runes y z :
  strip_rune runes (y ++ z) = None → strip_rune runes y = None.
Proof.
  induction runes as [|r runes IH]; simpl; [done|].
  destruct (starts_with r y) as [rest|] eqn:Hy.
  - by rewrite (starts_with_more _ _ z _ Hy).
  - destruct (starts_with r (y ++ z)); [done|apply IH].
Qed.

Lemma strip_rune_shorter runes l rest :
  Forall (λ r, r ≠ []) runes → strip_rune runes l = Some rest →
  (length rest < length l)%nat ∧ ∃ pre, l = pre ++ rest.
Proof.
  induction 1 as [|r runes Hr _ IH]; simpl; [done|].
  destruct (starts_with r l) as [rest'|] eqn:Hs; [|done].
  intros [= ->]. pose proof (starts_with_length _ _ _ Hs).
  split; [destruct r; [done|simpl in *; lia]|].
  exists r. by apply starts_with_app.
Qed.

Lemma trim_left_fixed fuel runes l :
  strip_rune runes l = None → trim_left fuel runes l = l.
Proof. intros Hl. destruct fuel; simpl; [done|by rewrite Hl]. Qed.

Lemma trim_left_suffix fuel runes l :
  Forall (λ r, r ≠ []) runes → ∃ pre, l = pre ++ trim_left fuel runes l.
Proof.
  intros Hr. revert l. induction fuel as [|fuel IH]; intros l; simpl; [by exists []|].
  destruct (strip_rune runes l) as [rest|] eqn:Hs; [|by exists []].
  destruct (strip_rune_shorter _ _ _ Hr Hs) as [_ [pre ->]].
  destruct (IH rest) as [pre' Hpre']. exists (pre ++ pre').
  by rewrite -app_assoc -Hpre'.
Qed.

Lemma strip_rune_nil runes : Forall (λ r, r ≠ []) runes → strip_rune runes [] = None.
Proof. induction 1 as [|[|x r] runes Hr _ IH]; simpl; done. Qed.

Lemma trim_left_done fuel runes l :
  Forall (λ r, r ≠ []) runes → (length l ≤ fuel)%nat →
  strip_rune runes (trim_left fuel runes l) = None.
Proof.
  intros Hr. revert l. induction fuel as [|fuel IH]; intros l Hl; simpl.
  - destruct l; [|simpl in Hl; lia]. by apply strip_rune_nil.
  - destruct (strip_rune runes l) as [rest|] eqn:Hs; [|done].
    apply IH. destruct (strip_rune_shorter _ _ _ Hr Hs). lia.
Qed.

Lemma space_runes_nonempty : Forall (λ r : list Z, r ≠ []) space_runes.
Proof. unfold space_runes. repeat constructor; discriminate. Qed.

Lemma space_runes_rev_nonempty : Forall (λ r : list Z, r ≠ []) (reverse <$> space_runes).
Proof. unfold space_runes. repeat constructor; discriminate. Qed.

Lemma TrimLeftSpace_done l : strip_rune space_runes (TrimLeftSpace l) = None.
Proof. apply trim_left_done; [apply space_runes_nonempty|done]. Qed.

Lemma TrimLeftSpace_suffix l : ∃ pre, l = pre ++ TrimLeftSpace l.
Proof. apply trim_left_suffix, space_runes_nonempty. Qed.

Lemma TrimRightSpace_prefix l : ∃ post, l = TrimRightSpace l ++ post.
Proof.
  unfold TrimRightSpace.
  destruct (trim_left_suffix (length l) (reverse <$> space_runes) (reverse l)
              space_runes_rev_nonempty) as [pre Hpre].
  exists (reverse pre). rewrite -reverse_app -Hpre. by rewrite reverse_involutive.
Qed.

Lemma TrimRightSpace_done l :
  strip_rune (reverse <$> space_runes) (reverse (TrimRightSpace l)) = None.
Proof.
  unfold TrimRightSpace. rewrite reverse_involutive.
  apply trim_left_done; [apply space_runes_rev_nonempty|by rewrite length_reverse].
Qed.

Lemma TrimLeftSpace_fixed l : strip_rune space_runes l = None → TrimLeftSpace l = l.
Proof. apply trim_left_fixed. Qed.

Lemma TrimRightSpace_fixed l :
  strip_rune (reverse <$> space_runes) (reverse l) = None → TrimRightSpace l = l.
Proof.
  intros Hl. unfold TrimRightSpace. rewrite trim_left_fixed; [done|].
  by rewrite reverse_involutive.
Qed.

Lemma trimmed_fixed l :
  TrimRightSpace (TrimLeftSpace (TrimRightSpace (TrimLeftSpace l)))
  = TrimRightSpace (TrimLeftSpace l).
Proof.
  destruct (TrimRightSpace_prefix (TrimLeftSpace l)) as [post Hpost].
  pose proof (TrimLeftSpace_done l) as Hl. rewrite Hpost in Hl.
  apply strip_rune_more in Hl.
  rewrite (TrimLeftSpace_fixed _ Hl).
  apply TrimRightSpace_fixed, TrimRightSpace_done.
Qed.

Lemma bytes_of_string_of l : Forall is_byte l → bytes_of (string_of l) = l.
Proof.
  induction 1 as [|z l Hz _ IH]; simpl; [done|]. rewrite IH. f_equal.
  unfold byte_of, ascii_of. rewrite N_ascii_embedding; [|rewrite Z2N.id]; unfold is_byte in Hz; lia.
Qed.

Lemma TrimSpace_bytes b :
  bytes_of (TrimSpace b) = TrimRightSpace (TrimLeftSpace (bytes_of b)).
Proof.
  unfold TrimSpace. apply bytes_of_string_of.
  destruct (TrimLeftSpace_suffix (bytes_of b)) as [pre Hpre].
  destruct (TrimRightSpace_prefix (TrimLeftSpace (bytes_of b))) as [post Hpost].
  pose proof (bytes_of_range b) as Hb. rewrite Hpre Hpost in Hb.
  by apply Forall_app in Hb as [_ [Hb _]%Forall_app].
Qed.

Lemma TrimSpace_idempotent b : TrimSpace (TrimSpace b) = TrimSpace b.
Proof.
  unfold TrimSpace at 1. rewrite TrimSpace_bytes trimmed_fixed. done.
Qed.

Local Arguments HasPrefix : simpl never.
Local Arguments TrimSpace : simpl never.

(** X2. A token that comes from a token command, on the client that
    [initVault] returns, starts with [hvs.] and has no white space around
    it; the client is for the address of the configuration. *)
Theorem initVault_command_token (P : Platform) (cfg : Vault) (c : Client) :
  TokenCmd cfg ≠ "" →
  initVault P (Some cfg) = Ok c →
  HasPrefix (client_token c) "hvs." = true
  ∧ TrimSpace (client_token c) = client_token c
  ∧ client_address c = Address cfg.
Proof.
  intros Hcmd%String.eqb_neq. rewrite /initVault /initVault_tkn Hcmd /=.
  destruct (exec_Output P _ _) as [b|err]; simpl; [|done].
  destruct (HasPrefix b "hvs.") eqn:Hp; simpl; [|done].
  destruct (vault_New P (Address cfg)); simpl; [done|].
  destruct (client_SetToken P (TrimSpace b)); simpl; [done|].
  intros [= <-]. simpl. split; [by apply TrimSpace_keeps_prefix|].
  split; [apply TrimSpace_idempotent|done].
Qed.

Lemma initVault_command_token_witness :
  TokenCmd (vault_with "" "vault print token") ≠ ""
  ∧ initVault (helper_platform ("hvs.abc  " +:+ newline)) (Some (vault_with "" "vault print token"))
    = Ok {| client_address := "http://localhost:8200"; client_token := "hvs.abc" |}
  ∧ TrimSpace "hvs.abc" = "hvs.abc".
Proof.
  assert (TokenCmd (vault_with "" "vault print token") ≠ "") as H1 by discriminate.
  assert (initVault (helper_platform ("hvs.abc  " +:+ newline))
            (Some (vault_with "" "vault print token"))
          = Ok {| client_address := "http://localhost:8200"; client_token := "hvs.abc" |})
    as H2 by (vm_compute; reflexivity).
  repeat (split; [assumption|]).
  exact (proj1 (proj2 (initVault_command_token _ _ _ H1 H2))).
Defined.

(** X3. A literal token is used as it is written when no token command
    is configured: it is neither trimmed nor tested for a prefix, and no
    subprocess is consulted. *)
Theorem initVault_literal_token (P : Platform) (cfg : Vault) :
  TokenCmd cfg = "" → Token cfg ≠ "" →
  initVault_tkn P cfg = Ok (Token cfg)
  ∧ (vault_New P (Address cfg) = None → client_SetToken P (Token cfg) = None →
     initVault P (Some cfg)
     = Ok {| client_address := Address cfg; client_token := Token cfg |}).
Proof.
  intros Hcmd Htok%String.eqb_neq.
  assert (initVault_tkn P cfg = Ok (Token cfg)) as Ht
    by by rewrite /initVault_tkn Hcmd Htok.
  split; [done|]. intros Hnew Hset. by rewrite /initVault Ht Hnew Hset.
Qed.

Lemma initVault_literal_token_witness :
  TokenCmd (vault_with " not a vault token " "") = ""
  ∧ Token (vault_with " not a vault token " "") ≠ ""
  ∧ initVault (helper_platform "") (Some (vault_with " not a vault token " ""))
    = Ok {| client_address := "http://localhost:8200";
            client_token := " not a vault token " |}.
Proof.
  assert (TokenCmd (vault_with " not a vault token " "") = "") as H1 by reflexivity.
  assert (Token (vault_with " not a vault token " "") ≠ "") as H2 by discriminate.
  repeat (split; [assumption|]).
  exact (proj2 (initVault_literal_token (helper_platform "") _ H1 H2) eq_refl eq_refl).
Defined.

(** X4. When the token command cannot be run or exits with an error,
    [initVault] fails with [TokenCommandFailed] around that error: a
    literal token that is configured as well is not fallen back on, and no
    client is created. *)
Theorem initVault_command_failed (P : Platform) (cfg : Vault) (err : error) :
  TokenCmd cfg ≠ "" →
  exec_Output P (hd "" (Split (TokenCmd cfg))) (tl (Split (TokenCmd cfg))) = Err err →
  initVault P (Some cfg) = Err (TokenCommandFailed err)
  ∧ ∀ config, SourceVault config = Some cfg →
      NewSyncer P (Some config)
      = Err (Wrapf "failed to initialize source vault" (TokenCommandFailed err)).
Proof.
  intros Hcmd%String.eqb_neq Hexec.
  assert (initVault P (Some cfg) = Err (TokenCommandFailed err)) as Hi
    by by rewrite /initVault /initVault_tkn Hcmd /= Hexec.
  split; [done|]. intros config Hsv. by rewrite /NewSyncer Hsv Hi.
Qed.

Lemma initVault_command_failed_witness :
  TokenCmd (vault_with "hvs.literal" "missing helper") ≠ ""
  ∧ exec_Output (helper_platform "hvs.abc")
      (hd "" (Split (TokenCmd (vault_with "hvs.literal" "missing helper"))))
      (tl (Split (TokenCmd (vault_with "hvs.literal" "missing helper"))))
    = Err (LibError "exec: executable file not found in $PATH")
  ∧ initVault (helper_platform "hvs.abc") (Some (vault_with "hvs.literal" "missing helper"))
    = Err (TokenCommandFailed (LibError "exec: executable file not found in $PATH")).
Proof.
  assert (TokenCmd (vault_with "hvs.literal" "missing helper") ≠ "") as H1 by discriminate.
  assert (exec_Output (helper_platform "hvs.abc")
      (hd "" (Split (TokenCmd (vault_with "hvs.literal" "missing helper"))))
      (tl (Split (TokenCmd (vault_with "hvs.literal" "missing helper"))))
    = Err (LibError "exec: executable file not found in $PATH")) as H2
    by (vm_compute; reflexivity).
  repeat (split; [assumption|]).
  exact (proj1 (initVault_command_failed _ _ _ H1 H2)).
Defined.

Lemma initVault_token_nonempty (P : Platform) (cfg : option Vault) (c : Client) :
  initVault P cfg = Ok c →
  ∃ v, cfg = Some v ∧ client_address c = Address v ∧ client_token c ≠ "".
Proof.
  destruct cfg as [cfg|]; [|done]. intros Hi. exists cfg. split; [done|]. revert Hi.
  rewrite /initVault /initVault_tkn.
  destruct (String.eqb (TokenCmd cfg) "") eqn:Hcmd; simpl.
  - destruct (String.eqb (Token cfg) "") eqn:Htok; simpl; [done|].
    destruct (vault_New P (Address cfg)); simpl; [done|].
    destruct (client_SetToken P (Token cfg)); simpl; [done|].
    intros [= <-]. simpl. split; [done|]. by apply String.eqb_neq.
  - destruct (exec_Output P _ _) as [b|err]; [|done].
    destruct (HasPrefix b "hvs.") eqn:Hp; [|done].
    destruct (vault_New P (Address cfg)); [done|].
    destruct (client_SetToken P (TrimSpace b)); [done|].
    intros [= <-]. simpl. split; [done|].
    pose proof (TrimSpace_keeps_prefix b Hp) as Hp'. intros Heq. by rewrite Heq in Hp'.
Qed.

(** X5. A [Syncer] that [NewSyncer] returns keeps the configuration it was
    given; both vault sections of that configuration are present (so
    [Sync] does not read through a nil [SourceVault]); each client is for
    the address of its section and carries a token that is not empty. *)
Theorem NewSyncer_ok (P : Platform) (config : option Config) (s : Syncer) :
  NewSyncer P config = Ok s →
  config = Some (cfg s)
  ∧ ∃ sv dv,
      SourceVault (cfg s) = Some sv ∧ DestinationVault (cfg s) = Some dv
      ∧ client_address (sourceVault s) = Address sv
      ∧ client_address (destinationVault s) = Address dv
      ∧ client_token (sourceVault s) ≠ ""
      ∧ client_token (destinationVault s) ≠ "".
Proof.
  unfold NewSyncer. destruct config as [config|]; [|done].
  destruct (initVault P (SourceVault config)) as [src|] eqn:Hsrc; [|done].
  destruct (initVault P (DestinationVault config)) as [dst|] eqn:Hdst; [|done].
  intros [= <-]. simpl. split; [done|].
  destruct (initVault_token_nonempty _ _ _ Hsrc) as (sv & -> & ? & ?).
  destruct (initVault_token_nonempty _ _ _ Hdst) as (dv & -> & ? & ?).
  by exists sv, dv.
Qed.

Lemma NewSyncer_ok_witness :
  NewSyncer (helper_platform ("hvs.fromcmd" +:+ newline))
    (Some {| BatchSize := 2; SourceVault := Some team_vault;
             DestinationVault := Some (vault_with "" "vault print token") |})
  = Ok {| cfg := {| BatchSize := 2; SourceVault := Some team_vault;
                    DestinationVault := Some (vault_with "" "vault print token") |};
          sourceVault := {| client_address := "http://localhost:8200";
                            client_token := "hvs.source" |};
          destinationVault := {| client_address := "http://localhost:8200";
                                 client_token := "hvs.fromcmd" |} |}
  ∧ ∃ sv dv,
      SourceVault {| BatchSize := 2; SourceVault := Some team_vault;
                     DestinationVault := Some (vault_with "" "vault print token") |} = Some sv
      ∧ DestinationVault {| BatchSize := 2; SourceVault := Some team_vault;
                            DestinationVault := Some (vault_with "" "vault print token") |}
        = Some dv
      ∧ "http://localhost:8200" = Address sv
      ∧ "http://localhost:8200" = Address dv
      ∧ "hvs.source" ≠ ""
      ∧ "hvs.fromcmd" ≠ "".
Proof.
  assert (NewSyncer (helper_platform ("hvs.fromcmd" +:+ newline))
    (Some {| BatchSize := 2; SourceVault := Some team_vault;
             DestinationVault := Some (vault_with "" "vault print token") |})
  = Ok {| cfg := {| BatchSize := 2; SourceVault := Some team_vault;
                    DestinationVault := Some (vault_with "" "vault print token") |};
          sourceVault := {| client_address := "http://localhost:8200";
                            client_token := "hvs.source" |};
          destinationVault := {| client_address := "http://localhost:8200";
                                 client_token := "hvs.fromcmd" |} |}) as H1
    by (vm_compute; reflexivity).
  split; [exact H1|].
  exact (proj2 (NewSyncer_ok _ _ _ H1)).
Defined.

(** X6. [NewSyncer] does not panic on a missing input: a nil
    configuration, and a configuration without the source or without the
    destination section, are errors, and the source is looked at first. *)
Theorem NewSyncer_nil (P : Platform) (config : Config) :
  NewSyncer P None = Err (Errorf "config is nil")
  ∧ (SourceVault config = None →
     NewSyncer P (Some config)
     = Err (Wrapf "failed to initialize source vault" (Errorf "vault config is nil")))
  ∧ (DestinationVault config = None →
     ∀ src, initVault P (SourceVault config) = Ok src →
     NewSyncer P (Some config)
     = Err (Wrapf "failed to initialize destination vault" (Errorf "vault config is nil"))).
Proof.
  split; [done|]. split.
  - intros Hs. by rewrite /NewSyncer Hs.
  - intros Hd src Hsrc. by rewrite /NewSyncer Hsrc Hd.
Qed.

Section MoreEngineFacts.
Context {W : Type} `{!Backend W}.

Lemma outcomes_of_app t1 t2 : outcomes_of (t1 ++ t2) = outcomes_of t1 ++ outcomes_of t2.
Proof. apply omap_app. Qed.

Lemma keys_of_strings keys acc : keys_of (VString <$> keys) acc = Returns (acc ++ keys).
Proof.
  revert acc. induction keys as [|k keys IH]; intros acc; simpl.
  - by rewrite app_nil_r.
  - by rewrite IH -app_assoc.
Qed.

Lemma keys_of_panics v acc :
  (∃ x, x ∈ v ∧ ∀ s, x ≠ VString s) → keys_of v acc = Panics.
Proof.
  revert acc. induction v as [|y v IH]; intros acc (x & Hx & Hns).
  - by apply elem_of_nil in Hx.
  - apply elem_of_cons in Hx as [->|Hx].
    + destruct y; simpl; try done. by destruct (Hns s).
    + destruct y; simpl; try done. apply IH. by exists x.
Qed.

Lemma doSync_shape mount path (st : State W) :
  ∃ o body,
    outcomes_of (trace (doSync mount path st)) = outcomes_of (trace st) ++ [(path, o)]
    ∧ calls_of (trace (doSync mount path st))
      = calls_of (trace st) ++ take (calls_made o) (worker_calls mount path body)
    ∧ started_of (trace (doSync mount path st)) = started_of (trace st)
    ∧ batches_of (trace (doSync mount path st)) = batches_of (trace st).
Proof.
  rewrite /doSync /call /note /log /=.
  destruct (vault_call (VaultRead OnSource _ _) _) as [[srcResp|e] w1]; simpl.
  2: { exists ReadFailed, [].
       rewrite /outcomes_of /calls_of /started_of /batches_of !omap_app /=.
       by rewrite !app_nil_r -?app_assoc. }
  destruct (vault_call (VaultWrite OnDestination _ _ _) _) as [[wr|e] w2]; simpl.
  2: { exists WriteFailed, (Data srcResp).
       rewrite /outcomes_of /calls_of /started_of /batches_of !omap_app /=.
       by rewrite !app_nil_r -?app_assoc. }
  destruct (vault_call (VaultRead OnDestination _ _) _) as [[destResp|e] w3]; simpl.
  2: { exists VerifyReadFailed, (Data srcResp).
       rewrite /outcomes_of /calls_of /started_of /batches_of !omap_app /=.
       by rewrite !app_nil_r -?app_assoc. }
  destruct (eq _ _).
  - exists Synced, (Data srcResp).
    rewrite /outcomes_of /calls_of /started_of /batches_of !omap_app /=.
    by rewrite !app_nil_r -?app_assoc.
  - exists Mismatch, (Data srcResp).
    rewrite /outcomes_of /calls_of /started_of /batches_of !omap_app /=.
    by rewrite !app_nil_r -?app_assoc.
Qed.
End MoreEngineFacts.

Section MoreLoopFacts.
Context {W : Type} `{!Backend W}.

Lemma key_call_mono mount path keys keys' c :
  keys ⊆ keys' → key_call mount path keys c → key_call mount path keys' c.
Proof. intros Hsub [Hm (key & Hk & Hp)]. split; [done|]. exists key. split; [by apply Hsub|done]. Qed.

Lemma worker_calls_key mount path item body n :
  Forall (key_call mount path [item]) (take n (worker_calls mount (path +:+ item) body)).
Proof.
  apply Forall_take. unfold worker_calls.
  repeat constructor; simpl; exists item; (split; [apply list_elem_of_singleton; done|done]).
Qed.

Lemma workers_keys mount path batch (st : State W) :
  let st' := foldl (λ st item, doSync mount (path +:+ item) (note (EvGo (path +:+ item)) st))
               st batch in
  (outcomes_of (trace st')).*1
  = (outcomes_of (trace st)).*1 ++ ((λ item, path +:+ item) <$> batch)
  ∧ started_of (trace st') = started_of (trace st) ++ ((λ item, path +:+ item) <$> batch)
  ∧ batches_of (trace st') = batches_of (trace st)
  ∧ ∃ cs, calls_of (trace st') = calls_of (trace st) ++ cs
          ∧ Forall (key_call mount path batch) cs.
Proof.
  revert st. induction batch as [|item batch IH]; intros st; simpl.
  - rewrite !app_nil_r. repeat split; try done. exists []. by rewrite app_nil_r.
  - destruct (IH (doSync mount (path +:+ item) (note (EvGo (path +:+ item)) st)))
      as (Ho & Hs & Hb & cs & Hc & Hcs).
    destruct (doSync_shape mount (path +:+ item) (note (EvGo (path +:+ item)) st))
      as (o & body & Ho1 & Hc1 & Hs1 & Hb1).
    rewrite Ho Hs Hb Hc Ho1 Hc1 Hs1 Hb1.
    rewrite /note /= /outcomes_of /calls_of /started_of /batches_of !omap_app /=.
    rewrite !app_nil_r. rewrite !fmap_app /= -!app_assoc /=.
    repeat split; try done.
    eexists. split; [done|]. apply Forall_app. split.
    + eapply Forall_impl; [apply worker_calls_key|].
      intros c. apply key_call_mono.
      intros x ->%list_elem_of_singleton. apply list_elem_of_here.
    + eapply Forall_impl; [exact Hcs|]. intros c. apply key_call_mono.
      intros x Hx. by apply list_elem_of_further.
Qed.

Lemma batchSync_keys mount path batch (st : State W) :
  (outcomes_of (trace (batchSync mount path batch st))).*1
  = (outcomes_of (trace st)).*1 ++ ((λ item, path +:+ item) <$> batch)
  ∧ started_of (trace (batchSync mount path batch st))
    = started_of (trace st) ++ ((λ item, path +:+ item) <$> batch)
  ∧ ∃ cs, calls_of (trace (batchSync mount path batch st)) = calls_of (trace st) ++ cs
          ∧ Forall (key_call mount path batch) cs.
Proof.
  unfold batchSync.
  destruct (workers_keys mount path batch (note (EvBatch batch) st)) as (Ho & Hs & _ & Hc).
  rewrite Ho Hs. destruct Hc as (cs & -> & Hcs).
  rewrite /note /= /outcomes_of /calls_of /started_of !omap_app /= !app_nil_r.
  repeat split; try done. by exists cs.
Qed.

Lemma loop_head_batch_sub srcList batchSize i batch :
  loop_head srcList batchSize i = LoopBatch batch → batch ⊆ srcList.
Proof.
  unfold loop_head. case_bool_decide; [|done].
  destruct (GoInt.slice _ _ _) as [b|] eqn:Hs; [|done]. intros [= <-].
  unfold GoInt.slice in Hs. case_bool_decide; [|done].
  set (end_ := if bool_decide _ then _ else _) in Hs. simplify_eq.
  intros x Hx. by apply (subseteq_drop (Z.to_nat i)), (subseteq_take (Z.to_nat (end_ - i))).
Qed.

Lemma Sync_loop_keys fuel mount path srcList batchSize i (st : State W) :
  let st' := (Sync_loop fuel mount path srcList batchSize i st).2 in
  (outcomes_of (trace st')).*1
  = (outcomes_of (trace st)).*1
    ++ ((λ item, path +:+ item) <$> concat (plan_from fuel srcList batchSize i))
  ∧ started_of (trace st')
    = started_of (trace st)
      ++ ((λ item, path +:+ item) <$> concat (plan_from fuel srcList batchSize i))
  ∧ ∃ cs, calls_of (trace st') = calls_of (trace st) ++ cs
          ∧ Forall (key_call mount path srcList) cs.
Proof.
  revert i st. induction fuel as [|fuel IH]; intros i st; simpl.
  - rewrite !app_nil_r. repeat split; try done. exists []. by rewrite app_nil_r.
  - destruct (loop_head srcList batchSize i) as [| |batch] eqn:Hhead; simpl.
    1,2: rewrite !app_nil_r; repeat split; try done; exists []; by rewrite app_nil_r.
    destruct (IH (GoInt.add i batchSize) (batchSync mount path batch st))
      as (Ho & Hs & cs & Hc & Hcs).
    destruct (batchSync_keys mount path batch st) as (Ho1 & Hs1 & cs1 & Hc1 & Hcs1).
    rewrite Ho Hs Hc Ho1 Hs1 Hc1 !fmap_app -!app_assoc.
    split; [done|]. split; [done|].
    exists (cs1 ++ cs). split; [done|]. apply Forall_app. split; [|done].
    eapply Forall_impl; [exact Hcs1|]. intros c. apply key_call_mono.
    exact (loop_head_batch_sub _ _ _ _ Hhead).
Qed.
End MoreLoopFacts.

Section MoreSyncFacts.
Context {W : Type} `{!Backend W}.

Lemma log_outcomes lvl msg (st : State W) :
  outcome_of_msg msg = None →
  outcomes_of (trace (log lvl msg "" st)) = outcomes_of (trace st).
Proof.
  intros Hm. rewrite /log /= outcomes_of_app /= Hm /=. by rewrite app_nil_r.
Qed.

Lemma log_calls lvl msg secret (st : State W) :
  calls_of (trace (log lvl msg secret st)) = calls_of (trace st).
Proof. rewrite /log /= calls_of_app /=. by rewrite app_nil_r. Qed.

Lemma listSourcePath_outcomes mount path (st : State W) :
  outcomes_of (trace (listSourcePath mount path st).2) = outcomes_of (trace st).
Proof.
  rewrite listSourcePath_trace outcomes_of_app /=. by rewrite app_nil_r.
Qed.

Lemma listSourcePath_calls mount path (st : State W) :
  calls_of (trace (listSourcePath mount path st).2)
  = calls_of (trace st) ++ [VaultList OnSource (mount +:+ "/metadata/" +:+ path) mount].
Proof. by rewrite listSourcePath_trace calls_of_app /=. Qed.
End MoreSyncFacts.

(** X7. Enumeration hands the keys of the listing on as they are: in the
    order of the listing, with their repetitions, folders (keys ending in
    a slash) and empty keys included. *)
Theorem listSourcePath_keys {W : Type} `{!Backend W}
    (mount path : string) (st : State W) (l : Response) (w' : W) (keys : list string) :
  vault_call (VaultList OnSource (mount +:+ "/metadata/" +:+ path) mount) (world st)
    = (Ok l, w') →
  lookup_field "keys" (Data l) = Some (VArray (VString <$> keys)) →
  (listSourcePath mount path st).1 = Returns (Ok keys)
  ∧ world (listSourcePath mount path st).2 = w'.
Proof.
  intros Hcall Hkeys.
  by rewrite /listSourcePath /call /log /= Hcall Hkeys keys_of_strings.
Qed.

Lemma listSourcePath_keys_witness :
  vault_call (VaultList OnSource ("secret" +:+ "/metadata/" +:+ "team/") "secret")
    (world (start (team_world [("keys", VArray (VString <$> ["b"; "sub/"; "b"; ""]))] no_fault)))
  = (Ok {| Data := [("keys", VArray (VString <$> ["b"; "sub/"; "b"; ""]))] |},
     team_world [("keys", VArray (VString <$> ["b"; "sub/"; "b"; ""]))] no_fault)
  ∧ lookup_field "keys" (Data {| Data := [("keys", VArray (VString <$> ["b"; "sub/"; "b"; ""]))] |})
    = Some (VArray (VString <$> ["b"; "sub/"; "b"; ""]))
  ∧ (listSourcePath "secret" "team/"
       (start (team_world [("keys", VArray (VString <$> ["b"; "sub/"; "b"; ""]))] no_fault))).1
    = Returns (Ok ["b"; "sub/"; "b"; ""]).
Proof.
  split; [reflexivity|]. split; [reflexivity|].
  exact (proj1 (listSourcePath_keys "secret" "team/"
                  (start (team_world [("keys", VArray (VString <$> ["b"; "sub/"; "b"; ""]))]
                            no_fault)) _ _ ["b"; "sub/"; "b"; ""] eq_refl eq_refl)).
Defined.

(** X8. A listing with a key that is not a string makes [Sync] panic (the
    type assertion [vv.(string)] is unchecked), before any worker is
    started and with no other call than the listing. *)
Theorem Sync_key_not_a_string {W : Type} `{!Backend W}
    (s : Syncer) (sv : Vault) (l : Response) (w' : W) (v : list Value)
    (st : State W) (fuel : nat) :
  SourceVault (cfg s) = Some sv →
  vault_call (VaultList OnSource (Mount sv +:+ "/metadata/" +:+ Path sv) (Mount sv))
    (world st) = (Ok l, w') →
  lookup_field "keys" (Data l) = Some (VArray v) →
  (∃ x, x ∈ v ∧ ∀ k, x ≠ VString k) →
  (Sync fuel s st).1 = Panics
  ∧ started_of (trace (Sync fuel s st).2) = started_of (trace st)
  ∧ calls_of (trace (Sync fuel s st).2)
    = calls_of (trace st)
      ++ [VaultList OnSource (Mount sv +:+ "/metadata/" +:+ Path sv) (Mount sv)].
Proof.
  intros Hsv Hcall Hkeys Hbad.
  rewrite /Sync Hsv /listSourcePath /call /log /= Hcall Hkeys (keys_of_panics _ _ Hbad) /=.
  rewrite /started_of /calls_of !omap_app /=. by rewrite !app_nil_r.
Qed.

Lemma Sync_key_not_a_string_witness :
  SourceVault (cfg (team_syncer 2)) = Some team_vault
  ∧ vault_call (VaultList OnSource (Mount team_vault +:+ "/metadata/" +:+ Path team_vault)
                  (Mount team_vault))
      (world (start (team_world mixed_keys no_fault)))
    = (Ok {| Data := mixed_keys |}, team_world mixed_keys no_fault)
  ∧ lookup_field "keys" (Data {| Data := mixed_keys |})
    = Some (VArray [VString "a"; VNumber "7"; VString "c"])
  ∧ (∃ x, x ∈ [VString "a"; VNumber "7"; VString "c"] ∧ ∀ k, x ≠ VString k)
  ∧ (Sync 5 (team_syncer 2) (start (team_world mixed_keys no_fault))).1 = Panics.
Proof.
  assert (∃ x, x ∈ [VString "a"; VNumber "7"; VString "c"] ∧ ∀ k, x ≠ VString k) as H4.
  { exists (VNumber "7"). split; [|done]. apply list_elem_of_further, list_elem_of_here. }
  split; [reflexivity|]. split; [reflexivity|]. split; [reflexivity|]. split; [exact H4|].
  exact (proj1 (Sync_key_not_a_string (team_syncer 2) team_vault _ _ _
                  (start (team_world mixed_keys no_fault)) 5 eq_refl eq_refl eq_refl H4)).
Defined.

(** X9. When the listing call fails, [Sync] returns a run-level error
    that wraps the client's error (under the prefix of [listSourcePath]
    and again under that of [Sync]); the listing is the only call made,
    and no worker is started. *)
Theorem Sync_list_failed {W : Type} `{!Backend W}
    (s : Syncer) (sv : Vault) (err : error) (w' : W) (st : State W) (fuel : nat) :
  SourceVault (cfg s) = Some sv →
  vault_call (VaultList OnSource (Mount sv +:+ "/metadata/" +:+ Path sv) (Mount sv))
    (world st) = (Err err, w') →
  (Sync fuel s st).1 = Returns (Some (ListFailed (ListFailed err)))
  ∧ calls_of (trace (Sync fuel s st).2)
    = calls_of (trace st)
      ++ [VaultList OnSource (Mount sv +:+ "/metadata/" +:+ Path sv) (Mount sv)]
  ∧ started_of (trace (Sync fuel s st).2) = started_of (trace st)
  ∧ world (Sync fuel s st).2 = w'.
Proof.
  intros Hsv Hcall. rewrite /Sync Hsv /listSourcePath /call /log /= Hcall /=.
  rewrite /started_of /calls_of !omap_app /=. by rewrite !app_nil_r.
Qed.

Lemma Sync_list_failed_witness :
  SourceVault (cfg (team_syncer 2)) = Some team_vault
  ∧ vault_call (VaultList OnSource (Mount team_vault +:+ "/metadata/" +:+ Path team_vault)
                  (Mount team_vault))
      (world (start (team_world team_keys all_fail)))
    = (Err (LibError "request failed"), team_world team_keys all_fail)
  ∧ (Sync 5 (team_syncer 2) (start (team_world team_keys all_fail))).1
    = Returns (Some (ListFailed (ListFailed (LibError "request failed")))).
Proof.
  split; [reflexivity|]. split; [reflexivity|].
  exact (proj1 (Sync_list_failed (team_syncer 2) team_vault _ _
                  (start (team_world team_keys all_fail)) 5 eq_refl eq_refl)).
Defined.

(** X10. When the read of the source fails, the worker makes no other
    call: nothing is written to, or read from, the destination, and the
    one outcome it records for the key is [ReadFailed]. *)
Theorem doSync_read_failed {W : Type} `{!Backend W}
    (mount path : string) (st : State W) (w1 : W) (err : error) :
  vault_call (VaultRead OnSource (mount +:+ "/data/" +:+ path) mount) (world st)
    = (Err err, w1) →
  calls_of (trace (doSync mount path st))
    = calls_of (trace st) ++ [VaultRead OnSource (mount +:+ "/data/" +:+ path) mount]
  ∧ outcomes_of (trace (doSync mount path st))
    = outcomes_of (trace st) ++ [(path, ReadFailed)]
  ∧ world (doSync mount path st) = w1.
Proof.
  intros Hread. rewrite /doSync /call /note /log /= Hread /=.
  rewrite /calls_of /outcomes_of !omap_app /=. by rewrite !app_nil_r.
Qed.

Lemma doSync_read_failed_witness :
  vault_call (VaultRead OnSource ("secret" +:+ "/data/" +:+ "team/zulu") "secret")
    (world (start (team_world team_keys no_fault)))
    = (Err (LibError "404 Not Found"), team_world team_keys no_fault)
  ∧ outcomes_of (trace (doSync "secret" "team/zulu" (start (team_world team_keys no_fault))))
    = [("team/zulu", ReadFailed)].
Proof.
  assert (vault_call (VaultRead OnSource ("secret" +:+ "/data/" +:+ "team/zulu") "secret")
    (world (start (team_world team_keys no_fault)))
    = (Err (LibError "404 Not Found"), team_world team_keys no_fault)) as H1
    by (vm_compute; reflexivity).
  split; [exact H1|].
  exact (proj1 (proj2 (doSync_read_failed "secret" "team/zulu"
                         (start (team_world team_keys no_fault)) _ _ H1))).
Defined.

(** X11. When the secret has been read and written and the read back of
    the destination fails, the outcome is [VerifyReadFailed]: the secret
    stays written, and nothing is compared. *)
Theorem doSync_verify_read_failed {W : Type} `{!Backend W}
    (mount path : string) (st : State W) (srcResp wr : Response) (w1 w2 w3 : W)
    (err : error) :
  vault_call (VaultRead OnSource (mount +:+ "/data/" +:+ path) mount) (world st)
    = (Ok srcResp, w1) →
  vault_call (VaultWrite OnDestination (mount +:+ "/data/" +:+ path) (Data srcResp) mount) w1
    = (Ok wr, w2) →
  vault_call (VaultRead OnDestination (mount +:+ "/data/" +:+ path) mount) w2
    = (Err err, w3) →
  calls_of (trace (doSync mount path st))
    = calls_of (trace st) ++ worker_calls mount path (Data srcResp)
  ∧ outcomes_of (trace (doSync mount path st))
    = outcomes_of (trace st) ++ [(path, VerifyReadFailed)]
  ∧ world (doSync mount path st) = w3.
Proof.
  intros Hread Hwrite Hback.
  rewrite /doSync /call /note /log /= Hread /= Hwrite /= Hback /=.
  rewrite /calls_of /outcomes_of !omap_app /=. by rewrite !app_nil_r -!app_assoc.
Qed.

Lemma doSync_verify_read_failed_witness :
  vault_call (VaultRead OnSource ("secret" +:+ "/data/" +:+ "team/a") "secret")
    (world (start (team_world team_keys verify_fails)))
    = (Ok {| Data := secret_of "alpha" |}, team_world team_keys verify_fails)
  ∧ vault_call (VaultWrite OnDestination ("secret" +:+ "/data/" +:+ "team/a")
                  (Data {| Data := secret_of "alpha" |}) "secret")
      (team_world team_keys verify_fails)
    = (Ok {| Data := [] |},
       (vault_call (VaultWrite OnDestination ("secret" +:+ "/data/" +:+ "team/a")
                      (secret_of "alpha") "secret") (team_world team_keys verify_fails)).2)
  ∧ vault_call (VaultRead OnDestination ("secret" +:+ "/data/" +:+ "team/a") "secret")
      (vault_call (VaultWrite OnDestination ("secret" +:+ "/data/" +:+ "team/a")
                     (secret_of "alpha") "secret") (team_world team_keys verify_fails)).2
    = (Err (LibError "request failed"),
       (vault_call (VaultWrite OnDestination ("secret" +:+ "/data/" +:+ "team/a")
                      (secret_of "alpha") "secret") (team_world team_keys verify_fails)).2)
  ∧ outcomes_of (trace (doSync "secret" "team/a" (start (team_world team_keys verify_fails))))
    = [("team/a", VerifyReadFailed)]
  ∧ dst_kv (world (doSync "secret" "team/a" (start (team_world team_keys verify_fails))))
      !! "secret/data/team/a" = Some (secret_of "alpha").
Proof.
  assert (vault_call (VaultRead OnSource ("secret" +:+ "/data/" +:+ "team/a") "secret")
    (world (start (team_world team_keys verify_fails)))
    = (Ok {| Data := secret_of "alpha" |}, team_world team_keys verify_fails)) as H1
    by (vm_compute; reflexivity).
  assert (vault_call (VaultWrite OnDestination ("secret" +:+ "/data/" +:+ "team/a")
                  (Data {| Data := secret_of "alpha" |}) "secret")
      (team_world team_keys verify_fails)
    = (Ok {| Data := [] |},
       (vault_call (VaultWrite OnDestination ("secret" +:+ "/data/" +:+ "team/a")
                      (secret_of "alpha") "secret") (team_world team_keys verify_fails)).2))
    as H2 by reflexivity.
  assert (vault_call (VaultRead OnDestination ("secret" +:+ "/data/" +:+ "team/a") "secret")
      (vault_call (VaultWrite OnDestination ("secret" +:+ "/data/" +:+ "team/a")
                     (secret_of "alpha") "secret") (team_world team_keys verify_fails)).2
    = (Err (LibError "request failed"),
       (vault_call (VaultWrite OnDestination ("secret" +:+ "/data/" +:+ "team/a")
                      (secret_of "alpha") "secret") (team_world team_keys verify_fails)).2))
    as H3 by reflexivity.
  repeat (split; [assumption|]).
  split; [exact (proj1 (proj2 (doSync_verify_read_failed "secret" "team/a"
                    (start (team_world team_keys verify_fails)) _ _ _ _ _ _ H1 H2 H3)))|].
  rewrite (proj2 (proj2 (doSync_verify_read_failed "secret" "team/a"
                    (start (team_world team_keys verify_fails)) _ _ _ _ _ _ H1 H2 H3))).
  vm_compute. reflexivity.
Defined.

(** X12. When the three calls of a worker succeed, what it wrote is the
    whole body of the source's answer, and its verdict rests on the [data]
    entries of the two answers alone: [Synced] when their digests agree,
    [Mismatch] otherwise. *)
Theorem doSync_compares_data {W : Type} `{!Backend W}
    (mount path : string) (st : State W) (srcResp wr destResp : Response) (w1 w2 w3 : W) :
  vault_call (VaultRead OnSource (mount +:+ "/data/" +:+ path) mount) (world st)
    = (Ok srcResp, w1) →
  vault_call (VaultWrite OnDestination (mount +:+ "/data/" +:+ path) (Data srcResp) mount) w1
    = (Ok wr, w2) →
  vault_call (VaultRead OnDestination (mount +:+ "/data/" +:+ path) mount) w2
    = (Ok destResp, w3) →
  calls_of (trace (doSync mount path st))
    = calls_of (trace st) ++ worker_calls mount path (Data srcResp)
  ∧ outcomes_of (trace (doSync mount path st))
    = outcomes_of (trace st)
      ++ [(path, if eq (index_map (Data srcResp) "data") (index_map (Data destResp) "data")
                 then Synced else Mismatch)]
  ∧ world (doSync mount path st) = w3.
Proof.
  intros Hread Hwrite Hback.
  rewrite /doSync /call /note /log /= Hread /= Hwrite /= Hback /=.
  destruct (eq _ _); rewrite /calls_of /outcomes_of !omap_app /=;
    by rewrite !app_nil_r -!app_assoc.
Qed.

Lemma doSync_compares_data_witness :
  vault_call (VaultRead OnSource ("secret" +:+ "/data/" +:+ "team/a") "secret")
    (world (start (team_world team_keys no_fault)))
    = (Ok {| Data := secret_of "alpha" |}, team_world team_keys no_fault)
  ∧ outcomes_of (trace (doSync "secret" "team/a" (start (team_world team_keys no_fault))))
    = [("team/a", Synced)]
  ∧ dst_kv (world (doSync "secret" "team/a" (start (team_world team_keys no_fault))))
      !! "secret/data/team/a" = Some (secret_of "alpha").
Proof.
  assert (vault_call (VaultRead OnSource ("secret" +:+ "/data/" +:+ "team/a") "secret")
    (world (start (team_world team_keys no_fault)))
    = (Ok {| Data := secret_of "alpha" |}, team_world team_keys no_fault)) as H1
    by (vm_compute; reflexivity).
  split; [exact H1|].
  pose proof (doSync_compares_data "secret" "team/a" (start (team_world team_keys no_fault))
                _ _ _ _ _ _ H1 eq_refl eq_refl) as (_ & Ho & Hw).
  split; [rewrite Ho; vm_compute; reflexivity|rewrite Hw; vm_compute; reflexivity].
Defined.

(** X13. When the three calls of a worker succeed and the [data] entries
    of the two answers hold the same field values, in whatever field
    order, the outcome is [Synced], whatever else the answers hold.  Two
    answers without a [data] entry count as the same: both read as
    [nil]. *)
Theorem doSync_same_data_synced {W : Type} `{!Backend W}
    (mount path : string) (st : State W) (srcResp wr destResp : Response) (w1 w2 w3 : W) :
  vault_call (VaultRead OnSource (mount +:+ "/data/" +:+ path) mount) (world st)
    = (Ok srcResp, w1) →
  vault_call (VaultWrite OnDestination (mount +:+ "/data/" +:+ path) (Data srcResp) mount) w1
    = (Ok wr, w2) →
  vault_call (VaultRead OnDestination (mount +:+ "/data/" +:+ path) mount) w2
    = (Ok destResp, w3) →
  wf_value (index_map (Data srcResp) "data") = true →
  wf_value (index_map (Data destResp) "data") = true →
  same_document (index_map (Data srcResp) "data") (index_map (Data destResp) "data") = true →
  outcomes_of (trace (doSync mount path st)) = outcomes_of (trace st) ++ [(path, Synced)].
Proof.
  intros Hread Hwrite Hback Hws Hwd Hsame.
  rewrite /doSync /call /note /log /= Hread /= Hwrite /= Hback /=.
  assert (eq (index_map (Data srcResp) "data") (index_map (Data destResp) "data") = true)
    as ->.
  { unfold eq. apply bool_decide_eq_true. by rewrite (same_document_Marshal _ _ Hws Hwd Hsame). }
  rewrite /outcomes_of !omap_app /=. by rewrite !app_nil_r.
Qed.

Lemma doSync_same_data_synced_witness :
  vault_call (VaultRead OnSource ("secret" +:+ "/data/" +:+ "team/a") "secret")
    (world (start bare_world))
    = (Ok {| Data := [("metadata", VMap [("version", VNumber "1")])] |}, bare_world)
  ∧ lookup_field "data" [("metadata", VMap [("version", VNumber "1")])] = None
  ∧ outcomes_of (trace (doSync "secret" "team/a" (start bare_world)))
    = [("team/a", Synced)].
Proof.
  assert (vault_call (VaultRead OnSource ("secret" +:+ "/data/" +:+ "team/a") "secret")
    (world (start bare_world))
    = (Ok {| Data := [("metadata", VMap [("version", VNumber "1")])] |}, bare_world)) as H1
    by (vm_compute; reflexivity).
  split; [exact H1|]. split; [reflexivity|].
  assert (vault_call (VaultRead OnDestination ("secret" +:+ "/data/" +:+ "team/a") "secret")
            (vault_call (VaultWrite OnDestination ("secret" +:+ "/data/" +:+ "team/a")
               [("metadata", VMap [("version", VNumber "1")])] "secret") bare_world).2
          = (Ok {| Data := [("metadata", VMap [("version", VNumber "1")])] |},
             (vault_call (VaultWrite OnDestination ("secret" +:+ "/data/" +:+ "team/a")
               [("metadata", VMap [("version", VNumber "1")])] "secret") bare_world).2)) as H3
    by (vm_compute; reflexivity).
  exact (doSync_same_data_synced "secret" "team/a" (start bare_world)
           _ _ _ _ _ _ H1 eq_refl H3 eq_refl eq_refl eq_refl).
Defined.

(** X14. Whatever the backend answers, a worker records exactly one
    outcome for its key, and its calls are the first one, two or three of
    the read of the source, the write to the destination and the read
    back of the destination, at the same data path, as many as that
    outcome tells; it starts no goroutine and no batch. *)
Theorem doSync_one_outcome {W : Type} `{!Backend W}
    (mount path : string) (st : State W) :
  ∃ o body,
    outcomes_of (trace (doSync mount path st)) = outcomes_of (trace st) ++ [(path, o)]
    ∧ calls_of (trace (doSync mount path st))
      = calls_of (trace st) ++ take (calls_made o) (worker_calls mount path body)
    ∧ started_of (trace (doSync mount path st)) = started_of (trace st)
    ∧ batches_of (trace (doSync mount path st)) = batches_of (trace st).
Proof. apply doSync_shape. Qed.

(** X15. With a positive batch size every enumerated key has exactly one
    worker started for it, and exactly one outcome recorded, under the
    configured path followed by the key and in the order of the listing:
    no key is skipped, none is taken twice, and folders are not descended
    into. *)
Theorem Sync_every_key_once {W : Type} `{!Backend W}
    (s : Syncer) (sv : Vault) (srcList : list string) (st : State W) :
  SourceVault (cfg s) = Some sv →
  (listSourcePath (Mount sv) (Path sv) (log InfoLevel "Starting sync" "" st)).1
    = Returns (Ok srcList) →
  0 < BatchSize (cfg s) ≤ GoInt.max_int →
  GoInt.len srcList < 2 ^ 62 →
  ∀ fuel, (length srcList < fuel)%nat →
    started_of (trace (Sync fuel s st).2)
    = started_of (trace st) ++ ((λ key, Path sv +:+ key) <$> srcList)
    ∧ (outcomes_of (trace (Sync fuel s st).2)).*1
      = (outcomes_of (trace st)).*1 ++ ((λ key, Path sv +:+ key) <$> srcList).
Proof.
  intros Hsv Henum Hbs Hlen fuel Hfuel.
  pose proof (listSourcePath_started (Mount sv) (Path sv)
                (log InfoLevel "Starting sync" "" st)) as Hs0.
  pose proof (listSourcePath_outcomes (Mount sv) (Path sv)
                (log InfoLevel "Starting sync" "" st)) as Ho0.
  destruct (listSourcePath _ _ _) as [r st1] eqn:Hl. simpl in Henum, Hs0, Ho0. subst r.
  rewrite log_started in Hs0. rewrite log_outcomes in Ho0; [done|].
  destruct (Sync_loop_positive (Mount sv) (Path sv) srcList (BatchSize (cfg s)) Hbs Hlen
              fuel 0 st1) as (st' & bl & Hloop & Hb & Hcat & _);
    [lia|by left|unfold GoInt.len; lia|].
  pose proof (Sync_loop_plan fuel (Mount sv) (Path sv) srcList (BatchSize (cfg s)) 0 st1)
    as Hplan.
  rewrite Hloop /= Hb in Hplan. apply app_inv_head in Hplan.
  destruct (Sync_loop_keys fuel (Mount sv) (Path sv) srcList (BatchSize (cfg s)) 0 st1)
    as (Ho & Hs & _).
  rewrite Hloop /= -Hplan Hcat drop_0 in Ho, Hs.
  rewrite (Sync_enumerated _ _ _ _ _ _ Hsv Hl) Hloop /=.
  rewrite log_started log_outcomes; [done|]. by rewrite Hs Ho Hs0 Ho0.
Qed.

Lemma Sync_every_key_once_witness :
  SourceVault (cfg (team_syncer 2)) = Some team_vault
  ∧ (listSourcePath (Mount team_vault) (Path team_vault)
       (log InfoLevel "Starting sync" "" (start (team_world team_keys write_b_fails)))).1
      = Returns (Ok ["a"; "b"; "c"])
  ∧ 0 < BatchSize (cfg (team_syncer 2)) ≤ GoInt.max_int
  ∧ GoInt.len ["a"; "b"; "c"] < 2 ^ 62
  ∧ (length ["a"; "b"; "c"] < 4)%nat
  ∧ started_of (trace (Sync 4 (team_syncer 2)
                         (start (team_world team_keys write_b_fails))).2)
    = ["team/a"; "team/b"; "team/c"].
Proof.
  assert (SourceVault (cfg (team_syncer 2)) = Some team_vault) as H1 by reflexivity.
  assert ((listSourcePath (Mount team_vault) (Path team_vault)
       (log InfoLevel "Starting sync" "" (start (team_world team_keys write_b_fails)))).1
      = Returns (Ok ["a"; "b"; "c"])) as H2 by (vm_compute; reflexivity).
  assert (0 < BatchSize (cfg (team_syncer 2)) ≤ GoInt.max_int) as H3
    by (vm_compute; split; [reflexivity | discriminate]).
  assert (GoInt.len ["a"; "b"; "c"] < 2 ^ 62) as H4 by (vm_compute; reflexivity).
  assert (length ["a"; "b"; "c"] < 4)%nat as H5 by (simpl; lia).
  repeat (split; [assumption|]).
  exact (proj1 (Sync_every_key_once (team_syncer 2) team_vault ["a"; "b"; "c"]
                  (start (team_world team_keys write_b_fails)) H1 H2 H3 H4 4%nat H5)).
Defined.

(** X16. Whatever the batch size, every call of a run after the listing is
    on the data path of an enumerated key under the mount and path of the
    source section, and carries the source's mount option: this holds of
    the calls on the destination client too. *)
Theorem Sync_calls_for_listed_keys {W : Type} `{!Backend W}
    (s : Syncer) (sv : Vault) (srcList : list string) (st : State W) (fuel : nat) :
  SourceVault (cfg s) = Some sv →
  (listSourcePath (Mount sv) (Path sv) (log InfoLevel "Starting sync" "" st)).1
    = Returns (Ok srcList) →
  ∃ cs,
    calls_of (trace (Sync fuel s st).2)
    = calls_of (trace st)
      ++ VaultList OnSource (Mount sv +:+ "/metadata/" +:+ Path sv) (Mount sv) :: cs
    ∧ Forall (key_call (Mount sv) (Path sv) srcList) cs.
Proof.
  intros Hsv Henum.
  pose proof (listSourcePath_calls (Mount sv) (Path sv)
                (log InfoLevel "Starting sync" "" st)) as Hc0.
  destruct (listSourcePath _ _ _) as [r st1] eqn:Hl. simpl in Henum, Hc0. subst r.
  rewrite log_calls in Hc0.
  destruct (Sync_loop_keys fuel (Mount sv) (Path sv) srcList (BatchSize (cfg s)) 0 st1)
    as (_ & _ & cs & Hc & Hcs).
  exists cs. split; [|done].
  rewrite (Sync_enumerated _ _ _ _ _ _ Hsv Hl).
  destruct (Sync_loop _ _ _ _ _ _ _) as [[| |] st2]; simpl in *;
    rewrite ?log_calls Hc Hc0 -app_assoc; done.
Qed.

Lemma Sync_calls_for_listed_keys_witness :
  SourceVault (cfg (moved_syncer 2)) = Some team_vault
  ∧ (listSourcePath (Mount team_vault) (Path team_vault)
       (log InfoLevel "Starting sync" "" (start (team_world team_keys no_fault)))).1
      = Returns (Ok ["a"; "b"; "c"])
  ∧ ∃ cs,
      calls_of (trace (Sync 4 (moved_syncer 2) (start (team_world team_keys no_fault))).2)
      = calls_of (trace (start (team_world team_keys no_fault)))
        ++ VaultList OnSource (Mount team_vault +:+ "/metadata/" +:+ Path team_vault)
             (Mount team_vault) :: cs
      ∧ Forall (key_call (Mount team_vault) (Path team_vault) ["a"; "b"; "c"]) cs.
Proof.
  assert (SourceVault (cfg (moved_syncer 2)) = Some team_vault) as H1 by reflexivity.
  assert ((listSourcePath (Mount team_vault) (Path team_vault)
       (log InfoLevel "Starting sync" "" (start (team_world team_keys no_fault)))).1
      = Returns (Ok ["a"; "b"; "c"])) as H2 by (vm_compute; reflexivity).
  repeat (split; [assumption|]).
  exact (Sync_calls_for_listed_keys (moved_syncer 2) team_vault ["a"; "b"; "c"]
           (start (team_world team_keys no_fault)) 4 H1 H2).
Defined.

(** X17. The destination section of the configuration plays no part in
    [Sync]: two syncers with the same clients, batch size and source
    section run alike.  The mount and path the destination is written
    under are those of the source. *)
Theorem Sync_ignores_destination_section {W : Type} `{!Backend W}
    (s s' : Syncer) (st : State W) (fuel : nat) :
  BatchSize (cfg s) = BatchSize (cfg s') →
  SourceVault (cfg s) = SourceVault (cfg s') →
  sourceVault s = sourceVault s' →
  destinationVault s = destinationVault s' →
  Sync fuel s st = Sync fuel s' st.
Proof. intros Hb Hs _ _. by rewrite /Sync Hb Hs. Qed.

Lemma Sync_ignores_destination_section_witness :
  BatchSize (cfg (team_syncer 2)) = BatchSize (cfg (moved_syncer 2))
  ∧ SourceVault (cfg (team_syncer 2)) = SourceVault (cfg (moved_syncer 2))
  ∧ sourceVault (team_syncer 2) = sourceVault (moved_syncer 2)
  ∧ destinationVault (team_syncer 2) = destinationVault (moved_syncer 2)
  ∧ DestinationVault (cfg (team_syncer 2)) ≠ DestinationVault (cfg (moved_syncer 2))
  ∧ Sync 4 (team_syncer 2) (start (team_world team_keys no_fault))
    = Sync 4 (moved_syncer 2) (start (team_world team_keys no_fault)).
Proof.
  split; [reflexivity|]. split; [reflexivity|]. split; [reflexivity|].
  split; [reflexivity|]. split; [discriminate|].
  exact (Sync_ignores_destination_section (team_syncer 2) (moved_syncer 2)
           (start (team_world team_keys no_fault)) 4 eq_refl eq_refl eq_refl eq_refl).
Defined.

Section ConcTally.
Context {W : Type} `{!Backend W}.
Variables (mount path : string) (srcList : list string) (batchSize : Z).

Local Abbreviation step := (Conc.step (W:=W) mount path srcList batchSize).
Local Abbreviation run := (Conc.run (W:=W) mount path srcList batchSize).

Lemma untag n (evs : list Event) (t : list (nat * Event)) :
  reverse ((Conc.tagged n evs ++ t).*2) = reverse (t.*2) ++ evs.
Proof.
  unfold Conc.tagged.
  rewrite fmap_app reverse_app fmap_reverse reverse_involutive -list_fmap_compose.
  f_equal. clear. induction evs as [|e evs IH]; [done|]. by rewrite fmap_cons IH.
Qed.

Lemma worker_step_outcomes secret pc (w : W) :
  pc ≠ Conc.AtDone → pc ≠ Conc.Exited →
  (outcomes_of (Conc.worker_step mount secret pc w).2).*1
  = if recorded {| Conc.g_wg := 0; Conc.g_path := secret;
                   Conc.g_pc := (Conc.worker_step mount secret pc w).1.1 |}
    then [secret] else [].
Proof.
  intros H1 H2. destruct pc; simpl; try done; repeat case_match; simplify_eq/=; done.
Qed.

Lemma filter_recorded_insert pool k g g' :
  pool !! k = Some g → Conc.g_path g' = Conc.g_path g → recorded g = false →
  Conc.g_path <$> List.filter recorded (<[k := g']> pool)
  ≡ₚ (Conc.g_path <$> List.filter recorded pool)
     ++ (if recorded g' then [Conc.g_path g] else []).
Proof.
  intros Hk Hp Hg. destruct (insert_middle pool k g g' Hk) as (l1 & l2 & -> & ->).
  rewrite !List.filter_app /= Hg. destruct (recorded g'); simpl.
  - rewrite !fmap_app /= Hp.
    etransitivity; [symmetry; apply Permutation_middle|].
    etransitivity; [apply Permutation_cons_append|]. done.
  - by rewrite app_nil_r.
Qed.

Lemma filter_recorded_same pool k g g' :
  pool !! k = Some g → Conc.g_path g' = Conc.g_path g → recorded g' = recorded g →
  Conc.g_path <$> List.filter recorded (<[k := g']> pool)
  = Conc.g_path <$> List.filter recorded pool.
Proof.
  intros Hk Hp Hg. destruct (insert_middle pool k g g' Hk) as (l1 & l2 & -> & ->).
  rewrite !List.filter_app /= Hg. destruct (recorded g); by rewrite !fmap_app /= ?Hp.
Qed.

Lemma paths_insert (pool : list Conc.Goroutine) k g g' :
  pool !! k = Some g → Conc.g_path g' = Conc.g_path g →
  Conc.g_path <$> <[k := g']> pool = Conc.g_path <$> pool.
Proof.
  intros Hk Hp. destruct (insert_middle pool k g g' Hk) as (l1 & l2 & -> & ->).
  by rewrite !fmap_app /= Hp.
Qed.

Lemma Tally_init (w : W) : Tally path (Conc.init w).
Proof. by constructor. Qed.

Local Arguments Conc.worker_step : simpl never.

Lemma Tally_step_main (c c' : Conc.CState W) :
  Tally path c → Conc.step_main path srcList batchSize c = Some c' → Tally path c'.
Proof.
  intros [Hs Hr]. destruct c as [m wg pl w tr].
  unfold Conc.step_main, recorded_outcomes in *. simpl in *.
  destruct m as [i|i [|item rest]|i item rest|i|r]; simpl in *.
  - destruct (loop_head srcList batchSize i) as [| |batch]; intros [= <-];
      constructor; unfold recorded_outcomes; simpl; try done.
    + rewrite app_nil_r in Hs.
      by rewrite reverse_cons batches_of_app /= concat_app /= app_nil_r fmap_app Hs.
    + by rewrite reverse_cons outcomes_of_app /= app_nil_r.
  - intros [= <-]. by constructor.
  - intros [= <-]. by constructor.
  - intros [= <-]. constructor; unfold recorded_outcomes; simpl.
    + rewrite reverse_cons batches_of_app /= app_nil_r -Hs fmap_app -app_assoc. done.
    + rewrite reverse_cons outcomes_of_app /= app_nil_r List.filter_app /= app_nil_r. done.
  - case_bool_decide; [|done]. intros [= <-]. by constructor.
  - done.
Qed.

Lemma Tally_step_worker k (c c' : Conc.CState W) :
  Conc.Inv srcList batchSize c →
  Tally path c → Conc.step_worker mount k c = Some c' → Tally path c'.
Proof.
  intros Hinv [Hs Hr]. unfold Conc.step_worker.
  destruct (Conc.pool c !! k) as [g|] eqn:Hk; [|done].
  assert (∀ pc, Conc.g_pc g = pc → pc ≠ Conc.AtDone → pc ≠ Conc.Exited →
            Tally path
              {| Conc.main := Conc.main c; Conc.wgs := Conc.wgs c;
                 Conc.pool := <[k := {| Conc.g_wg := Conc.g_wg g;
                                        Conc.g_path := Conc.g_path g;
                                        Conc.g_pc := (Conc.worker_step mount (Conc.g_path g) pc
                                                        (Conc.cworld c)).1.1 |}]> (Conc.pool c);
                 Conc.cworld := (Conc.worker_step mount (Conc.g_path g) pc (Conc.cworld c)).1.2;
                 Conc.ctrace := Conc.tagged (Conc.g_wg g)
                                  (Conc.worker_step mount (Conc.g_path g) pc (Conc.cworld c)).2
                                ++ Conc.ctrace c |}) as Hmoves.
  { intros pc Hpc H1 H2.
    pose proof (worker_step_outcomes (Conc.g_path g) pc (Conc.cworld c) H1 H2) as Ho.
    pose proof (worker_step_events mount (Conc.g_path g) pc (Conc.cworld c)) as He.
    constructor; unfold recorded_outcomes; simpl.
    - rewrite untag batches_of_app (proj1 (worker_events_quiet _ He)) app_nil_r.
      by rewrite (paths_insert _ _ g).
    - rewrite untag outcomes_of_app fmap_app Ho.
      etransitivity; [|symmetry; apply (filter_recorded_insert _ _ g); [done|done|]].
      + by apply Permutation_app.
      + unfold recorded. rewrite Hpc. by destruct pc. }
  destruct (Conc.g_pc g) eqn:Hpc.
  - specialize (Hmoves _ eq_refl). 
    destruct (Conc.worker_step mount (Conc.g_path g) Conc.AtSourceRead (Conc.cworld c))
      as [[pc' w'] evs]. intros [= <-]. by apply Hmoves.
  - specialize (Hmoves _ eq_refl).
    destruct (Conc.worker_step mount (Conc.g_path g) (Conc.AtDestWrite srcResp) (Conc.cworld c))
      as [[pc' w'] evs]. intros [= <-]. by apply Hmoves.
  - specialize (Hmoves _ eq_refl).
    destruct (Conc.worker_step mount (Conc.g_path g) (Conc.AtDestRead srcResp) (Conc.cworld c))
      as [[pc' w'] evs]. intros [= <-]. by apply Hmoves.
  - destruct (done_counter_positive srcList batchSize c k g Hinv Hk) as (n & Hn & Hpos).
    { unfold Conc.exited. by rewrite Hpc. }
    rewrite Hn bool_decide_eq_true_2; [done|].
    intros [= <-]; constructor; unfold recorded_outcomes; simpl.
    + by rewrite (paths_insert _ _ g).
    + rewrite (filter_recorded_same _ _ g); [done|done| |done].
      unfold recorded. by rewrite Hpc.
  - done.
Qed.

Lemma Tally_step t (c c' : Conc.CState W) :
  Conc.Inv srcList batchSize c → Tally path c → step t c = Some c' → Tally path c'.
Proof.
  intros Hinv Ht. unfold Conc.step.
  destruct (Conc.main c) as [| | | |[]] eqn:Hm; destruct t;
    try done; eauto using Tally_step_main, Tally_step_worker.
Qed.

Lemma Tally_run sched (c : Conc.CState W) :
  Conc.Inv srcList batchSize c → Tally path c → Tally path (run sched c).
Proof.
  revert c. induction sched as [|t sched IH]; intros c Hinv Ht; [done|].
  simpl. destruct (step t c) as [c'|] eqn:Hstep; simpl; apply IH; try done.
  - exact (Inv_step _ _ _ _ t c c' Hinv Hstep).
  - by apply (Tally_step t c).
Qed.
End ConcTally.

Section ConcTallyRuns.
Context {W : Type} `{!Backend W}.
Variables (mount path : string) (srcList : list string) (batchSize : Z).

Local Arguments plan_from : simpl never.

Lemma plan_concat :
  0 < batchSize ≤ GoInt.max_int → GoInt.len srcList < 2 ^ 62 → W →
  concat (plan_from (S (length srcList)) srcList batchSize 0) = srcList.
Proof.
  intros Hbs Hlen w.
  destruct (Sync_loop_positive mount path srcList batchSize Hbs Hlen
              (S (length srcList)) 0 {| world := w; trace := [] |})
    as (st' & bl & Hloop & Hb & Hcat & _); [lia|by left|unfold GoInt.len; lia|].
  pose proof (Sync_loop_plan (S (length srcList)) mount path srcList batchSize 0
                {| world := w; trace := [] |}) as Hplan.
  rewrite Hloop /= Hb /= in Hplan.
  by rewrite -Hplan Hcat drop_0.
Qed.

Lemma filter_paths_submseteq (f : Conc.Goroutine → bool) pool :
  Conc.g_path <$> List.filter f pool ⊆+ Conc.g_path <$> pool.
Proof.
  induction pool as [|g pool IH]; simpl; [done|].
  destruct (f g); simpl; [by apply submseteq_skip|by apply submseteq_cons].
Qed.

Lemma filter_recorded_all pool :
  Conc.in_flight pool = 0%nat → List.filter recorded pool = pool.
Proof.
  intros Hz. induction pool as [|g pool IH]; [done|].
  unfold Conc.in_flight in *. simpl in *.
  destruct (Conc.exited g) eqn:Hg; simpl in Hz; [|done].
  assert (recorded g = true) as ->.
  { unfold recorded, Conc.exited in *. by destruct (Conc.g_pc g). }
  by rewrite IH.
Qed.
End ConcTallyRuns.

(** X18. Under every schedule of the interleaved machine, with a positive
    batch size: the workers started so far are for the first keys of the
    listing, one for each and in its order; the outcomes logged so far are
    those of workers started, at most one for each; and when the loop has
    ended every key of the listing has its worker, and exactly one
    outcome. *)
Theorem every_schedule_every_key_once {W : Type} `{!Backend W}
    (mount path : string) (srcList : list string) (batchSize : Z)
    (w : W) (sched : list Conc.Tid) :
  0 < batchSize ≤ GoInt.max_int →
  GoInt.len srcList < 2 ^ 62 →
  (∃ rest,
     (Conc.g_path <$> Conc.pool (Conc.run mount path srcList batchSize sched (Conc.init w)))
       ++ rest
     = (λ key, path +:+ key) <$> srcList
     ∧ (Conc.main (Conc.run mount path srcList batchSize sched (Conc.init w))
        = Conc.AtEnd (Returns ()) → rest = []))
  ∧ (recorded_outcomes (Conc.run mount path srcList batchSize sched (Conc.init w))).*1
    ⊆+ Conc.g_path <$> Conc.pool (Conc.run mount path srcList batchSize sched (Conc.init w))
  ∧ (Conc.main (Conc.run mount path srcList batchSize sched (Conc.init w))
     = Conc.AtEnd (Returns ()) →
     (recorded_outcomes (Conc.run mount path srcList batchSize sched (Conc.init w))).*1
     ≡ₚ (λ key, path +:+ key) <$> srcList).
Proof.
  intros Hbs Hlen.
  pose proof (Inv_run mount path srcList batchSize sched (Conc.init w) (Inv_init _ _ w))
    as Hinv.
  pose proof (Tally_run mount path srcList batchSize sched (Conc.init w)
                (Inv_init _ _ w) (Tally_init path w)) as [Hs Hr].
  destruct (run_announced mount path srcList batchSize Hbs Hlen w sched)
    as (rest & Hplan & Hend).
  pose proof (plan_concat mount path srcList batchSize Hbs Hlen w) as Hcat.
  rewrite -Hplan concat_app in Hcat.
  set (c := Conc.run mount path srcList batchSize sched (Conc.init w)) in *.
  unfold Conc.announced in Hcat.
  assert ((Conc.g_path <$> Conc.pool c)
          ++ ((λ key, path +:+ key) <$> (keys_to_start (Conc.main c) ++ concat rest))
          = (λ key, path +:+ key) <$> srcList) as Hall.
  { by rewrite -Hcat !fmap_app -Hs -app_assoc. }
  assert (Conc.main c = Conc.AtEnd (Returns ()) →
          Conc.g_path <$> Conc.pool c = (λ key, path +:+ key) <$> srcList) as Hdone.
  { intros Hm. rewrite -Hall (Hend Hm) Hm /=. by rewrite app_nil_r. }
  split; [|split].
  - eexists. split; [exact Hall|]. intros Hm. by rewrite (Hend Hm) Hm.
  - rewrite Hr. apply filter_paths_submseteq.
  - intros Hm. rewrite Hr -(Hdone Hm) filter_recorded_all; [|done].
    apply (Conc.inv_idle _ _ _ Hinv). fold c. by rewrite Hm.
Qed.

Lemma every_schedule_every_key_once_witness :
  0 < 2 ≤ GoInt.max_int
  ∧ GoInt.len ["a"; "b"; "c"] < 2 ^ 62
  ∧ Conc.main (Conc.run "secret" "team/" ["a"; "b"; "c"] 2 last_first_schedule
                 (Conc.init (team_world team_keys no_fault)))
    = Conc.AtEnd (Returns ())
  ∧ (recorded_outcomes (Conc.run "secret" "team/" ["a"; "b"; "c"] 2 last_first_schedule
                          (Conc.init (team_world team_keys no_fault)))).*1
    = ["team/b"; "team/a"; "team/c"]
  ∧ (recorded_outcomes (Conc.run "secret" "team/" ["a"; "b"; "c"] 2 last_first_schedule
                          (Conc.init (team_world team_keys no_fault)))).*1
    ≡ₚ (λ key, "team/" +:+ key) <$> ["a"; "b"; "c"].
Proof.
  assert (0 < 2 ≤ GoInt.max_int) as H1 by (vm_compute; split; [reflexivity|discriminate]).
  assert (GoInt.len ["a"; "b"; "c"] < 2 ^ 62) as H2 by (vm_compute; reflexivity).
  assert (Conc.main (Conc.run "secret" "team/" ["a"; "b"; "c"] 2 last_first_schedule
                 (Conc.init (team_world team_keys no_fault)))
    = Conc.AtEnd (Returns ())) as H3 by (vm_compute; reflexivity).
  repeat (split; [assumption|]). split; [vm_compute; reflexivity|].
  exact (proj2 (proj2 (every_schedule_every_key_once "secret" "team/" ["a"; "b"; "c"] 2
                         (team_world team_keys no_fault) last_first_schedule H1 H2)) H3).
Defined.

(** X19. Under every schedule and for every batch size, the machine is
    never stuck before the loop of [Sync] has ended: some thread can take
    a step, so [wg.Wait()] is never waited on for ever.  The counter of
    the [WaitGroup] in hand is the number of its workers that have not
    returned (and one more between [wg.Add(1)] and the [go] statement),
    and every worker that has not returned finds its counter positive:
    [wg.Done()] never panics on a negative counter. *)
Theorem WaitGroup_never_stuck {W : Type} `{!Backend W}
    (mount path : string) (srcList : list string) (batchSize : Z)
    (w : W) (sched : list Conc.Tid) :
  ((∀ r, Conc.main (Conc.run mount path srcList batchSize sched (Conc.init w))
         ≠ Conc.AtEnd r) →
   ∃ t c', Conc.step mount path srcList batchSize t
             (Conc.run mount path srcList batchSize sched (Conc.init w)) = Some c')
  ∧ (Conc.wgs (Conc.run mount path srcList batchSize sched (Conc.init w)) ≠ [] →
     Conc.wgs (Conc.run mount path srcList batchSize sched (Conc.init w))
       !! Conc.cur (Conc.run mount path srcList batchSize sched (Conc.init w))
     = Some (Z.of_nat (Conc.in_flight
                         (Conc.pool (Conc.run mount path srcList batchSize sched
                                       (Conc.init w))))
             + Conc.pending (Conc.main (Conc.run mount path srcList batchSize sched
                                          (Conc.init w)))))
  ∧ (∀ k g,
       Conc.pool (Conc.run mount path srcList batchSize sched (Conc.init w)) !! k = Some g →
       Conc.exited g = false →
       ∃ n, Conc.wgs (Conc.run mount path srcList batchSize sched (Conc.init w))
              !! Conc.g_wg g = Some n ∧ 0 < n).
Proof.
  pose proof (Inv_run mount path srcList batchSize sched (Conc.init w) (Inv_init _ _ w))
    as Hinv.
  split; [|split].
  - intros Hm. by apply machine_progress.
  - apply (Conc.inv_counter _ _ _ Hinv).
  - intros k g Hk Hg. by apply (done_counter_positive srcList batchSize _ k g).
Qed.

Section ConcIdle.
Context {W : Type} `{!Backend W}.
Variables (mount path : string) (srcList : list string) (batchSize : Z).
Hypothesis Hne : srcList ≠ [].
Hypothesis Hbs : GoInt.min_int ≤ batchSize ≤ 0.

Lemma loop_head_nonpositive :
  loop_head srcList batchSize 0
  = if bool_decide (batchSize = 0) then LoopBatch [] else LoopPanic.
Proof.
  assert (0 < GoInt.len srcList) as Hpos.
  { unfold GoInt.len. destruct srcList; [done|simpl; lia]. }
  unfold loop_head. rewrite bool_decide_eq_true_2; [done|].
  unfold GoInt.add. rewrite Z.add_0_l wrap_in_range.
  { unfold GoInt.in_range, GoInt.max_int, GoInt.min_int in *. lia. }
  rewrite (bool_decide_eq_false_2 (batchSize > _)); [lia|].
  unfold GoInt.slice. case_bool_decide as Hz.
  - assert (batchSize = 0) as -> by lia. by rewrite bool_decide_eq_true_2.
  - rewrite bool_decide_eq_false_2; [lia|]. done.
Qed.

Lemma idle_step w t c c' :
  idle batchSize w c → Conc.step mount path srcList batchSize t c = Some c' → idle batchSize w c'.
Proof.
  intros (Hpool & Hw & Hc & Hm). unfold Conc.step.
  destruct t as [|k].
  2: { unfold Conc.step_worker. rewrite Hpool /=. by destruct (Conc.main c) as [| | | |[]]. }
  unfold Conc.step_main.
  destruct Hm as [Hm|[[Hz [Hm|Hm]]|[Hn Hm]]]; rewrite Hm.
  - rewrite loop_head_nonpositive. case_bool_decide as Hz; intros [= <-]; simpl.
    + split; [done|]. split; [done|]. split.
      { by rewrite reverse_cons calls_of_app Hc. }
      right. left. by split; [|left].
    + split; [done|]. split; [done|]. split; [done|]. right. right. split; [lia|done].
  - intros [= <-]. simpl. split; [done|]. split; [done|]. split; [done|].
    right. left. by split; [|right].
  - case_bool_decide; [|done]. intros [= <-]. simpl. split; [done|]. split; [done|].
    split; [done|]. left. subst. done.
  - done.
Qed.

Lemma idle_run w sched c : idle batchSize w c → idle batchSize w (Conc.run mount path srcList batchSize sched c).
Proof.
  revert c. induction sched as [|t sched IH]; intros c Hc; [done|].
  simpl. destruct (Conc.step mount path srcList batchSize t c) as [c'|] eqn:Hstep; simpl.
  - apply IH. by apply (idle_step w t c).
  - by apply IH.
Qed.

Lemma panicked_run sched (c : Conc.CState W) :
  Conc.main c = Conc.AtEnd Panics → Conc.run mount path srcList batchSize sched c = c.
Proof.
  intros Hm. induction sched as [|t sched IH]; [done|].
  simpl. unfold Conc.step at 1. rewrite Hm /=. exact IH.
Qed.
End ConcIdle.

Local Arguments loop_head : simpl never.

(** X20. Under every schedule, a batch size of zero or less never gets a
    worker started, a call made or the world changed, and [Sync] never
    returns: with batch size [0] its loop does not end, with a negative
    batch size its first step is the panic of the slice expression. *)
Theorem every_schedule_nonpositive_batch_size {W : Type} `{!Backend W}
    (mount path : string) (srcList : list string) (batchSize : Z)
    (w : W) (sched : list Conc.Tid) :
  srcList ≠ [] →
  GoInt.min_int ≤ batchSize ≤ 0 →
  Conc.pool (Conc.run mount path srcList batchSize sched (Conc.init w)) = []
  ∧ Conc.cworld (Conc.run mount path srcList batchSize sched (Conc.init w)) = w
  ∧ calls_of (reverse
                ((Conc.ctrace (Conc.run mount path srcList batchSize sched (Conc.init w))).*2))
    = []
  ∧ Conc.main (Conc.run mount path srcList batchSize sched (Conc.init w))
    ≠ Conc.AtEnd (Returns ())
  ∧ (batchSize = 0 →
     ∀ r, Conc.main (Conc.run mount path srcList batchSize sched (Conc.init w))
          ≠ Conc.AtEnd r)
  ∧ (batchSize < 0 →
     Conc.main (Conc.run mount path srcList batchSize (Conc.TMain :: sched) (Conc.init w))
     = Conc.AtEnd Panics).
Proof.
  intros Hne Hbs.
  destruct (idle_run mount path srcList batchSize Hne Hbs w sched (Conc.init w))
    as (Hpool & Hw & Hc & Hm).
  { split; [done|]. split; [done|]. split; [done|]. by left. }
  split; [done|]. split; [done|]. split; [done|]. split; [|split].
  - destruct Hm as [Hm|[[Hz [Hm|Hm]]|[Hn Hm]]]; by rewrite Hm.
  - intros Hz r. destruct Hm as [Hm|[[_ [Hm|Hm]]|[Hn Hm]]]; rewrite ?Hm; try done. lia.
  - intros Hn. simpl. unfold Conc.step at 1. simpl.
    unfold Conc.step_main. simpl.
    rewrite (loop_head_nonpositive srcList batchSize Hne Hbs).
    rewrite bool_decide_eq_false_2; [lia|]. simpl. by rewrite panicked_run.
Qed.

Lemma every_schedule_nonpositive_batch_size_witness :
  ["a"; "b"; "c"] ≠ []
  ∧ GoInt.min_int ≤ 0 ≤ 0
  ∧ Conc.pool (Conc.run "secret" "team/" ["a"; "b"; "c"] 0 Conc.team_schedule
                 (Conc.init (team_world team_keys no_fault))) = []
  ∧ Conc.main (Conc.run "secret" "team/" ["a"; "b"; "c"] 0 Conc.team_schedule
                 (Conc.init (team_world team_keys no_fault)))
    ≠ Conc.AtEnd (Returns ()).
Proof.
  assert (["a"; "b"; "c"] ≠ ([] : list string)) as H1 by discriminate.
  assert (GoInt.min_int ≤ 0 ≤ 0) as H2 by (vm_compute; split; discriminate).
  repeat (split; [assumption|]).
  pose proof (every_schedule_nonpositive_batch_size "secret" "team/" ["a"; "b"; "c"] 0
                (team_world team_keys no_fault) Conc.team_schedule H1 H2)
    as (Hp & _ & _ & Hm & _).
  split; [exact Hp|exact Hm].
Defined.

Local Arguments Sync : simpl never.
Local Arguments NewSyncer : simpl never.

(** X21. When [NewSyncer] fails ([NewConfig] could not decode the
    configuration, a section is missing, no token is given, a token
    command fails, ...), [runFunc] logs the error and goes on to call
    [Sync] on the nil pointer it was left with: the run ends in a panic
    right after the line "Starting sync"; it has left log lines only, and
    the world as it was. *)
Theorem runFunc_without_syncer {W : Type} `{!Backend W}
    (fuel : nat) (P : Platform) (C : CliPlatform) (config_file log_level : string)
    (st : State W) (err : error) :
  NewSyncer P (decoded C config_file) = Err err →
  ran_outcome (runFunc fuel P C config_file log_level st) = Panics
  ∧ world (ran_state (runFunc fuel P C config_file log_level st)) = world st
  ∧ ∃ evs,
      trace (ran_state (runFunc fuel P C config_file log_level st)) = trace st ++ evs
      ∧ Forall log_event evs
      ∧ last evs = Some (EvLog InfoLevel "Starting sync" "").
Proof.
  unfold decoded, runFunc, NewConfig. intros Hnew.
  destruct (viper_ReadInConfig C config_file) as [[read_err|] v]; simpl in Hnew;
    destruct (zerolog_ParseLevel C log_level) as [lvl|e];
    destruct (viper_Unmarshal v) as [c|e']; rewrite Hnew /=.
  all: split; [done|]; split; [done|].
  all: eexists; split; [rewrite -!app_assoc; reflexivity|].
  all: split; [by repeat constructor|done].
Qed.

Lemma runFunc_without_syncer_witness :
  NewSyncer (helper_platform "") (decoded no_config "./config.yaml")
    = Err (Wrapf "failed to initialize source vault" (Errorf "vault config is nil"))
  ∧ ran_outcome (runFunc 5 (helper_platform "") no_config "./config.yaml" "info"
                   (start (team_world team_keys no_fault)))
    = Panics.
Proof.
  assert (NewSyncer (helper_platform "") (decoded no_config "./config.yaml")
    = Err (Wrapf "failed to initialize source vault" (Errorf "vault config is nil"))) as H1
    by reflexivity.
  split; [exact H1|].
  exact (proj1 (runFunc_without_syncer 5 (helper_platform "") no_config "./config.yaml" "info"
                  (start (team_world team_keys no_fault)) _ H1)).
Defined.

(** X22. An error of [Sync] does not leave [runFunc]: when the listing
    call fails, [runFunc] logs "Failed to sync" and returns like a run
    that went well (the command is a [Run] function; nothing is handed to
    [CLI] or [main]). *)
Theorem runFunc_hides_sync_error {W : Type} `{!Backend W}
    (fuel : nat) (P : Platform) (C : CliPlatform) (config_file log_level : string)
    (st : State W) (s : Syncer) (sv : Vault) (err : error) (w' : W) :
  NewSyncer P (decoded C config_file) = Ok s →
  SourceVault (cfg s) = Some sv →
  vault_call (VaultList OnSource (Mount sv +:+ "/metadata/" +:+ Path sv) (Mount sv))
    (world st) = (Err err, w') →
  ran_outcome (runFunc fuel P C config_file log_level st) = Returns ()
  ∧ last (trace (ran_state (runFunc fuel P C config_file log_level st)))
    = Some (EvLog ErrorLevel "Failed to sync" "")
  ∧ started_of (trace (ran_state (runFunc fuel P C config_file log_level st)))
    = started_of (trace st).
Proof.
  unfold decoded, runFunc, NewConfig. intros Hnew Hsv Hcall.
  destruct (viper_ReadInConfig C config_file) as [[read_err|] v]; simpl in Hnew;
    destruct (zerolog_ParseLevel C log_level) as [lvl|e];
    destruct (viper_Unmarshal v) as [c|e']; rewrite Hnew /=.
  all: rewrite /Sync Hsv /listSourcePath /call /log /= Hcall /=.
  all: split; [done|]; split; [by rewrite last_snoc|].
  all: rewrite /started_of !omap_app /=; by rewrite !app_nil_r.
Qed.

Lemma runFunc_hides_sync_error_witness :
  NewSyncer (helper_platform "") (decoded (team_config 2) "./config.yaml")
    = Ok {| cfg := {| BatchSize := 2; SourceVault := Some team_vault;
                      DestinationVault := Some team_vault |};
            sourceVault := {| client_address := "http://localhost:8200";
                              client_token := "hvs.source" |};
            destinationVault := {| client_address := "http://localhost:8200";
                                   client_token := "hvs.source" |} |}
  ∧ vault_call (VaultList OnSource (Mount team_vault +:+ "/metadata/" +:+ Path team_vault)
                  (Mount team_vault))
      (world (start (team_world team_keys all_fail)))
    = (Err (LibError "request failed"), team_world team_keys all_fail)
  ∧ ran_outcome (runFunc 5 (helper_platform "") (team_config 2) "./config.yaml" "info"
                   (start (team_world team_keys all_fail)))
    = Returns ().
Proof.
  split; [reflexivity|]. split; [reflexivity|].
  exact (proj1 (runFunc_hides_sync_error 5 (helper_platform "") (team_config 2)
                  "./config.yaml" "info" (start (team_world team_keys all_fail))
                  _ team_vault _ _ eq_refl eq_refl eq_refl)).
Defined.

Lemma set_credential_None tk ck token command v :
  set_credential tk ck token command v = None ↔ token = "" ∧ command = "".
Proof.
  unfold set_credential.
  destruct (String.eqb_spec token ""), (String.eqb_spec command ""); simpl;
    split; try done; by intros [? ?].
Qed.

(** X23. [initFunc] ends in [log.Fatal()] exactly when the source or the
    target has neither a token nor a token command; nothing is written
    then.  Nothing else stops it: every batch size, negative ones and zero
    included, and every address, path and mount are let through. *)
Theorem initFunc_fatal (config_file : string) (f : InitFlags) (v : gmap string Setting) :
  initFunc config_file f v = FatalExit
  ↔ (source_token f = "" ∧ source_token_command f = "")
    ∨ (target_token f = "" ∧ target_token_command f = "").
Proof.
  unfold initFunc.
  destruct (set_credential "srcVault.token" _ _ _ _) as [v1|] eqn:Hsrc.
  - destruct (set_credential "destVault.token" _ _ _ _) as [v2|] eqn:Hdst.
    + split; [done|]. intros [H|H].
      * by rewrite (proj2 (set_credential_None _ _ _ _ _) H) in Hsrc.
      * by rewrite (proj2 (set_credential_None _ _ _ _ _) H) in Hdst.
    + split; [|done]. intros _. right. by apply set_credential_None in Hdst.
  - split; [|done]. intros _. left. by apply set_credential_None in Hsrc.
Qed.

Lemma set_unless_empty_ne key value (v : gmap string Setting) k :
  k ≠ key → set_unless_empty key value v !! k = v !! k.
Proof.
  intros Hk. unfold set_unless_empty. destruct (String.eqb value ""); [done|].
  rewrite lookup_insert_ne; congruence.
Qed.

Lemma set_credential_ne tk ck token command (v v' : gmap string Setting) k :
  set_credential tk ck token command v = Some v' → k ≠ tk → k ≠ ck → v' !! k = v !! k.
Proof.
  unfold set_credential. intros Hs H1 H2.
  destruct (String.eqb token ""), (String.eqb command ""); simplify_eq/=;
    rewrite lookup_insert_ne; congruence.
Qed.

Lemma set_credential_one tk ck token command (v v' : gmap string Setting) :
  tk ≠ ck →
  set_credential tk ck token command v = Some v' →
  (token ≠ "" → v' !! tk = Some (StringSetting token) ∧ v' !! ck = v !! ck)
  ∧ (token = "" →
     command ≠ "" ∧ v' !! tk = v !! tk ∧ v' !! ck = Some (StringSetting command)).
Proof.
  unfold set_credential. intros Hne Hs.
  destruct (String.eqb_spec token ""), (String.eqb_spec command ""); simplify_eq/=.
  - split; [done|]. intros _. split; [done|].
    rewrite lookup_insert_eq lookup_insert_ne; [congruence|done].
  - split; [|done]. intros _. rewrite lookup_insert_eq lookup_insert_ne; done.
  - split; [|done]. intros _. rewrite lookup_insert_eq lookup_insert_ne; done.
Qed.

(** X24. The settings [initFunc] hands to [v.WriteConfig()], starting from
    an empty [v], hold for the source and for the target exactly one of a
    token and a token command, and that one is not empty: the token when
    one is given, the command otherwise.  The batch size is among them
    unless it is [0]. *)
Theorem initFunc_one_credential (config_file : string) (f : InitFlags)
    (file : string) (v' : gmap string Setting) :
  initFunc config_file f ∅ = ConfigWritten file v' →
  file = config_file
  ∧ v' !! "batchSize"
    = (if bool_decide (batch_size f = 0) then None else Some (IntSetting (batch_size f)))
  ∧ (source_token f ≠ "" →
     v' !! "srcVault.token" = Some (StringSetting (source_token f))
     ∧ v' !! "srcVault.tokenCmd" = None)
  ∧ (source_token f = "" →
     source_token_command f ≠ ""
     ∧ v' !! "srcVault.token" = None
     ∧ v' !! "srcVault.tokenCmd" = Some (StringSetting (source_token_command f)))
  ∧ (target_token f ≠ "" →
     v' !! "destVault.token" = Some (StringSetting (target_token f))
     ∧ v' !! "destVault.tokenCmd" = None)
  ∧ (target_token f = "" →
     target_token_command f ≠ ""
     ∧ v' !! "destVault.token" = None
     ∧ v' !! "destVault.tokenCmd" = Some (StringSetting (target_token_command f))).
Proof.
  unfold initFunc.
  set (v0 := if bool_decide (batch_size f = 0) then ∅
             else <["batchSize" := IntSetting (batch_size f)]> ∅).
  assert (∀ k, k ≠ "batchSize" → v0 !! k = None) as Hv0.
  { intros k Hk. unfold v0. case_bool_decide; [done|]. rewrite lookup_insert_ne; [congruence|done]. }
  assert (v0 !! "batchSize"
          = (if bool_decide (batch_size f = 0) then None
             else Some (IntSetting (batch_size f)))) as Hb.
  { unfold v0. case_bool_decide; [done|]. by rewrite lookup_insert_eq. }
  destruct (set_credential "srcVault.token" _ _ _ _) as [v1|] eqn:Hsrc; [|done].
  destruct (set_credential "destVault.token" _ _ _ _) as [v2|] eqn:Hdst; [|done].
  intros [= <- <-]. split; [done|].
  pose proof (set_credential_ne _ _ _ _ _ _ "batchSize" Hsrc ltac:(done) ltac:(done)) as Hs0.
  pose proof (set_credential_ne _ _ _ _ _ _ "batchSize" Hdst ltac:(done) ltac:(done)) as Hd0.
  pose proof (set_credential_ne _ _ _ _ _ _ "srcVault.token" Hdst ltac:(done) ltac:(done))
    as Hd1.
  pose proof (set_credential_ne _ _ _ _ _ _ "srcVault.tokenCmd" Hdst ltac:(done) ltac:(done))
    as Hd2.
  pose proof (set_credential_ne _ _ _ _ _ _ "destVault.token" Hsrc ltac:(done) ltac:(done))
    as He1.
  pose proof (set_credential_ne _ _ _ _ _ _ "destVault.tokenCmd" Hsrc ltac:(done) ltac:(done))
    as He2.
  destruct (set_credential_one "srcVault.token" "srcVault.tokenCmd" _ _ _ _
              ltac:(done) Hsrc) as [Hs1 Hs2].
  destruct (set_credential_one "destVault.token" "destVault.tokenCmd" _ _ _ _
              ltac:(done) Hdst) as [Hd3 Hd4].
  rewrite !set_unless_empty_ne // in Hs1, Hs2, Hs0, He1, He2.
  rewrite !set_unless_empty_ne // in Hd3, Hd4, Hd0, Hd1, Hd2.
  rewrite !Hv0 // in Hs1, Hs2, He1, He2.
  rewrite Hs0 Hb in Hd0. rewrite He1 He2 in Hd3, Hd4.
  rewrite !set_unless_empty_ne // Hd0 Hd1 Hd2.
  repeat split; try tauto.
Qed.

Lemma initFunc_one_credential_witness :
  initFunc "./config.yaml" (default_flags "hvs.source" "hvs.target") ∅
    = ConfigWritten "./config.yaml" default_settings
  ∧ default_settings !! "srcVault.token" = Some (StringSetting "hvs.source")
  ∧ default_settings !! "srcVault.tokenCmd" = None.
Proof.
  assert (initFunc "./config.yaml" (default_flags "hvs.source" "hvs.target") ∅
    = ConfigWritten "./config.yaml" default_settings) as H1 by reflexivity.
  split; [exact H1|].
  apply (proj1 (proj2 (proj2 (initFunc_one_credential _ _ _ _ H1)))). discriminate.
Defined.

Lemma escape_stray (b : Z) (rest : list Z) (fuel : nat) :
  0x80 ≤ b ≤ 0xbf →
  Json.escape (S fuel) (b :: rest) = bytes_of "\ufffd" ++ Json.escape fuel rest.
Proof.
  intros Hb. cbn [Json.escape].
  rewrite bool_decide_eq_false_2; [lia|].
  assert (Json.utf8_len (b :: rest) = 0%nat) as Hlen.
  { unfold Json.utf8_len, Json.between.
    destruct rest as [|b1 [|b2 rest]]; [done| |].
    all: rewrite !(bool_decide_eq_false_2 (_ ≤ b ≤ _)); try lia; done. }
  by rewrite Hlen.
Qed.

(** X25. [eq] does not tell apart two strings that differ in a byte that
    is no UTF-8: [json.Marshal] writes the replacement character for
    either byte, so a string that starts with one stray continuation byte
    and the string with another one in its place have the same encoding,
    and the same digest. *)
Theorem eq_ignores_stray_bytes (a a' : ascii) (s : string) :
  0x80 ≤ byte_of a ≤ 0xbf →
  0x80 ≤ byte_of a' ≤ 0xbf →
  eq (VString (String a s)) (VString (String a' s)) = true
  ∧ (a ≠ a' → same_document (VString (String a s)) (VString (String a' s)) = false).
Proof.
  intros Ha Ha'. split.
  - unfold eq. apply bool_decide_eq_true. f_equal.
    unfold Json.Marshal, Json.encodeString.
    change (bytes_of (String a s)) with (byte_of a :: bytes_of s).
    change (bytes_of (String a' s)) with (byte_of a' :: bytes_of s).
    change (String.length (String a s)) with (S (String.length s)).
    change (String.length (String a' s)) with (S (String.length s)).
    by rewrite !escape_stray.
  - intros Hne. simpl. apply bool_decide_eq_false. congruence.
Qed.

Lemma eq_ignores_stray_bytes_witness :
  0x80 ≤ byte_of "128"%char ≤ 0xbf
  ∧ 0x80 ≤ byte_of "129"%char ≤ 0xbf
  ∧ eq (VString (String "128" "bc")) (VString (String "129" "bc")) = true
  ∧ same_document (VString (String "128" "bc")) (VString (String "129" "bc")) = false.
Proof.
  assert (0x80 ≤ byte_of "128"%char ≤ 0xbf) as H1 by (vm_compute; split; discriminate).
  assert (0x80 ≤ byte_of "129"%char ≤ 0xbf) as H2 by (vm_compute; split; discriminate).
  repeat (split; [assumption|]).
  split; [exact (proj1 (eq_ignores_stray_bytes "128" "129" "bc" H1 H2))|].
  apply (proj2 (eq_ignores_stray_bytes "128" "129" "bc" H1 H2)). discriminate.
Defined.
